(** * StravaCal: reconciler and interchange serializer

    A shallow embedding of the Go sources of StravaCal (main.go, strava.go,
    gcal.go, types.go and the two revisions of ics.go) together with the
    properties stated about them.

    Conventions.
    - A Go [string] is an immutable byte sequence: [gostring := list ascii].
      [len] is [length]; slicing [s[:n]] / [s[n:]] is [take n s] / [drop n s].
    - [int64] values are integers of [Z] with the range written out where the
      code depends on it.
    - Functions of the Go standard library that the sources call are modelled
      before the code that calls them, from their documented behaviour.
    - What a run reads from outside the program (the clock, the environment,
      the time-zone database, the cache file, what the calendar service
      lists, what the Strava API answers) is passed in explicitly, as a
      record of the run's environment or as a parameter; so are the JSON
      decoders.  [convertStravaEvent] and [loadExistingEvents] take the
      redaction they apply as a parameter; [Strava.redactPhoneNumbers] is
      the one of the program.
    - A call on the calendar service is an effect: a run returns the list of
      the calls it makes, in order. *)

From Stdlib Require Import ZArith List String Ascii Lia Bool Permutation.
From stdpp Require Import gmap list.
Import ListNotations.
Open Scope Z_scope.

(** ** Go strings *)

Definition gostring := list ascii.

Notation "`` s" := (list_ascii_of_string s) (at level 1, format "`` s").

(** The numeric value of a byte. *)
Definition byteVal (c : ascii) : Z := Z.of_N (N_of_ascii c).

Definition LF : ascii := ascii_of_nat 10.
Definition CR : ascii := ascii_of_nat 13.
Definition SP : ascii := ascii_of_nat 32.

(** The double quote, as a string. *)
Definition quote : gostring := [ascii_of_nat 34].

(** Results of fallible calls: Go's [(value, error)] pairs. *)
Inductive result (E A : Type) : Type :=
| Ok (a : A)
| Err (e : E).
Arguments Ok {E A} a.
Arguments Err {E A} e.

Module Strings.

(** [strings.HasPrefix]. *)
Fixpoint HasPrefix (s prefix : gostring) {struct prefix} : bool :=
  match prefix, s with
  | [], _ => true
  | p :: prefix', c :: s' => bool_decide (p = c) && HasPrefix s' prefix'
  | _ :: _, [] => false
  end.

(** [strings.ReplaceAll s old new] for a non-empty [old]: every
    non-overlapping occurrence of [old], found from the left, is replaced by
    [new].  [skip] counts the bytes of a matched occurrence that are still to
    be passed over. *)
Fixpoint replaceFrom (old new : gostring) (skip : nat) (s : gostring) : gostring :=
  match s with
  | [] => []
  | c :: s' =>
      match skip with
      | S k => replaceFrom old new k s'
      | O =>
          if HasPrefix s old
          then new ++ replaceFrom old new (Nat.pred (length old)) s'
          else c :: replaceFrom old new O s'
      end
  end.

Definition ReplaceAll (s old new : gostring) : gostring :=
  replaceFrom old new O s.

(** [strings.Split s sep] for a one-byte separator: the pieces between the
    separators, at least one piece. *)
Fixpoint splitByte (sep : ascii) (cur : gostring) (s : gostring) : list gostring :=
  match s with
  | [] => [rev cur]
  | c :: s' =>
      if bool_decide (c = sep)
      then rev cur :: splitByte sep [] s'
      else splitByte sep (c :: cur) s'
  end.

Definition Split1 (s : gostring) (sep : ascii) : list gostring :=
  splitByte sep [] s.

(** [unicode.IsSpace] on the rune that starts [s], as the number of bytes
    the rune takes (0 when it is no space): the ASCII spaces tab, newline,
    vertical tab, form feed, carriage return and space, and the UTF-8
    encodings of U+0085, U+00A0, U+1680, U+2000..U+200A, U+2028, U+2029,
    U+202F, U+205F and U+3000. *)
Definition spaceBytes (b1 : Z) (rest : list Z) : nat :=
  if ((9 <=? b1) && (b1 <=? 13)) || (b1 =? 32) then 1%nat
  else
    match rest with
    | b2 :: rest2 =>
        if (b1 =? 194) && ((b2 =? 133) || (b2 =? 160)) then 2%nat
        else
          match rest2 with
          | b3 :: _ =>
              if ((b1 =? 225) && (b2 =? 154) && (b3 =? 128))
                 || ((b1 =? 226) && (b2 =? 128)
                     && (((128 <=? b3) && (b3 <=? 138)) || (b3 =? 168) || (b3 =? 169) || (b3 =? 175)))
                 || ((b1 =? 226) && (b2 =? 129) && (b3 =? 159))
                 || ((b1 =? 227) && (b2 =? 128) && (b3 =? 128))
              then 3%nat else 0%nat
          | [] => 0%nat
          end
    | [] => 0%nat
    end.

(** [strings.TrimLeftFunc(s, unicode.IsSpace)]. *)
Fixpoint trimLeftSpace (s : gostring) : gostring :=
  match s with
  | [] => []
  | c1 :: s1 =>
      match spaceBytes (byteVal c1) (map byteVal (take 2 s1)) with
      | 1%nat => trimLeftSpace s1
      | 2%nat => match s1 with _ :: s2 => trimLeftSpace s2 | [] => s end
      | 3%nat => match s1 with _ :: _ :: s3 => trimLeftSpace s3 | _ => s end
      | _ => s
      end
  end.

(** [strings.TrimRightFunc(s, unicode.IsSpace)] on the reversed bytes [r]:
    the last rune of [s] is a space exactly when [s] ends with the encoding
    of one. *)
Fixpoint trimRightSpaceRev (r : gostring) : gostring :=
  match r with
  | [] => []
  | c1 :: r1 =>
      if Nat.eqb (spaceBytes (byteVal c1) []) 1 then trimRightSpaceRev r1
      else
        match r1 with
        | c2 :: r2 =>
            if Nat.eqb (spaceBytes (byteVal c2) [byteVal c1]) 2 then trimRightSpaceRev r2
            else
              match r2 with
              | c3 :: r3 =>
                  if Nat.eqb (spaceBytes (byteVal c3) [byteVal c2; byteVal c1]) 3
                  then trimRightSpaceRev r3 else r
              | [] => r
              end
        | [] => r
        end
  end.

(** [strings.TrimSpace]. *)
Definition TrimSpace (s : gostring) : gostring :=
  rev (trimRightSpaceRev (rev (trimLeftSpace s))).

End Strings.

(** ** [strconv]: decimal integers *)

Module Strconv.

Inductive NumError := ErrSyntax | ErrRange.

Definition maxUint64 : Z := 2 ^ 64 - 1.

Definition isDigit (c : ascii) : bool :=
  (48 <=? byteVal c) && (byteVal c <=? 57).

Definition digitChar (d : Z) : ascii := ascii_of_N (Z.to_N (48 + d)).

(** The loop of [strconv.ParseUint(s, 10, 64)]: [n] is the value read so far.
    A byte that is no decimal digit is a syntax error (an underscore too: the
    base is given); the two overflow tests are the source's, on the
    wrapped-around 64-bit product and sum. *)
Fixpoint parseUintLoop (s : gostring) (n : Z) : result NumError Z :=
  match s with
  | [] => Ok n
  | c :: s' =>
      if negb (isDigit c) then Err ErrSyntax
      else
        let d := byteVal c - 48 in
        let cutoff := maxUint64 / 10 + 1 in
        if cutoff <=? n then Err ErrRange
        else
          let n10 := (n * 10) mod 2 ^ 64 in
          let n1 := (n10 + d) mod 2 ^ 64 in
          if (n1 <? n10) || (maxUint64 <? n1) then Err ErrRange
          else parseUintLoop s' n1
  end.

Definition ParseUint (s : gostring) : result NumError Z :=
  match s with
  | [] => Err ErrSyntax
  | _ => parseUintLoop s 0
  end.

(** [strconv.ParseInt(s, 10, 64)]. *)
Definition ParseInt (s : gostring) : result NumError Z :=
  match s with
  | [] => Err ErrSyntax
  | c :: s' =>
      let neg := bool_decide (c = "-"%char) in
      let body := if bool_decide (c = "+"%char) || neg then s' else s in
      match ParseUint body with
      | Err e => Err e
      | Ok un =>
          let cutoff := 2 ^ 63 in
          if negb neg && (cutoff <=? un) then Err ErrRange
          else if neg && (cutoff <? un) then Err ErrRange
          else Ok (if neg then - un else un)
      end
  end.

(** The digits of [u], most significant first, in front of [acc]
    ([strconv.formatBits] in base 10).  Twenty digits hold any 64-bit value. *)
Fixpoint formatBits (fuel : nat) (u : Z) (acc : gostring) : gostring :=
  match fuel with
  | O => acc
  | S fuel' =>
      let acc' := digitChar (u mod 10) :: acc in
      if u <? 10 then acc' else formatBits fuel' (u / 10) acc'
  end.

(** [strconv.FormatInt(i, 10)], which [%d] prints for an [int64]. *)
Definition FormatInt (i : Z) : gostring :=
  if i <? 0 then "-"%char :: formatBits 20 (- i) [] else formatBits 20 i [].

End Strconv.

(** ** [fmt]: the one scanning call of the reconciler *)

Module Fmt.

(** The errors the scan can return: "unexpected newline", [io.EOF] when
    the input ends where an operand should start, "expected integer",
    [io.ErrUnexpectedEOF] when the input ends inside the literal text,
    "input does not match format", and the error of [strconv.ParseInt]. *)
Inductive ScanError :=
| UnexpectedNewline
| EOF
| ExpectedInteger
| UnexpectedEOF
| InputMismatch
| BadNumber (e : Strconv.NumError).

(** [fmt]'s table of space runes: U+0009..U+000D, U+0020, U+0085, U+00A0,
    U+1680, U+2000..U+200A, U+2028, U+2029, U+202F, U+205F, U+3000.  The
    scanner reads runes; a rune of the table other than an ASCII one is read
    exactly when the input holds its UTF-8 encoding, two or three bytes. *)
Definition isAsciiSpace (c : ascii) : bool :=
  ((9 <=? byteVal c) && (byteVal c <=? 13)) || (byteVal c =? 32).

Definition isSpace2 (c1 c2 : ascii) : bool :=
  (byteVal c1 =? 194) && ((byteVal c2 =? 133) || (byteVal c2 =? 160)).

Definition isSpace3 (c1 c2 c3 : ascii) : bool :=
  let b1 := byteVal c1 in
  let b2 := byteVal c2 in
  let b3 := byteVal c3 in
  ((b1 =? 225) && (b2 =? 154) && (b3 =? 128))
  || ((b1 =? 226) && (b2 =? 128)
      && (((128 <=? b3) && (b3 <=? 138)) || (b3 =? 168) || (b3 =? 169) || (b3 =? 175)))
  || ((b1 =? 226) && (b2 =? 129) && (b3 =? 159))
  || ((b1 =? 227) && (b2 =? 128) && (b3 =? 128)).

(** [ss.SkipSpace] as [Sscanf] runs it (a newline is no space there): the
    input from its first rune that is no space, or the error raised at a
    newline.  A carriage return is a space whether or not a newline follows
    it. *)
Fixpoint SkipSpace (s : gostring) : result ScanError gostring :=
  match s with
  | [] => Ok []
  | c1 :: s1 =>
      if byteVal c1 =? 10 then Err UnexpectedNewline
      else if isAsciiSpace c1 then SkipSpace s1
      else
        match s1 with
        | [] => Ok s
        | c2 :: s2 =>
            if isSpace2 c1 c2 then SkipSpace s2
            else
              match s2 with
              | [] => Ok s
              | c3 :: s3 => if isSpace3 c1 c2 c3 then SkipSpace s3 else Ok s
              end
        end
  end.

Definition isSign (c : ascii) : bool :=
  bool_decide (c = "+"%char) || bool_decide (c = "-"%char).

(** The bytes [scanNumber] accepts for the verb [%d]: the decimal digits
    "0123456789" (an underscore is accepted for the verb [%v] only). *)
Definition isNumberByte (c : ascii) : bool := Strconv.isDigit c.

(** The longest prefix of accepted bytes, and the rest. *)
Fixpoint acceptWhile (ok : ascii -> bool) (s : gostring) : gostring * gostring :=
  match s with
  | [] => ([], [])
  | c :: s' =>
      if ok c
      then let '(tok, rest) := acceptWhile ok s' in (c :: tok, rest)
      else ([], s)
  end.

(** [ss.scanInt('d', 64)]: skip spaces, accept one sign, accept at least
    one digit, convert the token with [strconv.ParseInt]. *)
Definition scanInt (s : gostring) : result ScanError (Z * gostring) :=
  match SkipSpace s with
  | Err e => Err e
  | Ok [] => Err EOF
  | Ok ((c :: s1) as s0) =>
      let '(sign, s2) := if isSign c then ([c], s1) else ([], s0) in
      match s2 with
      | [] => Err EOF
      | d :: _ =>
          if negb (isNumberByte d) then Err ExpectedInteger
          else
            let '(digits, rest) := acceptWhile isNumberByte s2 in
            match Strconv.ParseInt (sign ++ digits) with
            | Err e => Err (BadNumber e)
            | Ok i => Ok (i, rest)
            end
      end
  end.

(** [ss.advance] over literal text of the format that holds no space and
    no percent sign: each byte of the format must be the next byte of the
    input. *)
Fixpoint advanceLiteral (lit s : gostring) : result ScanError gostring :=
  match lit with
  | [] => Ok s
  | f :: lit' =>
      match s with
      | [] => Err UnexpectedEOF
      | c :: s' =>
          if bool_decide (f = c) then advanceLiteral lit' s' else Err InputMismatch
      end
  end.

(** What [n, err := fmt.Sscanf(input, "%d" + lit, &v)] leaves behind: the
    count of operands scanned, the error, and the integer stored in [v]
    ([v] keeps its zero value when the verb fails).  Input after the last
    byte the format matched is not read. *)
Record Scanned := { scanned_n : Z; scanned_err : option ScanError; scanned_v : Z }.

Definition Sscanf_d (input lit : gostring) : Scanned :=
  match scanInt input with
  | Err e => {| scanned_n := 0; scanned_err := Some e; scanned_v := 0 |}
  | Ok (v, rest) =>
      match advanceLiteral lit rest with
      | Err e => {| scanned_n := 1; scanned_err := Some e; scanned_v := v |}
      | Ok _ => {| scanned_n := 1; scanned_err := None; scanned_v := v |}
      end
  end.

(** [fmt.Sprintf("%d" + lit, i)] for an [int64]. *)
Definition Sprintf_d (i : Z) (lit : gostring) : gostring :=
  Strconv.FormatInt i ++ lit.

End Fmt.

(** ** [time]: instants, comparison, addition and the one layout parsed *)

Module GoTime.

(** A [time.Time] that carries no monotonic clock reading: the seconds since
    January 1, year 1, 00:00:00 UTC (the 64-bit field [ext]) and the
    nanoseconds within the second. *)
Record Time := { sec : Z; nsec : Z }.

(** The zero [Time], which [time.Parse] returns beside an error. *)
Definition zero : Time := {| sec := 0; nsec := 0 |}.

Definition After (t u : Time) : bool :=
  (sec u <? sec t) || ((sec t =? sec u) && (nsec u <? nsec t)).

Definition Before (t u : Time) : bool :=
  (sec t <? sec u) || ((sec t =? sec u) && (nsec t <? nsec u)).

Definition Equal (t u : Time) : bool :=
  (sec t =? sec u) && (nsec t =? nsec u).

(** A [time.Duration] is a count of nanoseconds. *)
Definition Second : Z := 10 ^ 9.
Definition Hour : Z := 3600 * Second.

Definition wrap64 (x : Z) : Z := (x + 2 ^ 63) mod 2 ^ 64 - 2 ^ 63.

(** [Time.addSec]: the sum of the seconds, saturated when it overflows
    64 bits. *)
Definition addSec (ext d : Z) : Z :=
  let sum := wrap64 (ext + d) in
  if Bool.eqb (ext <? sum) (0 <? d) then sum
  else if 0 <? d then 2 ^ 63 - 1
  else - (2 ^ 63 - 1).

(** [Time.Add]. *)
Definition Add (t : Time) (d : Z) : Time :=
  let dsec := Z.quot d Second in
  let ns := nsec t + Z.rem d Second in
  let '(dsec, ns) :=
    if Second <=? ns then (dsec + 1, ns - Second)
    else if ns <? 0 then (dsec - 1, ns + Second)
    else (dsec, ns) in
  {| sec := addSec (sec t) dsec; nsec := ns |}.

(** The instant as one count of nanoseconds, for stating distances. *)
Definition nanos (t : Time) : Z := sec t * Second + nsec t.

Definition isLeap (year : Z) : bool :=
  (year mod 4 =? 0) && (negb (year mod 100 =? 0) || (year mod 400 =? 0)).

(** [daysBefore[m-1]]: days of a common year before month [m]. *)
Definition daysBefore (m : Z) : Z :=
  nth (Z.to_nat (m - 1)) [0; 31; 59; 90; 120; 151; 181; 212; 243; 273; 304; 334; 365] 0.

Definition daysIn (m year : Z) : Z :=
  if (m =? 2) && isLeap year then 29 else daysBefore (m + 1) - daysBefore m.

(** Days from January 1 of year 1 to January 1 of [year] in the proleptic
    Gregorian calendar, the count [time.Date] works with. *)
Definition daysSinceYear1 (year : Z) : Z :=
  let y := year - 1 in
  365 * y + y / 4 - y / 100 + y / 400.

(** [time.Date(year, month, day, hour, min, sec, nsec, time.UTC)] for fields
    already in range. *)
Definition DateUTC (year month day hour min s ns : Z) : Time :=
  let d := daysSinceYear1 year + daysBefore month
           + (if isLeap year && (3 <=? month) then 1 else 0) + (day - 1) in
  {| sec := d * 86400 + hour * 3600 + min * 60 + s; nsec := ns |}.

(** [t.AddDate(0, 0, days)] for a [t] whose location is UTC, where every
    day has 86400 seconds. *)
Definition AddDaysUTC (t : Time) (days : Z) : Time :=
  {| sec := sec t + days * 86400; nsec := nsec t |}.

Definition digitOf (c : ascii) : Z := byteVal c - 48.

(** [getnum]: one or two digits, two when [fixed]. *)
Definition getnum (s : gostring) (fixed : bool) : option (Z * gostring) :=
  match s with
  | c1 :: s1 =>
      if negb (Strconv.isDigit c1) then None
      else
        match s1 with
        | c2 :: s2 =>
            if Strconv.isDigit c2 then Some (digitOf c1 * 10 + digitOf c2, s2)
            else if fixed then None else Some (digitOf c1, s1)
        | [] => if fixed then None else Some (digitOf c1, s1)
        end
  | [] => None
  end.

(** The year of the layout element [2006]: exactly four digits. *)
Definition getYear (s : gostring) : option (Z * gostring) :=
  match s with
  | c1 :: c2 :: c3 :: c4 :: rest =>
      if forallb Strconv.isDigit [c1; c2; c3; c4]
      then Some (((digitOf c1 * 10 + digitOf c2) * 10 + digitOf c3) * 10 + digitOf c4, rest)
      else None
  | _ => None
  end.

Definition expect (c : ascii) (s : gostring) : option gostring :=
  match s with
  | c' :: rest => if bool_decide (c = c') then Some rest else None
  | [] => None
  end.

(** A fraction of a second that follows the seconds though the layout has
    none: a period or comma and digits, of which nine at most count. *)
Definition fraction (s : gostring) : Z * gostring :=
  match s with
  | p :: d :: _ =>
      if (bool_decide (p = "."%char) || bool_decide (p = ","%char)) && Strconv.isDigit d
      then
        let '(digits, rest) := Fmt.acceptWhile Strconv.isDigit (tl s) in
        let used := take 9 digits in
        (fold_left (fun a c => a * 10 + digitOf c) used 0 * 10 ^ Z.of_nat (9 - length used), rest)
      else (0, s)
  | _ => (0, s)
  end.

(** [time.Parse("2006-01-02T15:04:05Z", value)]: [None] stands for the
    parse error. *)
Definition ParseStravaLayout (value : gostring) : option Time :=
  '(year, v) ← getYear value;
  v ← expect "-" v;
  '(month, v) ← getnum v true;
  if (month <=? 0) || (12 <? month) then None else
  v ← expect "-" v;
  '(day, v) ← getnum v true;
  v ← expect "T" v;
  '(hour, v) ← getnum v false;
  if 24 <=? hour then None else
  v ← expect ":" v;
  '(min, v) ← getnum v true;
  if 60 <=? min then None else
  v ← expect ":" v;
  '(s, v) ← getnum v true;
  if 60 <=? s then None else
  let '(ns, v) := fraction v in
  v ← expect "Z" v;
  match v with
  | _ :: _ => None
  | [] =>
      if (day <? 1) || (daysIn month year <? day) then None
      else Some (DateUTC year month day hour min s ns)
  end.

End GoTime.

(** ** types.go *)

(** [Event], the standardized club event. *)
Record Event := {
  ID : Z;
  Title : gostring;
  Start : GoTime.Time;
  End : GoTime.Time;
  Description : gostring;
  URL : gostring;
  Location : gostring;
  Organizer : gostring;
  SkillLevels : option Z;
  Terrain : option Z
}.

(** [StravaEvent], with the fields the program reads. *)
Module StravaEvent.
Record Athlete := { FirstName : gostring; LastName : gostring }.
Record t := {
  ID : Z;
  Title : gostring;
  Description : gostring;
  OrganizingAthlete : Athlete;
  UpcomingOccurrences : list gostring;
  Address : gostring
}.
End StravaEvent.

(** [TokenStore], the OAuth credentials. *)
Record TokenStore := {
  ClientID : gostring;
  ClientSecret : gostring;
  AccessToken : gostring;
  RefreshToken : gostring
}.

(** [TokenResponse], the answer of the token endpoint. *)
Module TokenResponse.
Record t := {
  AccessToken : gostring;
  RefreshToken : gostring;
  ExpiresAt : Z
}.
End TokenResponse.

(** ** [net/http]: requests and responses *)

Module Http.

(** A response with its body read. *)
Record Response := { StatusCode : Z; Body : gostring }.

Definition StatusOK : Z := 200.
Definition StatusUnauthorized : Z := 401.

(** A request as it leaves the program: a GET with its Authorization
    header, or a POST with its content type and body. *)
Inductive Request :=
| GET (url authorization : gostring)
| POST (url contentType body : gostring).

End Http.

(** ** [regexp]: the patterns of [redactPhoneNumbers]

    Go's [regexp] finds the leftmost match and, among the matches that
    start there, the one a backtracking search finds first; repetitions
    are greedy.  The patterns of the program are sequences of the pieces
    below, and they are matched byte by byte: every byte they accept is an
    ASCII byte, so a match starts and ends between runes. *)

Module Regexp.

(** The character classes the patterns use. *)
Inductive class :=
| Digit          (** [\d], [[0-9]] *)
| Digit1to9      (** [[1-9]] *)
| Digit1to3      (** [[1-3]] *)
| Space          (** [\s]: tab, line feed, form feed, carriage return, space *)
| SpaceOrHyphen. (** [[\s\-]] *)

Definition isSpace (c : ascii) : bool :=
  let b := byteVal c in
  (b =? 9) || (b =? 10) || (b =? 12) || (b =? 13) || (b =? 32).

Definition inClass (k : class) (c : ascii) : bool :=
  let b := byteVal c in
  match k with
  | Digit => (48 <=? b) && (b <=? 57)
  | Digit1to9 => (49 <=? b) && (b <=? 57)
  | Digit1to3 => (49 <=? b) && (b <=? 51)
  | Space => isSpace c
  | SpaceOrHyphen => isSpace c || (b =? 45)
  end.

Inductive piece :=
| Boundary                                        (** [\b] *)
| Lit (c : ascii)                                 (** one literal byte *)
| Rep (k : class) (min : nat) (max : option nat)  (** [k{min,max}]; [k*] is [k{0,}] *)
| OptLit (l : gostring).                          (** [(?:l)?] for a literal [l] *)

Definition pattern := list piece.

(** [\w]: an ASCII letter, digit or underscore. *)
Definition isWordChar (c : ascii) : bool :=
  let b := byteVal c in
  ((48 <=? b) && (b <=? 57)) || ((65 <=? b) && (b <=? 90))
  || ((97 <=? b) && (b <=? 122)) || (b =? 95).

Definition isWord (c : option ascii) : bool :=
  match c with
  | Some c => isWordChar c
  | None => false
  end.

(** [\b] between the byte before ([prev], if any) and the text [s]. *)
Definition atBoundary (prev : option ascii) (s : gostring) : bool :=
  xorb (isWord prev) (isWord (head s)).

(** A greedy repetition followed by the rest of the pattern ([rest]): one
    more byte of the class is tried first, as long as [max] allows; when
    that fails, the rest of the pattern is tried here, if [min] is
    reached. *)
Fixpoint repeatThen (rest : option ascii -> gostring -> option gostring)
         (k : class) (min : nat) (max : option nat)
         (prev : option ascii) (s : gostring) {struct s} : option gostring :=
  let here := match min with O => rest prev s | S _ => None end in
  match s with
  | c :: s' =>
      if inClass k c && negb (bool_decide (max = Some O))
      then
        match repeatThen rest k (Nat.pred min) (Nat.pred <$> max) (Some c) s' with
        | Some after => Some after
        | None => here
        end
      else here
  | [] => here
  end.

(** The literal [l] at the start of [s]: the last byte passed and the text
    after it. *)
Fixpoint literalAt (l : gostring) (prev : option ascii) (s : gostring)
  : option (option ascii * gostring) :=
  match l with
  | [] => Some (prev, s)
  | c :: l' =>
      match s with
      | x :: s' => if bool_decide (x = c) then literalAt l' (Some x) s' else None
      | [] => None
      end
  end.

(** The match of pattern [p] that starts at [s], as the text after it. *)
Fixpoint matchHere (p : pattern) (prev : option ascii) (s : gostring) : option gostring :=
  match p with
  | [] => Some s
  | Boundary :: p' => if atBoundary prev s then matchHere p' prev s else None
  | Lit c :: p' =>
      match s with
      | x :: s' => if bool_decide (x = c) then matchHere p' (Some x) s' else None
      | [] => None
      end
  | Rep k min max :: p' => repeatThen (matchHere p') k min max prev s
  | OptLit l :: p' =>
      match literalAt l prev s with
      | Some (prev', s') =>
          match matchHere p' prev' s' with
          | Some after => Some after
          | None => matchHere p' prev s
          end
      | None => matchHere p' prev s
      end
  end.

(** [re.ReplaceAllString(s, repl)] for a pattern that matches no empty
    text and a replacement without [$]: from the left, each match is
    replaced and the search goes on behind it.  [skip] counts the bytes of
    a match that are still to be passed over, [prev] is the byte before
    [s]. *)
Fixpoint replaceFrom (p : pattern) (repl : gostring) (skip : nat)
         (prev : option ascii) (s : gostring) : gostring :=
  match s with
  | [] => []
  | c :: s' =>
      match skip with
      | S n => replaceFrom p repl n (Some c) s'
      | O =>
          match matchHere p prev s with
          | Some after =>
              match (length s - length after)%nat with
              | S n => repl ++ replaceFrom p repl n (Some c) s'
              | O => c :: replaceFrom p repl O (Some c) s'
              end
          | None => c :: replaceFrom p repl O (Some c) s'
          end
      end
  end.

Definition ReplaceAllString (p : pattern) (s repl : gostring) : gostring :=
  replaceFrom p repl O None s.

End Regexp.

(** ** strava.go *)

Module Strava.

Inductive EnvError := ClubIDNotSet.

(** The three ways [convertStravaEvent] returns an error: "no upcoming
    occurrences for event %d", "failed to parse start time: ...", and the
    error of [getClubID]. *)
Inductive ConvertError :=
| NoOccurrence (id : Z)
| TimeParseError
| ClubIDError (e : EnvError).

Section Convert.

(** The value of the environment variable STRAVA_CLUB_ID (empty when unset). *)
Variable STRAVA_CLUB_ID : gostring.

(** [redactPhoneNumbers], a chain of regular-expression replacements. *)
Variable redactPhoneNumbers : gostring -> gostring.

Definition getClubID : result EnvError gostring :=
  match STRAVA_CLUB_ID with
  | [] => Err ClubIDNotSet
  | _ => Ok STRAVA_CLUB_ID
  end.

Definition convertStravaEvent (se : StravaEvent.t) : result ConvertError Event :=
  match StravaEvent.UpcomingOccurrences se with
  | [] => Err (NoOccurrence (StravaEvent.ID se))
  | first :: _ =>
      match GoTime.ParseStravaLayout first with
      | None => Err TimeParseError
      | Some startTime =>
          let endTime := GoTime.Add startTime (1 * GoTime.Hour) in
          let organizer :=
            Strings.TrimSpace
              (StravaEvent.FirstName (StravaEvent.OrganizingAthlete se)
               ++ ``" " ++ StravaEvent.LastName (StravaEvent.OrganizingAthlete se)) in
          match getClubID with
          | Err e => Err (ClubIDError e)
          | Ok clubID =>
              Ok {| ID := StravaEvent.ID se;
                    Title := StravaEvent.Title se;
                    Start := startTime;
                    End := endTime;
                    Description := redactPhoneNumbers (StravaEvent.Description se);
                    URL := ``"https://www.strava.com/clubs/" ++ clubID
                           ++ ``"/group_events/" ++ Strconv.FormatInt (StravaEvent.ID se);
                    Location := StravaEvent.Address se;
                    Organizer := organizer;
                    SkillLevels := None;
                    Terrain := None |}
          end
      end
  end.

(** The conversion loop of [main] (and of [testWithSampleData]): an event
    that fails to convert is logged and skipped, the others are appended in
    order.  The second component is the log: the id and the error of each
    skipped event. *)
Definition convertStep (acc : list Event * list (Z * ConvertError)) (se : StravaEvent.t)
  : list Event * list (Z * ConvertError) :=
  match convertStravaEvent se with
  | Err err => (acc.1, acc.2 ++ [(StravaEvent.ID se, err)])
  | Ok event => (acc.1 ++ [event], acc.2)
  end.

Definition convertEvents (stravaEvents : list StravaEvent.t)
  : list Event * list (Z * ConvertError) :=
  fold_left convertStep stravaEvents ([], []).

End Convert.

Definition stravaAPIBase : gostring := ``"https://www.strava.com/api/v3".
Definition stravaTokenURL : gostring := ``"https://www.strava.com/oauth/token".

Inductive TokenError := MissingVariables.

(** [loadTokens], from the values of the environment variables
    STRAVA_CLIENT_ID, CLIENT_SECRET and REFRESH_TOKEN (empty when unset). *)
Definition loadTokens (STRAVA_CLIENT_ID CLIENT_SECRET REFRESH_TOKEN : gostring)
  : result TokenError TokenStore :=
  match STRAVA_CLIENT_ID, CLIENT_SECRET, REFRESH_TOKEN with
  | _ :: _, _ :: _, _ :: _ =>
      Ok {| ClientID := STRAVA_CLIENT_ID;
            ClientSecret := CLIENT_SECRET;
            AccessToken := [];
            RefreshToken := REFRESH_TOKEN |}
  | _, _, _ => Err MissingVariables
  end.

(** What a run meets outside the program when it talks to Strava. *)
Record Net := {
  (** the answer to the [k]-th request that the run sends, counted from 0;
      [None] stands for the error of [client.Do] or [http.Post] *)
  answer : nat -> option Http.Response;
  (** whether [http.NewRequest("GET", url, nil)] returns no error *)
  newRequestOK : gostring -> bool;
  (** [json.NewDecoder(resp.Body).Decode(&tokenResp)]; [None] stands for the error *)
  decodeTokenResponse : gostring -> option TokenResponse.t;
  (** [json.NewDecoder(resp.Body).Decode(&events)]; [None] stands for the error *)
  decodeEvents : gostring -> option (list StravaEvent.t)
}.

(** The state the functions below thread: the token store behind the
    pointer [tokens], and the requests sent so far, in order. *)
Record Session := { tokens : TokenStore; sent : list Http.Request }.

(** Sending a request: it gets the next answer of the network. *)
Definition send (net : Net) (s : Session) (r : Http.Request)
  : option Http.Response * Session :=
  (answer net (length (sent s)), {| tokens := tokens s; sent := sent s ++ [r] |}).

Inductive RefreshError :=
| PostFailed
| RefreshStatus (code : Z) (body : gostring)
| TokenDecodeFailed.

(** The payload of [refreshTokens]; [%s] writes each value as it is. *)
Definition refreshPayload (t : TokenStore) : gostring :=
  ``"{" ++ quote ++ ``"client_id" ++ quote ++ ``":" ++ quote ++ ClientID t ++ quote
  ++ ``"," ++ quote ++ ``"client_secret" ++ quote ++ ``":" ++ quote ++ ClientSecret t ++ quote
  ++ ``"," ++ quote ++ ``"grant_type" ++ quote ++ ``":" ++ quote ++ ``"refresh_token" ++ quote
  ++ ``"," ++ quote ++ ``"refresh_token" ++ quote ++ ``":" ++ quote ++ RefreshToken t ++ quote
  ++ ``"}".

(** [refreshTokens]: the error returned, if any, and the session after. *)
Definition refreshTokens (net : Net) (s : Session) : option RefreshError * Session :=
  let payload := refreshPayload (tokens s) in
  let '(resp, s) := send net s (Http.POST stravaTokenURL ``"application/json" payload) in
  match resp with
  | None => (Some PostFailed, s)
  | Some resp =>
      if negb (Http.StatusCode resp =? Http.StatusOK)
      then (Some (RefreshStatus (Http.StatusCode resp) (Http.Body resp)), s)
      else
        match decodeTokenResponse net (Http.Body resp) with
        | None => (Some TokenDecodeFailed, s)
        | Some tokenResp =>
            (None,
             {| tokens := {| ClientID := ClientID (tokens s);
                             ClientSecret := ClientSecret (tokens s);
                             AccessToken := TokenResponse.AccessToken tokenResp;
                             RefreshToken := TokenResponse.RefreshToken tokenResp |};
                sent := sent s |})
        end
  end.

Inductive RequestError :=
| CreateRequestFailed
| RequestFailed
| RefreshFailed (e : RefreshError)
| RetryFailed.

(** [makeAPIRequest]. *)
Definition makeAPIRequest (net : Net) (s : Session) (url : gostring)
  : result RequestError Http.Response * Session :=
  if negb (newRequestOK net url) then (Err CreateRequestFailed, s)
  else
    let '(resp, s) := send net s (Http.GET url (``"Bearer " ++ AccessToken (tokens s))) in
    match resp with
    | None => (Err RequestFailed, s)
    | Some resp =>
        if Http.StatusCode resp =? Http.StatusUnauthorized
        then
          let '(err, s) := refreshTokens net s in
          match err with
          | Some e => (Err (RefreshFailed e), s)
          | None =>
              let '(resp, s) :=
                send net s (Http.GET url (``"Bearer " ++ AccessToken (tokens s))) in
              match resp with
              | None => (Err RetryFailed, s)
              | Some resp => (Ok resp, s)
              end
          end
        else (Ok resp, s)
    end.

Inductive FetchError :=
| FetchClubID (e : EnvError)
| Request (e : RequestError)
| APIStatus (code : Z) (body : gostring)
| EventsDecodeFailed.

Definition perPage : Z := 200.

(** The address of one page of the club's events. *)
Definition pageURL (clubID : gostring) (page : Z) : gostring :=
  stravaAPIBase ++ ``"/clubs/" ++ clubID ++ ``"/group_events?upcoming=true&page="
  ++ Strconv.FormatInt page ++ ``"&per_page=" ++ Strconv.FormatInt perPage.

(** The loop of [fetchClubEvents], which has no bound of its own: one unit
    of [fuel] for each round, [None] when the fuel runs out. *)
Fixpoint fetchLoop (fuel : nat) (net : Net) (s : Session) (clubID : gostring)
         (page : Z) (allEvents : list StravaEvent.t)
  : option (result FetchError (list StravaEvent.t) * Session) :=
  match fuel with
  | O => None
  | S fuel' =>
      let url := pageURL clubID page in
      let '(resp, s) := makeAPIRequest net s url in
      match resp with
      | Err err => Some (Err (Request err), s)
      | Ok resp =>
          if negb (Http.StatusCode resp =? Http.StatusOK)
          then Some (Err (APIStatus (Http.StatusCode resp) (Http.Body resp)), s)
          else
            match decodeEvents net (Http.Body resp) with
            | None => Some (Err EventsDecodeFailed, s)
            | Some events =>
                if Nat.eqb (length events) 0 then Some (Ok allEvents, s)
                else
                  let allEvents := allEvents ++ events in
                  if Z.of_nat (length events) <? perPage then Some (Ok allEvents, s)
                  else fetchLoop fuel' net s clubID (page + 1) allEvents
            end
      end
  end.

(** The same loop watched from outside: the session after at most [fuel]
    rounds, whether or not the loop has returned by then.  Its [sent] is
    what the run has sent so far. *)
Fixpoint fetchLoopSession (fuel : nat) (net : Net) (s : Session) (clubID : gostring)
         (page : Z) : Session :=
  match fuel with
  | O => s
  | S fuel' =>
      let url := pageURL clubID page in
      let '(resp, s) := makeAPIRequest net s url in
      match resp with
      | Err _ => s
      | Ok resp =>
          if negb (Http.StatusCode resp =? Http.StatusOK) then s
          else
            match decodeEvents net (Http.Body resp) with
            | None => s
            | Some events =>
                if Nat.eqb (length events) 0 then s
                else if Z.of_nat (length events) <? perPage then s
                else fetchLoopSession fuel' net s clubID (page + 1)
            end
      end
  end.

(** [fetchClubEvents]; [STRAVA_CLUB_ID] is the environment variable. *)
Definition fetchClubEvents (fuel : nat) (STRAVA_CLUB_ID : gostring) (net : Net) (s : Session)
  : option (result FetchError (list StravaEvent.t) * Session) :=
  match getClubID STRAVA_CLUB_ID with
  | Err err => Some (Err (FetchClubID err), s)
  | Ok clubID => fetchLoop fuel net s clubID 1 []
  end.

Definition redacted : gostring := ``"[Phone Number Redacted]".

(** The eight patterns of [redactPhoneNumbers], in the order of the
    source. *)
Definition phonePatterns : list Regexp.pattern :=
  let b := Regexp.Boundary in
  let lit := Regexp.Lit in
  let d n m := Regexp.Rep Regexp.Digit n (Some m) in
  let sep := Regexp.Rep Regexp.SpaceOrHyphen 0 None in
  let spaces := Regexp.Rep Regexp.Space 0 None in
  [ (* \b0[1-9]\d{2}[\s\-]*\d{3}[\s\-]*\d{4}\b *)
    [b; lit "0"%char; Regexp.Rep Regexp.Digit1to9 1 (Some 1%nat); d 2%nat 2%nat;
     sep; d 3%nat 3%nat; sep; d 4%nat 4%nat; b];
    (* \b07\d{3}[\s\-]*\d{3}[\s\-]*\d{3}\b *)
    [b; lit "0"%char; lit "7"%char; d 3%nat 3%nat; sep; d 3%nat 3%nat; sep; d 3%nat 3%nat; b];
    (* \b020[\s\-]*\d{4}[\s\-]*\d{4}\b *)
    [b; lit "0"%char; lit "2"%char; lit "0"%char; sep; d 4%nat 4%nat; sep; d 4%nat 4%nat; b];
    (* \b0[1-9]\d{2}[\s\-]*\d{4}[\s\-]*\d{4}\b *)
    [b; lit "0"%char; Regexp.Rep Regexp.Digit1to9 1 (Some 1%nat); d 2%nat 2%nat;
     sep; d 4%nat 4%nat; sep; d 4%nat 4%nat; b];
    (* \b0[1-3]\d{2,3}[\s\-]*\d{3,4}[\s\-]*\d{3,4}\b *)
    [b; lit "0"%char; Regexp.Rep Regexp.Digit1to3 1 (Some 1%nat); d 2%nat 3%nat;
     sep; d 3%nat 4%nat; sep; d 3%nat 4%nat; b];
    (* \+44\s*(?:\(0\))?\s*[1-9]\d{1,3}[\s\-]*\d{3,4}[\s\-]*\d{3,4}\b *)
    [lit "+"%char; lit "4"%char; lit "4"%char; spaces; Regexp.OptLit ``"(0)"; spaces;
     Regexp.Rep Regexp.Digit1to9 1 (Some 1%nat); d 1%nat 3%nat;
     sep; d 3%nat 4%nat; sep; d 3%nat 4%nat; b];
    (* \([0-9]{3,4}\)[\s\-]*\d{3,4}[\s\-]*\d{4}\b *)
    [lit "("%char; d 3%nat 4%nat; lit ")"%char; sep; d 3%nat 4%nat; sep; d 4%nat 4%nat; b];
    (* \b0\d{9,10}\b *)
    [b; lit "0"%char; d 9%nat 10%nat; b] ].

(** [redactPhoneNumbers]: the two literal replacements that bring earlier
    redactions to the new form, then the patterns one after the other. *)
Definition redactPhoneNumbers (text : gostring) : gostring :=
  let text := Strings.ReplaceAll text ``"<Phone Number Redacted>" redacted in
  let text := Strings.ReplaceAll text ``"[Phone Number Redacted]" redacted in
  fold_left (fun result pattern => Regexp.ReplaceAllString pattern result redacted)
            phonePatterns text.

End Strava.

(** ** ics.go *)

Definition CRLF : gostring := [CR; LF].

(** The continuation break written at a fold: CRLF and one space. *)
Definition foldBreak : gostring := [CR; LF; SP].

Definition maxLen : nat := 75.

(** The folding loop, the same in both revisions of ics.go:
    [for len(line) > maxLen { write line[:maxLen]; write "\r\n "; line = line[maxLen:] }; write line].
    Each round removes [maxLen] bytes, so [length line] rounds are enough. *)
Fixpoint foldLoop (fuel : nat) (line : gostring) : gostring :=
  match fuel with
  | O => line
  | S fuel' =>
      if Nat.ltb maxLen (length line)
      then take maxLen line ++ foldBreak ++ foldLoop fuel' (drop maxLen line)
      else line
  end.

(** [generateICS], whose text is the same in both revisions of ics.go; the
    revisions differ in the [escapeICSText] and [formatICSProperty] it
    calls. *)
Module Ics.

(** What one run of [generateICS] reads from outside the program.  The loop
    reads the clock twice for every event; [i] is the position of the event
    in the list. *)
Record Env := {
  (** [os.Getenv("STRAVA_CLUB_ID")] *)
  STRAVA_CLUB_ID : gostring;
  (** [t.In(london).Format("20060102T150405")], read off the time-zone database *)
  formatLondon : GoTime.Time -> gostring;
  (** [time.Now().UTC().Format("20060102T150405Z")] in round [i] of the loop *)
  nowUTC : nat -> gostring;
  (** [time.Now().In(london).Format("Mon, 2 Jan @ 3:04 PM")] in round [i] *)
  syncTime : nat -> gostring
}.

(** The lines of the ICS header, each written with its CRLF. *)
Definition headerLines : list gostring :=
  [ ``"BEGIN:VCALENDAR";
    ``"VERSION:2.0";
    ``"PRODID:-//StravaCal//Strava Club Events//EN";
    ``"CALSCALE:GREGORIAN";
    ``"METHOD:PUBLISH";
    ``"X-WR-CALNAME:Malvern Buzzards Running Club";
    ``"X-WR-CALDESC:Club running events from Strava";
    ``"BEGIN:VTIMEZONE";
    ``"TZID:Europe/London";
    ``"BEGIN:DAYLIGHT";
    ``"DTSTART:20070325T010000";
    ``"RRULE:FREQ=YEARLY;BYMONTH=3;BYDAY=-1SU";
    ``"TZOFFSETFROM:+0000";
    ``"TZOFFSETTO:+0100";
    ``"TZNAME:BST";
    ``"END:DAYLIGHT";
    ``"BEGIN:STANDARD";
    ``"DTSTART:20071028T020000";
    ``"RRULE:FREQ=YEARLY;BYMONTH=10;BYDAY=-1SU";
    ``"TZOFFSETFROM:+0100";
    ``"TZOFFSETTO:+0000";
    ``"TZNAME:GMT";
    ``"END:STANDARD";
    ``"END:VTIMEZONE" ].

Definition header : gostring :=
  concat (map (fun line => line ++ CRLF) headerLines).

(** The ICS footer: the closing line and one bare line feed. *)
Definition footer : gostring := ``"END:VCALENDAR" ++ CRLF ++ [LF].

(** [clubID] of the loop body: the club id, or "unknown" when [getClubID]
    returns its error. *)
Definition clubIDOrUnknown (env : Env) : gostring :=
  match Strava.getClubID (STRAVA_CLUB_ID env) with
  | Err _ => ``"unknown"
  | Ok clubID => clubID
  end.

(** [description] of the loop body. *)
Definition description (env : Env) (i : nat) (event : Event) : gostring :=
  ``"Leader: " ++ Organizer event ++ [LF; LF]
  ++ ``"Location: " ++ Location event ++ [LF; LF]
  ++ Description event ++ [LF; LF]
  ++ ``"View on Strava: " ++ URL event ++ [LF; LF]
  ++ ``"Synced from Strava Club " ++ clubIDOrUnknown env ++ ``" on " ++ syncTime env i.

(** [htmlDescription] of the loop body. *)
Definition htmlDescription (env : Env) (i : nat) (event : Event) : gostring :=
  ``"<p><strong>Leader:</strong> " ++ Strings.ReplaceAll (Organizer event) [LF] ``"<br>"
  ++ ``"</p><p><strong>Location:</strong> " ++ Strings.ReplaceAll (Location event) [LF] ``"<br>"
  ++ ``"</p><p>" ++ Strings.ReplaceAll (Description event) [LF] ``"<br>"
  ++ ``"</p><p><strong>View on Strava:</strong> <a href=" ++ quote ++ URL event ++ quote
  ++ ``">" ++ URL event
  ++ ``"</a></p><p><strong>Synced from Strava Club " ++ clubIDOrUnknown env
  ++ ``" on:</strong> " ++ syncTime env i ++ ``"</p>".

Section Generate.

(** The two helpers of the revision at hand. *)
Variable escapeICSText : gostring -> gostring.
Variable formatICSProperty : gostring -> gostring -> gostring.

(** What one round of the loop writes for the event at position [i]. *)
Definition writeEvent (env : Env) (i : nat) (event : Event) : gostring :=
  ``"BEGIN:VEVENT" ++ CRLF
  ++ ``"UID:" ++ Fmt.Sprintf_d (ID event) (``"@strava.com" ++ CRLF)
  ++ ``"DTSTART;TZID=Europe/London:" ++ formatLondon env (Start event) ++ CRLF
  ++ ``"DTEND;TZID=Europe/London:" ++ formatLondon env (End event) ++ CRLF
  ++ ``"DTSTAMP:" ++ nowUTC env i ++ CRLF
  ++ ``"SUMMARY:" ++ escapeICSText (Title event) ++ CRLF
  ++ formatICSProperty ``"DESCRIPTION" (description env i event)
  ++ formatICSProperty ``"X-ALT-DESC;FMTTYPE=text/html" (htmlDescription env i event)
  ++ match Location event with
     | [] => []
     | _ => ``"LOCATION:" ++ escapeICSText (Location event) ++ CRLF
     end
  ++ ``"URL:" ++ URL event ++ CRLF
  ++ ``"CATEGORIES:Running,Club Event" ++ CRLF
  ++ ``"END:VEVENT" ++ CRLF.

(** The loop over the events, from position [i] on. *)
Fixpoint writeEvents (env : Env) (i : nat) (events : list Event) : gostring :=
  match events with
  | [] => []
  | event :: rest => writeEvent env i event ++ writeEvents env (S i) rest
  end.

(** The contents of the builder when [generateICS] returns. *)
Definition generateICS (env : Env) (events : list Event) : gostring :=
  header ++ writeEvents env 0 events ++ footer.

End Generate.

End Ics.

(** The revision that keeps real line breaks in the text. *)
Module IcsRaw.

Definition escapeICSText (s : gostring) : gostring :=
  let s := Strings.ReplaceAll s ``"\" ``"\\" in
  let s := Strings.ReplaceAll s ``";" ``"\;" in
  let s := Strings.ReplaceAll s ``"," ``"\," in
  s.

(** The builder's contents after all lines: a CRLF before every line but the
    first. *)
Fixpoint joinLines (lines : list gostring) : gostring :=
  match lines with
  | [] => []
  | [l] => l
  | l :: rest => l ++ CRLF ++ joinLines rest
  end.

Definition foldLine (text : gostring) : gostring :=
  let lines := Strings.Split1 text LF in
  joinLines (map (fun line => foldLoop (length line) line) lines).

Definition formatICSProperty (property value : gostring) : gostring :=
  let escaped := escapeICSText value in
  let line := property ++ ``":" ++ escaped in
  foldLine line ++ CRLF.

Definition generateICS : Ics.Env -> list Event -> gostring :=
  Ics.generateICS escapeICSText formatICSProperty.

End IcsRaw.

(** The revision that strips markup and escapes line breaks. *)
Module IcsRfc.

(** [regexp.MustCompile(`<[^>]*>`).ReplaceAllString(input, "")]: from the
    left, a [<] that has a [>] after it is removed together with everything
    up to the first such [>]. *)
Fixpoint stripTags (inTag : bool) (s : gostring) : gostring :=
  match s with
  | [] => []
  | c :: s' =>
      if inTag then stripTags (negb (bool_decide (c = ">"%char))) s'
      else if bool_decide (c = "<"%char) && existsb (fun x => bool_decide (x = ">"%char)) s'
      then stripTags true s'
      else c :: stripTags false s'
  end.

Definition stripHTML (input : gostring) : gostring :=
  let text := stripTags false input in
  let text := Strings.ReplaceAll text ``"&nbsp;" ``" " in
  let text := Strings.ReplaceAll text ``"&amp;" ``"&" in
  let text := Strings.ReplaceAll text ``"&lt;" ``"<" in
  let text := Strings.ReplaceAll text ``"&gt;" ``">" in
  let text := Strings.ReplaceAll text ``"&quot;" [ascii_of_nat 34] in
  let text := Strings.ReplaceAll text ``"&#39;" ``"'" in
  let text := Strings.ReplaceAll text ``"&apos;" ``"'" in
  text.

Definition escapeICSText (s : gostring) : gostring :=
  let s := Strings.ReplaceAll s ``"\" ``"\\" in
  let s := Strings.ReplaceAll s ``";" ``"\;" in
  let s := Strings.ReplaceAll s ``"," ``"\," in
  let s := Strings.ReplaceAll s [CR; LF] ``"\n" in
  let s := Strings.ReplaceAll s [LF] ``"\n" in
  let s := Strings.ReplaceAll s [CR] ``"\n" in
  s.

Definition foldLine (text : gostring) : gostring :=
  if Nat.leb (length text) maxLen then text
  else foldLoop (length text) text.

Definition formatICSProperty (property value : gostring) : gostring :=
  let cleaned := stripHTML value in
  let escaped := escapeICSText cleaned in
  let line := property ++ ``":" ++ escaped in
  let folded := foldLine line in
  folded ++ CRLF.

Definition generateICS : Ics.Env -> list Event -> gostring :=
  Ics.generateICS escapeICSText formatICSProperty.

End IcsRfc.

(** *** What a reader of the file does

    The repository writes calendar files and never reads one; the
    definitions below are the reader's side that the serializer's
    properties are stated against. *)

(** Modelled from the spec: the physical lines of a document, which are the
    pieces between CRLFs. *)
Fixpoint linesFrom (cur : gostring) (doc : gostring) : list gostring :=
  match doc with
  | [] => [rev cur]
  | c :: doc' =>
      match doc' with
      | d :: doc'' =>
          if bool_decide (c = CR) && bool_decide (d = LF)
          then rev cur :: linesFrom [] doc''
          else linesFrom (c :: cur) doc'
      | [] => [rev (c :: cur)]
      end
  end.

Definition physicalLines (doc : gostring) : list gostring := linesFrom [] doc.

(** Modelled from the spec: un-folding, which removes each continuation
    break (CRLF) together with its leading space. *)
Definition unfold (doc : gostring) : gostring :=
  Strings.ReplaceAll doc foldBreak [].

(** Modelled from the spec: un-escaping of a text value, the inverse of
    escaping as RFC 5545 defines it.  A backslash with the byte after it
    stands for that byte, and for a line feed when that byte is [n] or
    [N]. *)
Fixpoint unescapeFrom (escaped : bool) (s : gostring) : gostring :=
  match s with
  | [] => []
  | c :: s' =>
      if escaped
      then (if bool_decide (c = "n"%char) || bool_decide (c = "N"%char) then LF else c)
           :: unescapeFrom false s'
      else if bool_decide (c = "\"%char) then unescapeFrom true s'
      else c :: unescapeFrom false s'
  end.

Definition unescapeText (s : gostring) : gostring := unescapeFrom false s.

(** ** gcal.go *)

(** The part of [calendar.Event] (google.golang.org/api/calendar/v3) that
    the program reads and writes.  [Start] and [End] are pointers in Go; the
    scan reads through them unchecked, and the events the service lists
    carry both. *)
Module calendar.
Record EventDateTime := { DateTime : gostring; TimeZone : gostring }.
Record EventSource := { Title : gostring; Url : gostring }.
Record Event := {
  Id : gostring;
  ICalUID : gostring;
  Summary : gostring;
  Location : gostring;
  Description : gostring;
  Start : EventDateTime;
  End : EventDateTime;
  Source : EventSource
}.
End calendar.

Module GCal.

(** What one run of [syncStravaEvents] reads from outside the program. *)
Record Env := {
  (** [os.Getenv("STRAVA_CLUB_ID")] *)
  STRAVA_CLUB_ID : gostring;
  (** [time.Now().In(london).Format("Mon, 2 Jan @ 3:04 PM")] *)
  syncTime : gostring;
  (** [t.In(london).Format(time.RFC3339)], read off the time-zone database *)
  formatLondon : GoTime.Time -> gostring;
  (** [time.Parse(time.RFC3339, s)]; [None] stands for the error *)
  parseRFC3339 : gostring -> option GoTime.Time
}.

(** The calls the reconciler makes on the calendar service, in order. *)
Inductive Call :=
| EventsDelete (eventId : gostring)
| EventsUpdate (eventId : gostring) (event : calendar.Event)
| EventsInsert (event : calendar.Event).

Inductive SyncError :=
| ListFailed
| ClubID (e : Strava.EnvError).

Definition uidSuffix : gostring := ``"@strava.com".

(** [fmt.Sprintf("%d@strava.com", id)]. *)
Definition formatUID (id : Z) : gostring := Fmt.Sprintf_d id uidSuffix.

(** The description both [syncStravaEvents] and [createGoogleCalendarEvent]
    compose with [fmt.Sprintf]. *)
Definition composeDescription (event : Event) (clubID syncTime : gostring) : gostring :=
  ``"Leader: " ++ Organizer event ++ [LF; LF]
  ++ ``"Location: " ++ Location event ++ [LF; LF]
  ++ Description event ++ [LF; LF]
  ++ ``"View on Strava: " ++ URL event ++ [LF; LF]
  ++ ``"Synced from Strava Club " ++ clubID ++ ``" on " ++ syncTime.

Definition createGoogleCalendarEvent (env : Env) (event : Event) : calendar.Event :=
  let clubID :=
    match Strava.getClubID (STRAVA_CLUB_ID env) with
    | Err _ => ``"unknown"
    | Ok clubID => clubID
    end in
  let description := composeDescription event clubID (syncTime env) in
  {| calendar.Id := [];
     calendar.Summary := Title event;
     calendar.Location := Location event;
     calendar.Description := description;
     calendar.Start := {| calendar.DateTime := formatLondon env (Start event);
                          calendar.TimeZone := ``"Europe/London" |};
     calendar.End := {| calendar.DateTime := formatLondon env (End event);
                        calendar.TimeZone := ``"Europe/London" |};
     calendar.ICalUID := formatUID (ID event);
     calendar.Source := {| calendar.Title := ``"Strava"; calendar.Url := URL event |} |}.

(** [stravaEventMap]: the loop [stravaEventMap[event.ID] = event]. *)
Definition stravaEventMap (events : list Event) : gmap Z Event :=
  fold_left (fun m event => <[ID event := event]> m) events ∅.

(** The head of the scanning loop: the Strava id of a calendar event, or
    [None] where the loop says [continue] (empty UID, scan error, no operand
    scanned, or id zero). *)
Definition stravaIDOf (gcalEvent : calendar.Event) : option Z :=
  match calendar.ICalUID gcalEvent with
  | [] => None
  | uid =>
      let r := Fmt.Sscanf_d uid uidSuffix in
      if bool_decide (Fmt.scanned_err r ≠ None)
         || negb (Fmt.scanned_n r =? 1)
         || (Fmt.scanned_v r =? 0)
      then None
      else Some (Fmt.scanned_v r)
  end.

(** [time.Parse] with its error dropped: the zero time on failure. *)
Definition parseOrZero (env : Env) (s : gostring) : GoTime.Time :=
  match parseRFC3339 env s with
  | Some t => t
  | None => GoTime.zero
  end.

(** The flag [needsUpdate] once all three comparisons are done. *)
Definition needsUpdate (env : Env) (clubID : gostring)
           (gcalEvent : calendar.Event) (stravaEvent : Event) : bool :=
  let gcalStartTime := parseOrZero env (calendar.DateTime (calendar.Start gcalEvent)) in
  let gcalEndTime := parseOrZero env (calendar.DateTime (calendar.End gcalEvent)) in
  let newDesc := composeDescription stravaEvent clubID (syncTime env) in
  bool_decide (calendar.Summary gcalEvent ≠ Title stravaEvent)
  || (negb (GoTime.Equal gcalStartTime (Start stravaEvent))
      || negb (GoTime.Equal gcalEndTime (End stravaEvent)))
  || bool_decide (Strings.TrimSpace (calendar.Description gcalEvent) ≠ Strings.TrimSpace newDesc).

(** The loop over the existing calendar events.  It yields the calls made,
    the map [processedStravaIDs], and the error of the early [return err]. *)
Fixpoint scanExisting (env : Env) (stravaEventMap : gmap Z Event)
         (items : list calendar.Event) (processedStravaIDs : gmap Z bool)
  : list Call * gmap Z bool * option SyncError :=
  match items with
  | [] => ([], processedStravaIDs, None)
  | gcalEvent :: rest =>
      match stravaIDOf gcalEvent with
      | None => scanExisting env stravaEventMap rest processedStravaIDs
      | Some stravaID =>
          match stravaEventMap !! stravaID with
          | None =>
              let '(calls, processed, err) :=
                scanExisting env stravaEventMap rest processedStravaIDs in
              (EventsDelete (calendar.Id gcalEvent) :: calls, processed, err)
          | Some stravaEvent =>
              let processedStravaIDs := <[stravaID := true]> processedStravaIDs in
              match Strava.getClubID (STRAVA_CLUB_ID env) with
              | Err e => ([], processedStravaIDs, Some (ClubID e))
              | Ok clubID =>
                  let update :=
                    if needsUpdate env clubID gcalEvent stravaEvent
                    then [EventsUpdate (calendar.Id gcalEvent)
                            (createGoogleCalendarEvent env stravaEvent)]
                    else [] in
                  let '(calls, processed, err) :=
                    scanExisting env stravaEventMap rest processedStravaIDs in
                  (update ++ calls, processed, err)
              end
          end
      end
  end.

(** [processedStravaIDs[id]]: a missing key reads as [false]. *)
Definition isProcessed (processedStravaIDs : gmap Z bool) (id : Z) : bool :=
  default false (processedStravaIDs !! id).

(** The final loop: an insert for every event not marked processed. *)
Definition createMissing (env : Env) (events : list Event) (processedStravaIDs : gmap Z bool)
  : list Call :=
  flat_map (fun stravaEvent =>
              if negb (isProcessed processedStravaIDs (ID stravaEvent))
              then [EventsInsert (createGoogleCalendarEvent env stravaEvent)]
              else []) events.

(** [syncStravaEvents]: [listing] is what [srv.Events.List(...).Do()]
    returned.  The result is the sequence of calls made on the service and
    the error returned; the outcome of a call is only logged, so it changes
    neither. *)
Definition syncStravaEvents (env : Env) (events : list Event)
           (listing : result unit (list calendar.Event))
  : list Call * option SyncError :=
  let stravaEventMap := stravaEventMap events in
  match listing with
  | Err _ => ([], Some ListFailed)
  | Ok existingEvents =>
      let '(calls, processedStravaIDs, err) :=
        scanExisting env stravaEventMap existingEvents ∅ in
      match err with
      | Some e => (calls, Some e)
      | None => (calls ++ createMissing env events processedStravaIDs, None)
      end
  end.

End GCal.

(** *** The calendar service *)

Module Service.

(** The record [e] as the service keeps it under the opaque id [id]. *)
Definition withId (id : gostring) (e : calendar.Event) : calendar.Event :=
  {| calendar.Id := id;
     calendar.ICalUID := calendar.ICalUID e;
     calendar.Summary := calendar.Summary e;
     calendar.Location := calendar.Location e;
     calendar.Description := calendar.Description e;
     calendar.Start := calendar.Start e;
     calendar.End := calendar.End e;
     calendar.Source := calendar.Source e |}.

(** Modelled from the spec: the external calendar collaborator behind
    [insert], [update] and [delete], which is no code of the repository.
    It stores records as given: [delete] removes the item with the opaque
    id, [update] replaces the whole record of the item with that id, and
    [insert] adds the record under an opaque id of the service's choosing
    ([newId]) unless an item already holds its correlation identifier (the
    duplicate conflict, which leaves the calendar unchanged). *)
Definition applyCall (newId : list calendar.Event -> gostring)
           (items : list calendar.Event) (c : GCal.Call) : list calendar.Event :=
  match c with
  | GCal.EventsDelete id =>
      filter (fun it => calendar.Id it ≠ id) items
  | GCal.EventsUpdate id e =>
      map (fun it => if bool_decide (calendar.Id it = id) then withId id e else it) items
  | GCal.EventsInsert e =>
      if existsb (fun it => bool_decide (calendar.ICalUID it = calendar.ICalUID e)) items
      then items
      else items ++ [withId (newId items) e]
  end.

(** Modelled from the spec: [reconcile_apply], the calls of one run applied
    in order, each of them succeeding or meeting the duplicate conflict. *)
Definition applyCalls (newId : list calendar.Event -> gostring)
           (items : list calendar.Event) (calls : list GCal.Call) : list calendar.Event :=
  fold_left (applyCall newId) calls items.

End Service.

(** ** main.go *)

Module Main.

(** The clock of a run: [time.Now()] and [Time.AddDate], which counts
    calendar days in the zone of the process. *)
Record Clock := {
  Now : GoTime.Time;
  AddDate : GoTime.Time -> Z -> Z -> Z -> GoTime.Time
}.

(** The filter written out in [main], [generateICSFromCache],
    [generateICSOnly] and [syncGoogleCalendarOnly]: events of the next 60
    days. *)
Definition next60Days (clock : Clock) (events : list Event) : list Event :=
  let now := Now clock in
  let sixtyDaysFromNow := AddDate clock now 0 0 60 in
  List.filter
    (fun event => GoTime.After (Start event) now
                  && GoTime.Before (Start event) sixtyDaysFromNow)
    events.

(** [filterEvents]: the events kept in the cache. *)
Definition filterEvents (clock : Clock) (events : list Event) : list Event :=
  let now := Now clock in
  let sevenDaysAgo := AddDate clock now 0 0 (-7) in
  List.filter (fun event => GoTime.After (Start event) sevenDaysAgo) events.

(** What [os.Stat(eventsFile)] answers. *)
Inductive StatResult := StatOk | StatNotExist | StatOtherError.

(** The cache file as the run finds it, and the decoder it is read with. *)
Record Disk := {
  statEventsFile : StatResult;
  (** [os.ReadFile(eventsFile)]; [None] stands for the error *)
  readEventsFile : option gostring;
  (** [json.Unmarshal(data, &events)]; [None] stands for the error *)
  unmarshalEvents : gostring -> option (list Event)
}.

Inductive LoadError := ReadFailed | ParseFailed.

Definition redactDescription (redactPhoneNumbers : gostring -> gostring) (e : Event) : Event :=
  {| ID := ID e; Title := Title e; Start := Start e; End := End e;
     Description := redactPhoneNumbers (Description e);
     URL := URL e; Location := Location e; Organizer := Organizer e;
     SkillLevels := SkillLevels e; Terrain := Terrain e |}.

Definition loadExistingEvents (redactPhoneNumbers : gostring -> gostring) (disk : Disk)
  : result LoadError (list Event) :=
  match statEventsFile disk with
  | StatNotExist => Ok []
  | _ =>
      match readEventsFile disk with
      | None => Err ReadFailed
      | Some data =>
          match unmarshalEvents disk data with
          | None => Err ParseFailed
          | Some events => Ok (map (redactDescription redactPhoneNumbers) events)
          end
      end
  end.

(** Why a command stops with [log.Fatalf]. *)
Inductive Fatal :=
| FailedToLoad (e : LoadError)
| CalendarIDNotSet
| AuthFailed.

(** [generateICSOnly] up to the sort: the events it goes on to sort, render
    and write. *)
Definition generateICSOnly_events (redactPhoneNumbers : gostring -> gostring)
           (disk : Disk) (clock : Clock) : result Fatal (list Event) :=
  match loadExistingEvents redactPhoneNumbers disk with
  | Err e => Err (FailedToLoad e)
  | Ok events => Ok (next60Days clock events)
  end.

(** [syncGoogleCalendarOnly] up to the call of [syncStravaEvents]: the
    events it passes on.  [GOOGLE_CALENDAR_ID] is the environment variable,
    [authenticated] tells whether [getCalendarService] succeeded. *)
Definition syncGoogleCalendarOnly_events (redactPhoneNumbers : gostring -> gostring)
           (disk : Disk) (clock : Clock) (GOOGLE_CALENDAR_ID : gostring)
           (authenticated : bool) : result Fatal (list Event) :=
  match loadExistingEvents redactPhoneNumbers disk with
  | Err e => Err (FailedToLoad e)
  | Ok events =>
      match GOOGLE_CALENDAR_ID with
      | [] => Err CalendarIDNotSet
      | _ =>
          if negb authenticated then Err AuthFailed
          else Ok (next60Days clock events)
      end
  end.

End Main.

(** ** The reconciler's reference definition

    The operations of a run as the specification words them, written
    without gcal.go: which items are managed is decided by the expected
    format of the correlation identifier, and the record of an event is
    composed field by field.  The calls of the code are compared with
    these. *)
Module Reference.

(** The record of an external item, with the fields the calendar-mutation
    interface names: correlation tag, summary, start, end, description. *)
Record Item := {
  correlation : gostring;
  summary : gostring;
  start : calendar.EventDateTime;
  finish : calendar.EventDateTime;
  description : gostring
}.

(** The three operations; delete and update name the opaque id of the
    item they are aimed at. *)
Inductive Op :=
| Delete (itemId : gostring)
| Update (itemId : gostring) (record : Item)
| Create (record : Item).

Definition domainSuffix : gostring := ``"@strava.com".

(** [formatCorrelation]: the identifier [<id>@<fixed-domain-suffix>]. *)
Definition formatCorrelation (id : Z) : gostring :=
  Strconv.FormatInt id ++ domainSuffix.

(** [parseCorrelation]: the integer of a tag of the expected format, a
    decimal 64-bit integer followed by the suffix and by nothing else. *)
Definition parseCorrelation (tag : gostring) : option Z :=
  let n := (length tag - length domainSuffix)%nat in
  if bool_decide (drop n tag = domainSuffix)
  then match Strconv.ParseInt (take n tag) with
       | Ok id => Some id
       | Err _ => None
       end
  else None.

(** The id of a managed item; an item whose tag is not of the expected
    format, or whose integer is zero, is not managed. *)
Definition managed (item : calendar.Event) : option Z :=
  match parseCorrelation (calendar.ICalUID item) with
  | Some id => if id =? 0 then None else Some id
  | None => None
  end.

(** The desired event with a given id ([desired] is keyed by id). *)
Definition desiredEvent (desired : list Event) (id : Z) : option Event :=
  List.find (fun e => ID e =? id) desired.

(** The composed description: organizer, location, the description text,
    the link back to the source and the note of the last sync, under the
    labels of the managed calendar. *)
Definition composedDescription (env : GCal.Env) (e : Event) : gostring :=
  ``"Leader: " ++ Organizer e ++ [LF; LF]
  ++ ``"Location: " ++ Location e ++ [LF; LF]
  ++ Description e ++ [LF; LF]
  ++ ``"View on Strava: " ++ URL e ++ [LF; LF]
  ++ ``"Synced from Strava Club " ++ GCal.STRAVA_CLUB_ID env
  ++ ``" on " ++ GCal.syncTime env.

(** The full record derived from a desired event, with its times in the
    fixed time zone. *)
Definition record (env : GCal.Env) (e : Event) : Item :=
  {| correlation := formatCorrelation (ID e);
     summary := Title e;
     start := {| calendar.DateTime := GCal.formatLondon env (Start e);
                 calendar.TimeZone := ``"Europe/London" |};
     finish := {| calendar.DateTime := GCal.formatLondon env (End e);
                  calendar.TimeZone := ``"Europe/London" |};
     description := composedDescription env e |}.

(** The instant of a timestamp of an item (the zero instant when the text
    is no timestamp). *)
Definition instant (env : GCal.Env) (t : calendar.EventDateTime) : GoTime.Time :=
  default GoTime.zero (GCal.parseRFC3339 env (calendar.DateTime t)).

(** A managed item and its desired event differ in summary, start instant,
    end instant or trimmed description. *)
Definition differs (env : GCal.Env) (item : calendar.Event) (e : Event) : bool :=
  bool_decide (calendar.Summary item ≠ Title e)
  || negb (GoTime.Equal (instant env (calendar.Start item)) (Start e))
  || negb (GoTime.Equal (instant env (calendar.End item)) (End e))
  || bool_decide (Strings.TrimSpace (calendar.Description item)
                  ≠ Strings.TrimSpace (composedDescription env e)).

(** One delete for each managed item whose id is absent from [desired]. *)
Definition deletes (desired : list Event) (existing : list calendar.Event) : list Op :=
  flat_map (fun item =>
              match managed item with
              | Some id =>
                  match desiredEvent desired id with
                  | None => [Delete (calendar.Id item)]
                  | Some _ => []
                  end
              | None => []
              end) existing.

(** One update, with the full record, for each managed item whose id is in
    [desired] and that differs from its event. *)
Definition updates (env : GCal.Env) (desired : list Event) (existing : list calendar.Event)
  : list Op :=
  flat_map (fun item =>
              match managed item with
              | Some id =>
                  match desiredEvent desired id with
                  | Some e =>
                      if differs env item e
                      then [Update (calendar.Id item) (record env e)]
                      else []
                  | None => []
                  end
              | None => []
              end) existing.

(** The ids marked processed: those of the managed items that are in
    [desired]. *)
Definition processedIDs (desired : list Event) (existing : list calendar.Event) : list Z :=
  flat_map (fun item =>
              match managed item with
              | Some id =>
                  match desiredEvent desired id with
                  | Some _ => [id]
                  | None => []
                  end
              | None => []
              end) existing.

(** One create for each desired event whose id was not marked processed. *)
Definition creates (env : GCal.Env) (desired : list Event) (existing : list calendar.Event)
  : list Op :=
  flat_map (fun e =>
              if bool_decide (ID e ∈ processedIDs desired existing) then []
              else [Create (record env e)]) desired.

(** The operation set: the deletes, the updates and the creates, and no
    other operation. *)
Definition operations (env : GCal.Env) (desired : list Event)
           (existing : list calendar.Event) : list Op :=
  deletes desired existing ++ updates env desired existing ++ creates env desired existing.

(** A record of the calendar library, and a call of the reconciler, read
    through the interface. *)
Definition itemOf (r : calendar.Event) : Item :=
  {| correlation := calendar.ICalUID r;
     summary := calendar.Summary r;
     start := calendar.Start r;
     finish := calendar.End r;
     description := calendar.Description r |}.

Definition ofCall (c : GCal.Call) : Op :=
  match c with
  | GCal.EventsDelete id => Delete id
  | GCal.EventsUpdate id r => Update id (itemOf r)
  | GCal.EventsInsert r => Create (itemOf r)
  end.

End Reference.

(** * Facts about the embedding *)

(** ** Decimal integers *)

Module StrconvFacts.
Import Strconv.

(** The value of a digit string read from the left, starting from [n]. *)
Definition decimalFrom (s : gostring) (n : Z) : Z :=
  fold_left (fun a c => a * 10 + (byteVal c - 48)) s n.

Lemma byteVal_digitChar d : 0 <= d < 10 -> byteVal (digitChar d) = 48 + d.
Proof.
  intros H.
  assert (d = 0 \/ d = 1 \/ d = 2 \/ d = 3 \/ d = 4 \/ d = 5 \/ d = 6
          \/ d = 7 \/ d = 8 \/ d = 9) as Hd by lia.
  repeat (destruct Hd as [-> | Hd]; [reflexivity |]). subst d. reflexivity.
Qed.

Lemma isDigit_digitChar d : 0 <= d < 10 -> isDigit (digitChar d) = true.
Proof.
  intros H. unfold isDigit. rewrite byteVal_digitChar by assumption.
  apply andb_true_intro. split; apply Z.leb_le; lia.
Qed.

Lemma isDigit_range c : isDigit c = true -> 48 <= byteVal c <= 57.
Proof.
  unfold isDigit. intros H. apply andb_prop in H as [H1 H2].
  apply Z.leb_le in H1. apply Z.leb_le in H2. lia.
Qed.

Lemma formatBits_app fuel : forall u acc,
  formatBits fuel u acc = formatBits fuel u [] ++ acc.
Proof.
  induction fuel as [| fuel IH]; intros u acc; simpl; [reflexivity |].
  destruct (u <? 10); [reflexivity |].
  rewrite (IH _ (_ :: acc)), (IH _ [_]), <- app_assoc. reflexivity.
Qed.

Lemma decimalFrom_app s t n : decimalFrom (s ++ t) n = decimalFrom t (decimalFrom s n).
Proof. unfold decimalFrom. apply fold_left_app. Qed.

(** The digits printed for [u] are digits, at least one, and read back as [u]. *)
Lemma formatBits_S fuel u acc :
  formatBits (S fuel) u acc
  = if u <? 10 then digitChar (u mod 10) :: acc
    else formatBits fuel (u / 10) (digitChar (u mod 10) :: acc).
Proof. reflexivity. Qed.

Lemma formatBits_digits fuel : forall u,
  0 <= u < 10 ^ Z.of_nat (S fuel) ->
  Forall (fun c => isDigit c = true) (formatBits (S fuel) u [])
  /\ formatBits (S fuel) u [] <> []
  /\ forall n, decimalFrom (formatBits (S fuel) u []) n
               = n * 10 ^ Z.of_nat (length (formatBits (S fuel) u [])) + u.
Proof.
  induction fuel as [| fuel IH]; intros u Hu;
    rewrite !(formatBits_S _ u []); destruct (Z.ltb_spec u 10) as [Hlt | Hge].
  1, 3: rewrite Z.mod_small by lia; split; [| split];
    [ constructor; [apply isDigit_digitChar; lia | constructor]
    | discriminate
    | intros n; unfold decimalFrom; simpl;
      rewrite byteVal_digitChar by lia; lia ].
  - change (10 ^ Z.of_nat 1) with 10 in Hu. lia.
  - assert (0 <= u / 10 < 10 ^ Z.of_nat (S fuel)) as Hq.
    { split; [apply Z.div_pos; lia |].
      apply Z.div_lt_upper_bound; [lia |].
      rewrite (Nat2Z.inj_succ (S fuel)), Z.pow_succ_r in Hu by lia. lia. }
    destruct (IH _ Hq) as (Hd & Hne & Hval).
    rewrite formatBits_app. split; [| split].
    + apply Forall_app. split; [exact Hd |].
      constructor; [| constructor].
      apply isDigit_digitChar. apply Z.mod_pos_bound. lia.
    + intros Hnil. apply app_eq_nil in Hnil as [_ Hnil]. discriminate.
    + intros n. rewrite decimalFrom_app, Hval, length_app. simpl length.
      unfold decimalFrom at 1. simpl.
      rewrite byteVal_digitChar by (apply Z.mod_pos_bound; lia).
      rewrite Nat2Z.inj_add, Z.pow_add_r by lia.
      change (10 ^ Z.of_nat 1) with 10.
      pose proof (Z.div_mod u 10 ltac:(lia)). lia.
Qed.

Lemma decimalFrom_ge s : forall n,
  Forall (fun c => isDigit c = true) s -> 0 <= n -> n <= decimalFrom s n.
Proof.
  induction s as [| c s IH]; intros n Hs Hn; [unfold decimalFrom; simpl; lia |].
  inversion Hs as [| ? ? Hc Hs']; subst.
  apply isDigit_range in Hc.
  change (decimalFrom (c :: s) n) with (decimalFrom s (n * 10 + (byteVal c - 48))).
  specialize (IH (n * 10 + (byteVal c - 48)) Hs' ltac:(lia)). lia.
Qed.

(** On digits whose value fits 64 bits the loop of [ParseUint] reads the
    value and raises no error. *)
Lemma parseUintLoop_digits s : forall n,
  Forall (fun c => isDigit c = true) s -> 0 <= n ->
  decimalFrom s n <= maxUint64 ->
  parseUintLoop s n = Ok (decimalFrom s n).
Proof.
  induction s as [| c s IH]; intros n Hs Hn Hmax; [reflexivity |].
  inversion Hs as [| ? ? Hc Hs']; subst.
  pose proof (isDigit_range _ Hc) as Hr.
  change (decimalFrom (c :: s) n) with (decimalFrom s (n * 10 + (byteVal c - 48))) in *.
  pose proof (decimalFrom_ge s (n * 10 + (byteVal c - 48)) Hs' ltac:(lia)) as Hge.
  change maxUint64 with 18446744073709551615 in *.
  cbn [parseUintLoop]. rewrite Hc. cbn [negb].
  change (maxUint64 / 10 + 1) with 1844674407370955162.
  change maxUint64 with 18446744073709551615.
  change (2 ^ 64) with 18446744073709551616.
  destruct (Z.leb_spec 1844674407370955162 n) as [Hcut | Hcut]; [lia |].
  rewrite (Z.mod_small (n * 10)) by lia.
  rewrite (Z.mod_small (n * 10 + _)) by lia.
  destruct (Z.ltb_spec (n * 10 + (byteVal c - 48)) (n * 10)) as [Hw | Hw]; [lia |].
  destruct (Z.ltb_spec 18446744073709551615 (n * 10 + (byteVal c - 48))) as [Ho | Ho]; [lia |].
  cbn [orb]. apply IH; [assumption | lia | assumption].
Qed.

Lemma digit_not_sign c : isDigit c = true ->
  bool_decide (c = "+"%char) = false /\ bool_decide (c = "-"%char) = false.
Proof.
  intros H. apply isDigit_range in H.
  split; apply bool_decide_eq_false; intros ->;
    [change (byteVal "+") with 43 in H | change (byteVal "-") with 45 in H]; lia.
Qed.

(** [ParseInt] reads back what [FormatInt] prints for a 64-bit integer. *)
Lemma ParseInt_FormatInt i :
  - 2 ^ 63 <= i < 2 ^ 63 -> ParseInt (FormatInt i) = Ok i.
Proof.
  intros Hi. unfold FormatInt.
  assert (10 ^ Z.of_nat 20 = 100000000000000000000) as H20 by reflexivity.
  assert (2 ^ 63 = 9223372036854775808) as H63 by reflexivity.
  destruct (Z.ltb_spec i 0) as [Hneg | Hpos].
  - destruct (formatBits_digits 19 (- i) ltac:(change (Z.of_nat 20) with 20 in H20; change (Z.of_nat 20) with 20; lia)) as (Hd & Hne & Hval).
    unfold ParseInt.
    rewrite (bool_decide_eq_true_2 ("-"%char = "-"%char) eq_refl).
    rewrite orb_true_r.
    unfold ParseUint. destruct (formatBits 20 (- i) []) as [| c ds] eqn:E; [congruence |].
    rewrite parseUintLoop_digits; [| assumption | lia | rewrite Hval; change maxUint64 with 18446744073709551615; change (2 ^ 63) with 9223372036854775808 in Hi; lia].
    rewrite Hval. simpl negb. simpl andb.
    replace (0 * _ + - i) with (- i) by lia.
    destruct (Z.ltb_spec (2 ^ 63) (- i)); [lia |]. f_equal. lia.
  - destruct (formatBits_digits 19 i ltac:(change (Z.of_nat 20) with 20 in H20; change (Z.of_nat 20) with 20; lia)) as (Hd & Hne & Hval).
    unfold ParseInt. destruct (formatBits 20 i []) as [| c ds] eqn:E; [congruence |].
    inversion Hd as [| ? ? Hc Hds]; subst.
    destruct (digit_not_sign c Hc) as [-> ->]. simpl orb. cbv iota.
    unfold ParseUint.
    rewrite parseUintLoop_digits; [| assumption | lia | rewrite Hval; change maxUint64 with 18446744073709551615; change (2 ^ 63) with 9223372036854775808 in Hi; lia].
    rewrite Hval. simpl negb. simpl andb.
    replace (0 * _ + i) with i by lia.
    destruct (Z.leb_spec (2 ^ 63) i); [lia |]. reflexivity.
Qed.

End StrconvFacts.

(** ** Scanning the correlation identifier *)

Module FmtFacts.
Import Strconv StrconvFacts Fmt.

Lemma SkipSpace_token c r :
  isDigit c = true \/ c = "-"%char -> SkipSpace (c :: r) = Ok (c :: r).
Proof.
  intros H.
  assert (43 <= byteVal c <= 57) as Hb.
  { destruct H as [H | ->]; [apply isDigit_range in H; lia |].
    change (byteVal "-") with 45. lia. }
  cbn [SkipSpace].
  destruct (Z.eqb_spec (byteVal c) 10); [lia |].
  unfold isAsciiSpace, isSpace2, isSpace3.
  destruct (Z.leb_spec (byteVal c) 13); [lia |].
  destruct (Z.eqb_spec (byteVal c) 32); [lia |].
  rewrite andb_false_r. cbn [orb].
  destruct r as [| c2 [| c3 r3]]; [reflexivity | |];
    destruct (Z.eqb_spec (byteVal c) 194); try lia; cbn [andb]; [reflexivity |].
  destruct (Z.eqb_spec (byteVal c) 225); [lia |].
  destruct (Z.eqb_spec (byteVal c) 226); [lia |].
  destruct (Z.eqb_spec (byteVal c) 227); [lia |].
  reflexivity.
Qed.

Lemma acceptWhile_app ok tok rest :
  Forall (fun c => ok c = true) tok ->
  match rest with [] => True | c :: _ => ok c = false end ->
  acceptWhile ok (tok ++ rest) = (tok, rest).
Proof.
  intros Htok Hrest. induction Htok as [| c tok Hc _ IH]; simpl.
  - destruct rest as [| c rest]; simpl; [reflexivity | now rewrite Hrest].
  - now rewrite Hc, IH.
Qed.

Lemma advanceLiteral_app lit rest : advanceLiteral lit (lit ++ rest) = Ok rest.
Proof.
  induction lit as [| f lit IH]; [reflexivity |].
  simpl. now rewrite bool_decide_eq_true_2.
Qed.

Lemma digits_are_number_bytes ds :
  Forall (fun c => isDigit c = true) ds ->
  Forall (fun c => isNumberByte c = true) ds.
Proof.
  induction 1 as [| c ds Hc _ IH]; constructor; [| exact IH].
  exact Hc.
Qed.

(** Scanning what [Sprintf] printed for a 64-bit integer, followed by text
    that starts with no digit, reads the integer and leaves the text. *)
Lemma scanInt_FormatInt i rest :
  - 2 ^ 63 <= i < 2 ^ 63 ->
  match rest with [] => False | c :: _ => isNumberByte c = false end ->
  scanInt (FormatInt i ++ rest) = Ok (i, rest).
Proof.
  intros Hi Hrest.
  pose proof (ParseInt_FormatInt i Hi) as Hparse.
  assert (match rest with [] => True | c :: _ => isNumberByte c = false end) as Hrest'
    by (destruct rest; [exact I | assumption]).
  assert (10 ^ Z.of_nat 20 = 100000000000000000000) as H20 by reflexivity.
  assert (2 ^ 63 = 9223372036854775808) as H63 by reflexivity.
  unfold FormatInt in *. destruct (Z.ltb_spec i 0) as [Hneg | Hpos].
  - destruct (formatBits_digits 19 (- i)
                ltac:(change (Z.of_nat 20) with 20 in H20; change (Z.of_nat 20) with 20; lia))
      as (Hd & Hne & _).
    unfold scanInt. cbn [app].
    rewrite SkipSpace_token by (now right).
    change (isSign "-") with true. cbv iota.
    destruct (formatBits 20 (- i) []) as [| d ds] eqn:E; [congruence |].
    cbn [app]. inversion Hd as [| ? ? Hdd Hds]; subst.
    unfold isNumberByte at 1. rewrite Hdd. cbn [negb].
    change (d :: ds ++ rest) with ((d :: ds) ++ rest).
    rewrite acceptWhile_app by (auto using digits_are_number_bytes).
    cbn [app] in *. now rewrite Hparse.
  - destruct (formatBits_digits 19 i
                ltac:(change (Z.of_nat 20) with 20 in H20; change (Z.of_nat 20) with 20; lia))
      as (Hd & Hne & _).
    unfold scanInt.
    destruct (formatBits 20 i []) as [| d ds] eqn:E; [congruence |].
    cbn [app]. inversion Hd as [| ? ? Hdd Hds]; subst.
    rewrite SkipSpace_token by (now left).
    destruct (digit_not_sign d Hdd) as [Hp Hm].
    unfold isSign. rewrite Hp, Hm. cbn [orb]. cbv iota.
    unfold isNumberByte at 1. rewrite Hdd. cbn [negb].
    change (d :: ds ++ rest) with ((d :: ds) ++ rest).
    rewrite acceptWhile_app by (auto using digits_are_number_bytes).
    cbn [app]. now rewrite Hparse.
Qed.

(** Scanning the printed correlation identifier reads the id back. *)
Lemma Sscanf_formatUID (id : Z) :
  - 2 ^ 63 <= id < 2 ^ 63 ->
  Sscanf_d (GCal.formatUID id) GCal.uidSuffix
  = {| scanned_n := 1; scanned_err := None; scanned_v := id |}.
Proof.
  intros Hid. unfold GCal.formatUID, Sprintf_d, Sscanf_d.
  rewrite scanInt_FormatInt by (assumption || reflexivity).
  reflexivity.
Qed.

End FmtFacts.

(** ** The serializer: escaping *)

Module EscapeFacts.
Import Strings.

(** Replacing a single byte is a byte-wise substitution. *)
Lemma ReplaceAll_byte (c : ascii) (new s : gostring) :
  ReplaceAll s [c] new = flat_map (fun x => if bool_decide (x = c) then new else [x]) s.
Proof.
  unfold ReplaceAll. induction s as [| x s IH]; [reflexivity |].
  cbn [replaceFrom HasPrefix length Nat.pred flat_map].
  rewrite andb_true_r.
  destruct (decide (x = c)) as [-> | Hne].
  - rewrite !bool_decide_eq_true_2 by reflexivity. now rewrite IH.
  - rewrite (bool_decide_eq_false_2 (c = x)) by congruence.
    rewrite (bool_decide_eq_false_2 (x = c)) by congruence. now rewrite IH.
Qed.

(** Nothing is replaced in a text that lacks the first byte of [old]. *)
Lemma ReplaceAll_absent (c : ascii) (old new s : gostring) :
  Forall (fun x => x <> c) s -> ReplaceAll s (c :: old) new = s.
Proof.
  unfold ReplaceAll. induction 1 as [| x s Hx _ IH]; [reflexivity |].
  cbn [replaceFrom HasPrefix].
  rewrite (bool_decide_eq_false_2 (c = x)) by congruence. cbn [andb].
  now rewrite IH.
Qed.

Lemma flat_map_compose {A B C} (f : A -> list B) (g : B -> list C) (l : list A) :
  flat_map g (flat_map f l) = flat_map (fun x => flat_map g (f x)) l.
Proof.
  induction l as [| x l IH]; [reflexivity |].
  cbn [flat_map]. now rewrite flat_map_app, IH.
Qed.

End EscapeFacts.

(** What escaping does to one byte: a backslash in front of a backslash, a
    semicolon or a comma. *)
Definition escapeByte (c : ascii) : gostring :=
  if bool_decide (c = "\"%char) || bool_decide (c = ";"%char) || bool_decide (c = ","%char)
  then ["\"%char; c] else [c].

Lemma escapeICSText_bytes (s : gostring) :
  IcsRaw.escapeICSText s = flat_map escapeByte s.
Proof.
  unfold IcsRaw.escapeICSText.
  change ``"\" with ["\"%char]. change ``";" with [";"%char]. change ``"," with [","%char].
  rewrite !EscapeFacts.ReplaceAll_byte, !EscapeFacts.flat_map_compose.
  apply flat_map_ext. intros c. unfold escapeByte.
  destruct (decide (c = "\"%char)) as [-> | H1]; [reflexivity |].
  destruct (decide (c = ";"%char)) as [-> | H2]; [reflexivity |].
  destruct (decide (c = ","%char)) as [-> | H3]; [reflexivity |].
  rewrite !(bool_decide_eq_false_2 (c = _)) by assumption.
  cbn [flat_map app orb]. rewrite !(bool_decide_eq_false_2 (c = _)) by assumption.
  cbn [flat_map app]. rewrite !(bool_decide_eq_false_2 (c = _)) by assumption.
  reflexivity.
Qed.

Lemma escapeByte_keeps (x c : ascii) :
  x <> "\"%char -> c <> x -> Forall (fun y => y <> x) (escapeByte c).
Proof.
  intros Hx Hc. unfold escapeByte.
  destruct (_ || _); repeat constructor; congruence.
Qed.

Lemma escaped_keeps (x : ascii) (s : gostring) :
  x <> "\"%char -> Forall (fun c => c <> x) s ->
  Forall (fun y => y <> x) (flat_map escapeByte s).
Proof.
  intros Hx. induction 1 as [| c s Hc _ IH]; [constructor |].
  cbn [flat_map]. apply Forall_app. split; [now apply escapeByte_keeps | exact IH].
Qed.

(** Without line breaks in the text the two revisions escape alike. *)
Lemma escapeICSText_rfc_bytes (s : gostring) :
  Forall (fun c => c <> CR /\ c <> LF) s ->
  IcsRfc.escapeICSText s = flat_map escapeByte s.
Proof.
  intros Hs.
  assert (Forall (fun y => y <> CR) (flat_map escapeByte s)) as Hcr.
  { apply escaped_keeps; [discriminate |].
    eapply Forall_impl; [exact Hs | now intros c [H _]]. }
  assert (Forall (fun y => y <> LF) (flat_map escapeByte s)) as Hlf.
  { apply escaped_keeps; [discriminate |].
    eapply Forall_impl; [exact Hs | now intros c [_ H]]. }
  unfold IcsRfc.escapeICSText.
  change (Strings.ReplaceAll (Strings.ReplaceAll (Strings.ReplaceAll s ``"\" ``"\\") ``";" ``"\;") ``"," ``"\,")
    with (IcsRaw.escapeICSText s).
  rewrite escapeICSText_bytes.
  rewrite (EscapeFacts.ReplaceAll_absent CR [LF]) by exact Hcr.
  rewrite (EscapeFacts.ReplaceAll_absent LF []) by exact Hlf.
  now rewrite (EscapeFacts.ReplaceAll_absent CR []) by exact Hcr.
Qed.

Lemma unescape_escapeByte (c : ascii) (t : gostring) :
  unescapeFrom false (escapeByte c ++ t) = c :: unescapeFrom false t.
Proof.
  unfold escapeByte.
  destruct (decide (c = "\"%char)) as [-> | H1]; [reflexivity |].
  destruct (decide (c = ";"%char)) as [-> | H2]; [reflexivity |].
  destruct (decide (c = ","%char)) as [-> | H3]; [reflexivity |].
  rewrite !(bool_decide_eq_false_2 (c = _)) by assumption.
  cbn [orb app unescapeFrom].
  now rewrite (bool_decide_eq_false_2 (c = "\"%char)) by assumption.
Qed.

Lemma unescape_escaped (s : gostring) :
  unescapeText (flat_map escapeByte s) = s.
Proof.
  unfold unescapeText. induction s as [| c s IH]; [reflexivity |].
  cbn [flat_map]. now rewrite unescape_escapeByte, IH.
Qed.

(** ** The serializer: folding *)

Module FoldFacts.

(** One round of the folding loop, for any fuel that covers the line. *)
Lemma foldLoop_step (fuel : nat) (line : gostring) :
  (length line <= fuel)%nat ->
  foldLoop fuel line
  = if Nat.ltb maxLen (length line)
    then take maxLen line ++ foldBreak ++ foldLoop (Nat.pred fuel) (drop maxLen line)
    else line.
Proof.
  intros Hfuel. destruct fuel as [| fuel]; cbn [foldLoop Nat.pred].
  - destruct line; [reflexivity | simpl in Hfuel; lia].
  - reflexivity.
Qed.

(** The loop ends: with enough fuel more fuel changes nothing. *)
Lemma foldLoop_fuel (fuel : nat) : forall fuel' line,
  (length line <= fuel)%nat -> (length line <= fuel')%nat ->
  foldLoop fuel line = foldLoop fuel' line.
Proof.
  induction fuel as [| fuel IH]; intros fuel' line H H'.
  - destruct line; [| simpl in H; lia]. destruct fuel'; reflexivity.
  - destruct fuel' as [| fuel'].
    + destruct line; [reflexivity | simpl in H'; lia].
    + cbn [foldLoop]. destruct (Nat.ltb_spec maxLen (length line)) as [Hlt | Hge]; [| reflexivity].
      unfold maxLen in *. f_equal. f_equal.
      apply IH; rewrite length_drop; lia.
Qed.

(** The physical lines of a text that starts with a piece without carriage
    return, then a CRLF. *)
Lemma linesFrom_piece (s : gostring) : forall cur t,
  Forall (fun c => c <> CR) s ->
  linesFrom cur (s ++ CRLF ++ t) = (rev cur ++ s) :: linesFrom [] t.
Proof.
  induction s as [| c s IH]; intros cur t Hs.
  - cbn. now rewrite app_nil_r.
  - inversion Hs as [| ? ? Hc Hs']; subst.
    cbn [app linesFrom].
    destruct (s ++ CRLF ++ t) as [| d rest] eqn:E.
    { destruct s; discriminate. }
    rewrite (bool_decide_eq_false_2 (c = CR)) by assumption. cbn [andb].
    rewrite <- E, IH by assumption. cbn [rev]. now rewrite <- app_assoc.
Qed.

(** Unfolding passes over text without carriage return and removes a
    continuation break. *)
Lemma unfold_piece (s t : gostring) :
  Forall (fun c => c <> CR) s -> unfold (s ++ t) = s ++ unfold t.
Proof.
  unfold unfold, Strings.ReplaceAll. induction 1 as [| c s Hc _ IH]; [reflexivity |].
  cbn [app Strings.replaceFrom Strings.HasPrefix foldBreak].
  rewrite (bool_decide_eq_false_2 (CR = c)) by congruence. cbn [andb].
  now rewrite IH.
Qed.

Lemma unfold_break (t : gostring) : unfold (foldBreak ++ t) = unfold t.
Proof. reflexivity. Qed.

Lemma Forall_take_drop {A} (P : A -> Prop) (n : nat) (l : list A) :
  Forall P l -> Forall P (take n l) /\ Forall P (drop n l).
Proof.
  intros H. rewrite <- (take_drop n l) in H. now apply Forall_app in H.
Qed.

(** Unfolding the folded line gives the line back when the line holds no
    carriage return. *)
Lemma unfold_foldLoop (fuel : nat) : forall line t,
  Forall (fun c => c <> CR) line ->
  unfold (foldLoop fuel line ++ t) = line ++ unfold t.
Proof.
  induction fuel as [| fuel IH]; intros line t Hline; cbn [foldLoop].
  - now apply unfold_piece.
  - destruct (Nat.ltb maxLen (length line)); [| now apply unfold_piece].
    destruct (Forall_take_drop _ maxLen _ Hline) as [Ht Hd].
    rewrite <- !app_assoc, unfold_piece, unfold_break, IH by assumption.
    now rewrite app_assoc, take_drop.
Qed.

(** A line of more than 150 bytes is folded into a first physical line of
    75 bytes and a second of 76: the space and 75 bytes more. *)
Lemma second_line_76 (line tail : gostring) :
  Forall (fun c => c <> CR) line -> (2 * maxLen < length line)%nat ->
  exists rest,
    physicalLines (foldLoop (length line) line ++ CRLF ++ tail)
    = take maxLen line :: (SP :: take maxLen (drop maxLen line)) :: rest.
Proof.
  intros Hline Hlen. unfold physicalLines, maxLen in *.
  destruct (Forall_take_drop _ 75%nat _ Hline) as [Ht Hd].
  destruct (Forall_take_drop _ 75%nat _ Hd) as [Ht2 Hd2].
  rewrite foldLoop_step by lia. unfold maxLen.
  destruct (Nat.ltb_spec 75 (length line)) as [_ | ?]; [| lia].
  rewrite foldLoop_step by (rewrite length_drop; lia). unfold maxLen.
  rewrite length_drop.
  destruct (Nat.ltb_spec 75 (length line - 75)) as [_ | ?]; [| lia].
  change foldBreak with (CRLF ++ [SP]).
  rewrite <- !app_assoc.
  rewrite linesFrom_piece by assumption. cbn [rev app].
  change (SP :: take 75 (drop 75 line) ++ CRLF ++ ?x)
    with ((SP :: take 75 (drop 75 line)) ++ CRLF ++ x).
  rewrite (linesFrom_piece (SP :: take 75 (drop 75 line)))
    by (constructor; [discriminate | assumption]).
  eexists. reflexivity.
Qed.

(** The newer revision leaves no carriage return in an escaped value. *)
Lemma rfc_escaped_no_CR (s : gostring) :
  Forall (fun c => c <> CR) (IcsRfc.escapeICSText s).
Proof.
  unfold IcsRfc.escapeICSText. rewrite EscapeFacts.ReplaceAll_byte.
  generalize (Strings.ReplaceAll
                (Strings.ReplaceAll
                   (Strings.ReplaceAll
                      (Strings.ReplaceAll (Strings.ReplaceAll s ``"\" ``"\\") ``";" ``"\;")
                      ``"," ``"\,") [CR; LF] ``"\n") [LF] ``"\n").
  intros t. induction t as [| c t IH]; [constructor |].
  cbn [flat_map]. apply Forall_app. split; [| exact IH].
  destruct (decide (c = CR)) as [-> | Hc].
  - rewrite bool_decide_eq_true_2 by reflexivity. repeat constructor; discriminate.
  - rewrite bool_decide_eq_false_2 by exact Hc. now repeat constructor.
Qed.

Lemma rfc_foldLine_loop (text : gostring) :
  IcsRfc.foldLine text = foldLoop (length text) text.
Proof.
  unfold IcsRfc.foldLine. destruct (Nat.leb_spec (length text) maxLen) as [H | H]; [| reflexivity].
  rewrite foldLoop_step by lia.
  destruct (Nat.ltb_spec maxLen (length text)); [lia | reflexivity].
Qed.

(** In the newer revision, for a property name without carriage return,
    unfolding the written property gives back the logical line and its
    terminator. *)
Lemma rfc_unfold_round_trip (property value : gostring) :
  Forall (fun c => c <> CR) property ->
  unfold (IcsRfc.formatICSProperty property value)
  = property ++ ``":" ++ IcsRfc.escapeICSText (IcsRfc.stripHTML value) ++ CRLF.
Proof.
  intros Hp. unfold IcsRfc.formatICSProperty. rewrite rfc_foldLine_loop.
  rewrite unfold_foldLoop.
  - now rewrite <- !app_assoc.
  - apply Forall_app. split; [exact Hp |].
    apply Forall_app. split; [repeat constructor; discriminate | apply rfc_escaped_no_CR].
Qed.

(** In the newer revision, whenever the logical line is longer than 150
    bytes, the second physical line has 76. *)
Lemma rfc_long_line_76 (property value : gostring) :
  Forall (fun c => c <> CR) property ->
  (2 * maxLen < length (property ++ ``":" ++ IcsRfc.escapeICSText (IcsRfc.stripHTML value)))%nat ->
  length (nth 1 (physicalLines (IcsRfc.formatICSProperty property value)) []) = 76%nat.
Proof.
  intros Hp Hlen. unfold IcsRfc.formatICSProperty. rewrite rfc_foldLine_loop.
  set (line := property ++ ``":" ++ _) in *.
  assert (Forall (fun c => c <> CR) line) as Hline.
  { apply Forall_app. split; [exact Hp |].
    apply Forall_app. split; [repeat constructor; discriminate | apply rfc_escaped_no_CR]. }
  destruct (second_line_76 line [] Hline Hlen) as (rest & Hlines).
  rewrite app_nil_r in Hlines. rewrite Hlines. cbn [nth length].
  unfold maxLen in *. rewrite length_take, length_drop. lia.
Qed.

End FoldFacts.

(** ** Event construction *)

Module TimeFacts.
Import GoTime.

Lemma digitOf_range c : Strconv.isDigit c = true -> 0 <= digitOf c <= 9.
Proof.
  unfold Strconv.isDigit, digitOf. intros H. apply andb_prop in H as [H1 H2].
  apply Z.leb_le in H1. apply Z.leb_le in H2. lia.
Qed.

Lemma getnum_range s fixed n rest :
  getnum s fixed = Some (n, rest) -> 0 <= n <= 99.
Proof.
  unfold getnum. destruct s as [| c1 s1]; [discriminate |].
  destruct (Strconv.isDigit c1) eqn:E1; [| discriminate]. cbn [negb].
  pose proof (digitOf_range _ E1).
  destruct s1 as [| c2 s2].
  - destruct fixed; [discriminate |]. intros [= <- <-]. lia.
  - destruct (Strconv.isDigit c2) eqn:E2.
    + pose proof (digitOf_range _ E2). intros [= <- <-]. lia.
    + destruct fixed; [discriminate |]. intros [= <- <-]. lia.
Qed.

Lemma getYear_range s year rest :
  getYear s = Some (year, rest) -> 0 <= year <= 9999.
Proof.
  unfold getYear. destruct s as [| c1 [| c2 [| c3 [| c4 s']]]]; try discriminate.
  cbn [forallb].
  destruct (Strconv.isDigit c1) eqn:E1; [| discriminate].
  destruct (Strconv.isDigit c2) eqn:E2; [| discriminate].
  destruct (Strconv.isDigit c3) eqn:E3; [| discriminate].
  destruct (Strconv.isDigit c4) eqn:E4; [| discriminate].
  cbn [andb]. intros [= <- <-].
  pose proof (digitOf_range _ E1). pose proof (digitOf_range _ E2).
  pose proof (digitOf_range _ E3). pose proof (digitOf_range _ E4). lia.
Qed.

Lemma digits_value_bound (ds : gostring) : forall n,
  Forall (fun c => Strconv.isDigit c = true) ds -> 0 <= n ->
  0 <= fold_left (fun a c => a * 10 + digitOf c) ds n
    < (n + 1) * 10 ^ Z.of_nat (length ds).
Proof.
  induction ds as [| c ds IH]; intros n Hds Hn.
  - cbn. lia.
  - inversion Hds as [| ? ? Hc Hds']; subst.
    pose proof (digitOf_range _ Hc) as Hr.
    cbn [fold_left length].
    specialize (IH (n * 10 + digitOf c) Hds' ltac:(lia)).
    rewrite Nat2Z.inj_succ, Z.pow_succ_r by lia.
    assert (0 < 10 ^ Z.of_nat (length ds)) by (apply Z.pow_pos_nonneg; lia).
    nia.
Qed.

Lemma acceptWhile_accepted ok s tok rest :
  Fmt.acceptWhile ok s = (tok, rest) -> Forall (fun c => ok c = true) tok.
Proof.
  revert tok rest. induction s as [| c s IH]; intros tok rest; cbn [Fmt.acceptWhile].
  - intros [= <- <-]. constructor.
  - destruct (ok c) eqn:E; [| intros [= <- <-]; constructor].
    destruct (Fmt.acceptWhile ok s) as [tok' rest'] eqn:E'.
    intros [= <- <-]. constructor; [exact E | eapply IH; reflexivity].
Qed.

Lemma fraction_range s ns rest :
  fraction s = (ns, rest) -> 0 <= ns < Second.
Proof.
  unfold fraction, Second.
  assert (0 <= 0 < 10 ^ 9) as H0 by lia.
  destruct s as [| p [| d s']]; try (intros [= <- <-]; exact H0).
  destruct (_ && _); [| intros [= <- <-]; exact H0].
  destruct (Fmt.acceptWhile Strconv.isDigit (tl (p :: d :: s'))) as [digits rest'] eqn:E.
  intros [= <- <-].
  pose proof (acceptWhile_accepted _ _ _ _ E) as Hd.
  assert (Forall (fun c => Strconv.isDigit c = true) (take 9 digits)) as Hd9.
  { rewrite <- (take_drop 9 digits) in Hd. now apply Forall_app in Hd. }
  pose proof (digits_value_bound (take 9 digits) 0 Hd9 ltac:(lia)) as Hv.
  assert (length (take 9 digits) <= 9)%nat as Hlen by (rewrite length_take; lia).
  set (k := length (take 9 digits)) in *.
  set (v := fold_left _ _ _) in *.
  assert (10 ^ Z.of_nat k * 10 ^ Z.of_nat (9 - k) = 10 ^ 9) as Hpow.
  { rewrite <- Z.pow_add_r by lia. f_equal. lia. }
  assert (0 < 10 ^ Z.of_nat (9 - k)) by (apply Z.pow_pos_nonneg; lia).
  assert (0 < 10 ^ Z.of_nat k) by (apply Z.pow_pos_nonneg; lia).
  nia.
Qed.

Lemma daysBefore_range m : 0 <= daysBefore m <= 365.
Proof.
  unfold daysBefore. generalize (Z.to_nat (m - 1)). intros n.
  do 14 (destruct n as [| n]; [cbn; lia |]). destruct n; cbn; lia.
Qed.

Lemma daysIn_le_31 m year : daysIn m year <= 31.
Proof.
  unfold daysIn. destruct (_ && _); [lia |].
  unfold daysBefore.
  destruct (Z_le_gt_dec m 0) as [Hm | Hm].
  { replace (Z.to_nat (m - 1)) with 0%nat by lia.
    destruct (Z.to_nat (m + 1 - 1)) as [| [| n]] eqn:E; cbn; try lia. }
  replace (Z.to_nat (m + 1 - 1)) with (S (Z.to_nat (m - 1))) by lia.
  generalize (Z.to_nat (m - 1)). intros n.
  do 14 (destruct n as [| n]; [cbn; lia |]). destruct n; cbn; lia.
Qed.

(** Every parsed instant lies in the years 0000..9999, with its nanoseconds
    within the second. *)
Lemma ParseStravaLayout_range value t :
  ParseStravaLayout value = Some t ->
  - 2 ^ 40 <= sec t <= 2 ^ 40 /\ 0 <= nsec t < Second.
Proof.
  unfold ParseStravaLayout. cbn [mbind option_bind].
  destruct (getYear value) as [[year v0] |] eqn:Ey; [| discriminate].
  cbn [mbind option_bind].
  destruct (expect "-" v0) as [v1 |]; [| discriminate]. cbn [mbind option_bind].
  destruct (getnum v1 true) as [[month v2] |] eqn:Em; [| discriminate].
  cbn [mbind option_bind].
  destruct (Z.leb_spec month 0) as [| Hm1]; [discriminate |].
  destruct (Z.ltb_spec 12 month) as [| Hm2]; [discriminate |]. cbn [orb].
  destruct (expect "-" v2) as [v3 |]; [| discriminate]. cbn [mbind option_bind].
  destruct (getnum v3 true) as [[day v4] |] eqn:Ed; [| discriminate].
  cbn [mbind option_bind].
  destruct (expect "T" v4) as [v5 |]; [| discriminate]. cbn [mbind option_bind].
  destruct (getnum v5 false) as [[hour v6] |] eqn:Eh; [| discriminate].
  cbn [mbind option_bind].
  destruct (Z.leb_spec 24 hour) as [| Hh]; [discriminate |].
  destruct (expect ":" v6) as [v7 |]; [| discriminate]. cbn [mbind option_bind].
  destruct (getnum v7 true) as [[min v8] |] eqn:Emin; [| discriminate].
  cbn [mbind option_bind].
  destruct (Z.leb_spec 60 min) as [| Hmin]; [discriminate |].
  destruct (expect ":" v8) as [v9 |]; [| discriminate]. cbn [mbind option_bind].
  destruct (getnum v9 true) as [[s v10] |] eqn:Es; [| discriminate].
  cbn [mbind option_bind].
  destruct (Z.leb_spec 60 s) as [| Hs]; [discriminate |].
  destruct (fraction v10) as [ns v11] eqn:Ef.
  destruct (expect "Z" v11) as [v12 |]; [| discriminate]. cbn [mbind option_bind].
  destruct v12; [| discriminate].
  destruct (Z.ltb_spec day 1) as [| Hd1]; [discriminate |].
  destruct (Z.ltb_spec (daysIn month year) day) as [| Hd2]; [discriminate |].
  cbn [orb]. intros [= <-]. cbn [sec nsec DateUTC].
  apply getYear_range in Ey. apply getnum_range in Eh, Emin, Es.
  apply fraction_range in Ef.
  pose proof (daysBefore_range month). pose proof (daysIn_le_31 month year).
  split; [| exact Ef].
  unfold daysSinceYear1.
  assert (0 <= (if isLeap year && (3 <=? month) then 1 else 0) <= 1)
    by (destruct (_ && _); lia).
  change (2 ^ 40) with 1099511627776.
  pose proof (Z.div_mod (year - 1) 4 ltac:(lia)).
  pose proof (Z.mod_pos_bound (year - 1) 4 ltac:(lia)).
  pose proof (Z.div_mod (year - 1) 100 ltac:(lia)).
  pose proof (Z.mod_pos_bound (year - 1) 100 ltac:(lia)).
  pose proof (Z.div_mod (year - 1) 400 ltac:(lia)).
  pose proof (Z.mod_pos_bound (year - 1) 400 ltac:(lia)).
  lia.
Qed.

(** Adding an hour to an instant far from the ends of the 64-bit range. *)
Lemma Add_Hour t :
  - 2 ^ 40 <= sec t <= 2 ^ 40 -> 0 <= nsec t < Second ->
  Add t (1 * Hour) = {| sec := sec t + 3600; nsec := nsec t |}.
Proof.
  intros Hsec Hns. unfold Add.
  change (1 * Hour) with 3600000000000. unfold Second in *.
  change (Z.quot 3600000000000 (10 ^ 9)) with 3600.
  change (Z.rem 3600000000000 (10 ^ 9)) with 0.
  change (10 ^ 9) with 1000000000 in *. change (2 ^ 40) with 1099511627776 in *.
  rewrite Z.add_0_r.
  destruct (Z.leb_spec 1000000000 (nsec t)); [lia |].
  destruct (Z.ltb_spec (nsec t) 0); [lia |].
  f_equal. unfold addSec, wrap64.
  change (2 ^ 63) with 9223372036854775808. change (2 ^ 64) with 18446744073709551616.
  rewrite Z.mod_small by lia.
  replace (sec t + 3600 + 9223372036854775808 - 9223372036854775808) with (sec t + 3600) by lia.
  destruct (Z.ltb_spec (sec t) (sec t + 3600)); [reflexivity | lia].
Qed.

End TimeFacts.

Module ConvertFacts.
Import Strava.

Section Batch.
Variable STRAVA_CLUB_ID : gostring.
Variable redactPhoneNumbers : gostring -> gostring.

Local Abbreviation convert := (convertStravaEvent STRAVA_CLUB_ID redactPhoneNumbers).
Local Abbreviation step := (convertStep STRAVA_CLUB_ID redactPhoneNumbers).
Local Abbreviation batch := (convertEvents STRAVA_CLUB_ID redactPhoneNumbers).

(** The loop only appends to what it has. *)
Lemma convert_fold (l : list StravaEvent.t) : forall acc,
  fold_left step l acc = (acc.1 ++ (batch l).1, acc.2 ++ (batch l).2).
Proof.
  unfold convertEvents.
  induction l as [| se l IH]; intros [evs log]; cbn [fold_left fst snd].
  - now rewrite !app_nil_r.
  - rewrite (IH (step (evs, log) se)), (IH (step ([], []) se)).
    unfold convertStep. cbn [fst snd].
    destruct (convert se); cbn [fst snd app]; now rewrite <- !app_assoc.
Qed.

Lemma convertEvents_app (l1 l2 : list StravaEvent.t) :
  batch (l1 ++ l2) = ((batch l1).1 ++ (batch l2).1, (batch l1).2 ++ (batch l2).2).
Proof.
  unfold convertEvents at 1. rewrite fold_left_app.
  fold (batch l1). now rewrite convert_fold.
Qed.

Lemma convertEvents_cons (se : StravaEvent.t) (l : list StravaEvent.t) :
  batch (se :: l)
  = match convert se with
    | Err err => ((batch l).1, (StravaEvent.ID se, err) :: (batch l).2)
    | Ok event => (event :: (batch l).1, (batch l).2)
    end.
Proof.
  unfold convertEvents at 1. cbn [fold_left]. rewrite convert_fold.
  unfold convertStep. now destruct (convert se).
Qed.

End Batch.

End ConvertFacts.

(** ** Time windows and the event cache *)

Lemma After_irrefl (t : GoTime.Time) : GoTime.After t t = false.
Proof.
  unfold GoTime.After. rewrite !Z.ltb_irrefl. now rewrite andb_false_r.
Qed.

(** ** The reconciler *)

Module SyncFacts.
Import GCal.

(** *** The map of desired events *)

Lemma fold_insert_other (l : list Event) : forall (m : gmap Z Event) id,
  id ∉ map ID l ->
  fold_left (fun m event => <[ID event := event]> m) l m !! id = m !! id.
Proof.
  induction l as [| x l IH]; intros m id Hid; [reflexivity |].
  cbn [map] in Hid. apply not_elem_of_cons in Hid as [Hne Hid].
  cbn [fold_left]. rewrite IH by exact Hid.
  apply lookup_insert_ne. congruence.
Qed.

Lemma fold_insert_found (l : list Event) : forall (m : gmap Z Event) id e,
  fold_left (fun m event => <[ID event := event]> m) l m !! id = Some e ->
  (In e l /\ ID e = id) \/ m !! id = Some e.
Proof.
  induction l as [| x l IH]; intros m id e H; [now right |].
  cbn [fold_left] in H. apply IH in H as [[Hin Hid] | H].
  - left. split; [now right | exact Hid].
  - destruct (decide (ID x = id)) as [E | E].
    + rewrite <- E, lookup_insert_eq in H. injection H as ->. left. split; [now left | exact E].
    + rewrite lookup_insert_ne in H by exact E. now right.
Qed.

Lemma stravaEventMap_found (events : list Event) id e :
  stravaEventMap events !! id = Some e -> In e events /\ ID e = id.
Proof.
  intros H. apply fold_insert_found in H as [H | H]; [exact H |].
  now rewrite lookup_empty in H.
Qed.

Lemma fold_insert_has (l : list Event) : forall (m : gmap Z Event) id,
  id ∈ map ID l ->
  is_Some (fold_left (fun m event => <[ID event := event]> m) l m !! id).
Proof.
  induction l as [| x l IH]; intros m id Hid; [cbn in Hid; set_solver |].
  cbn [fold_left]. destruct (decide (id ∈ map ID l)) as [Hd | Hd]; [now apply IH |].
  rewrite fold_insert_other by exact Hd.
  cbn [map] in Hid. apply elem_of_cons in Hid as [-> | Hid]; [| contradiction].
  rewrite lookup_insert_eq. now eexists.
Qed.

Lemma stravaEventMap_has (events : list Event) e :
  In e events -> is_Some (stravaEventMap events !! ID e).
Proof.
  intros Hin. apply fold_insert_has, list_elem_of_In, in_map, Hin.
Qed.

Lemma stravaEventMap_unique (events : list Event) e :
  NoDup (map ID events) -> In e events -> stravaEventMap events !! ID e = Some e.
Proof.
  unfold stravaEventMap. generalize (∅ : gmap Z Event).
  induction events as [| x l IH]; intros m Hnd Hin; [destruct Hin |].
  cbn [map] in Hnd. apply NoDup_cons in Hnd as [Hx Hnd].
  cbn [fold_left]. destruct Hin as [-> | Hin].
  - rewrite fold_insert_other by exact Hx. apply lookup_insert_eq.
  - now apply IH.
Qed.

Lemma desiredEvent_found (desired : list Event) id e :
  Reference.desiredEvent desired id = Some e -> In e desired /\ ID e = id.
Proof.
  unfold Reference.desiredEvent. intros H. apply find_some in H as [H1 H2].
  split; [exact H1 | now apply Z.eqb_eq].
Qed.

(** With one event per id, the map the code builds is the lookup by id. *)
Lemma stravaEventMap_lookup (events : list Event) id :
  NoDup (map ID events) ->
  stravaEventMap events !! id = Reference.desiredEvent events id.
Proof.
  intros Hnd. destruct (Reference.desiredEvent events id) as [e |] eqn:E.
  - apply desiredEvent_found in E as [Hin <-]. now apply stravaEventMap_unique.
  - destruct (stravaEventMap events !! id) as [e |] eqn:E'; [| reflexivity].
    apply stravaEventMap_found in E' as [Hin Hid].
    unfold Reference.desiredEvent in E.
    pose proof (find_none _ _ E e Hin) as Hn. cbn in Hn.
    apply Z.eqb_neq in Hn. contradiction.
Qed.

(** *** The scan as a per-item function *)

(** The calls the loop makes for one existing item when the club id is set. *)
Definition itemCalls (env : Env) (m : gmap Z Event) (g : calendar.Event) : list Call :=
  match stravaIDOf g with
  | None => []
  | Some id =>
      match m !! id with
      | None => [EventsDelete (calendar.Id g)]
      | Some e =>
          if needsUpdate env (STRAVA_CLUB_ID env) g e
          then [EventsUpdate (calendar.Id g) (createGoogleCalendarEvent env e)]
          else []
      end
  end.

(** The mark the loop leaves for one existing item. *)
Definition itemMark (m : gmap Z Event) (p : gmap Z bool) (g : calendar.Event) : gmap Z bool :=
  match stravaIDOf g with
  | None => p
  | Some id => match m !! id with None => p | Some _ => <[id := true]> p end
  end.

Lemma getClubID_set (club : gostring) : club <> [] -> Strava.getClubID club = Ok club.
Proof. destruct club; [congruence | reflexivity]. Qed.

Lemma scanExisting_set (env : Env) (m : gmap Z Event) (items : list calendar.Event) :
  STRAVA_CLUB_ID env <> [] ->
  forall p, scanExisting env m items p
            = (flat_map (itemCalls env m) items, fold_left (itemMark m) items p, None).
Proof.
  intros Hclub. induction items as [| g items IH]; intros p; [reflexivity |].
  cbn [scanExisting flat_map fold_left]. unfold itemCalls at 1, itemMark at 2.
  destruct (stravaIDOf g) as [id |]; [| apply IH].
  destruct (m !! id) as [e |].
  - rewrite getClubID_set by exact Hclub. now rewrite IH.
  - now rewrite IH.
Qed.

Lemma isProcessed_marks (m : gmap Z Event) (items : list calendar.Event) id : forall p,
  isProcessed (fold_left (itemMark m) items p) id = true
  <-> isProcessed p id = true
      \/ exists g, In g items /\ stravaIDOf g = Some id /\ is_Some (m !! id).
Proof.
  induction items as [| g items IH]; intros p; cbn [fold_left].
  - split; [now left | intros [H | (g & [] & _)]; exact H].
  - rewrite IH. unfold itemMark at 1. split.
    + intros [H | (g' & Hin & Hid & Hm)]; [| right; exists g'; split; [now right | now split]].
      destruct (stravaIDOf g) as [id' |] eqn:E; [| now left].
      destruct (m !! id') as [e |] eqn:E'; [| now left].
      destruct (decide (id' = id)) as [-> | Hne].
      * right. exists g. split; [now left |]. split; [exact E | exact (mk_is_Some _ _ E')].
      * left. unfold isProcessed in *. now rewrite lookup_insert_ne in H.
    + intros [H | (g' & [-> | Hin] & Hid & Hm)].
      * left. destruct (stravaIDOf g) as [id' |]; [| exact H].
        destruct (m !! id') as [e |]; [| exact H].
        unfold isProcessed in *. destruct (decide (id' = id)) as [-> | Hne].
        -- now rewrite lookup_insert_eq.
        -- now rewrite lookup_insert_ne.
      * left. rewrite Hid. destruct Hm as [e ->].
        unfold isProcessed. now rewrite lookup_insert_eq.
      * right. now exists g'.
Qed.

Lemma isProcessed_empty id : isProcessed ∅ id = false.
Proof. unfold isProcessed. now rewrite lookup_empty. Qed.

(** With the club id set, a run is the per-item calls followed by the
    inserts, and returns no error. *)
Lemma syncStravaEvents_set (env : Env) (events : list Event) (existing : list calendar.Event) :
  STRAVA_CLUB_ID env <> [] ->
  syncStravaEvents env events (Ok existing)
  = (flat_map (itemCalls env (stravaEventMap events)) existing
     ++ createMissing env events (fold_left (itemMark (stravaEventMap events)) existing ∅),
     None).
Proof.
  intros Hclub. unfold syncStravaEvents. now rewrite scanExisting_set.
Qed.

(** *** Agreement with the reference definition *)

Lemma parseUintLoop_accepts_digits (s : gostring) : forall n v,
  Strconv.parseUintLoop s n = Ok v -> Forall (fun c => Strconv.isDigit c = true) s.
Proof.
  induction s as [| c s IH]; intros n v H; [constructor |].
  cbn [Strconv.parseUintLoop] in H.
  destruct (Strconv.isDigit c) eqn:Ec; cbn [negb] in H; [| discriminate].
  destruct (_ <=? n); [discriminate |].
  destruct (_ || _); [discriminate |].
  constructor; [exact Ec | exact (IH _ _ H)].
Qed.

Lemma ParseUint_digits (s : gostring) (v : Z) :
  Strconv.ParseUint s = Ok v -> s <> [] /\ Forall (fun c => Strconv.isDigit c = true) s.
Proof.
  destruct s as [| c s]; [discriminate |]. cbn [Strconv.ParseUint].
  intros H. split; [discriminate | exact (parseUintLoop_accepts_digits _ _ _ H)].
Qed.

Lemma SkipSpace_plus (r : gostring) : Fmt.SkipSpace ("+"%char :: r) = Ok ("+"%char :: r).
Proof. destruct r as [| c2 [| c3 r3]]; reflexivity. Qed.

(** The scan reads a decimal integer that [strconv.ParseInt] accepts, when
    text that starts with no digit follows it. *)
Lemma scanInt_ParseInt (pre rest : gostring) (id : Z) :
  Strconv.ParseInt pre = Ok id ->
  match rest with [] => False | c :: _ => Fmt.isNumberByte c = false end ->
  Fmt.scanInt (pre ++ rest) = Ok (id, rest).
Proof.
  intros Hparse Hrest.
  assert (match rest with [] => True | c :: _ => Fmt.isNumberByte c = false end) as Hrest'
    by (destruct rest; [exact I | assumption]).
  destruct pre as [| c body]; [discriminate |].
  pose proof Hparse as Hp. cbn [Strconv.ParseInt] in Hp.
  destruct (bool_decide (c = "+"%char) || bool_decide (c = "-"%char)) eqn:Esign.
  - destruct (Strconv.ParseUint body) as [un | e] eqn:Eu; [| discriminate].
    destruct (ParseUint_digits _ _ Eu) as [Hne Hd].
    destruct body as [| d ds]; [congruence |].
    inversion Hd as [| ? ? Hdd Hds]; subst.
    unfold Fmt.scanInt. cbn [app].
    assert (Fmt.SkipSpace (c :: d :: ds ++ rest) = Ok (c :: d :: ds ++ rest)) as ->.
    { apply orb_true_iff in Esign as [E | E]; apply bool_decide_eq_true in E; subst c.
      - apply SkipSpace_plus.
      - apply FmtFacts.SkipSpace_token. now right. }
    unfold Fmt.isSign. rewrite Esign. cbv iota.
    unfold Fmt.isNumberByte at 1. rewrite Hdd. cbn [negb].
    change (d :: ds ++ rest) with ((d :: ds) ++ rest).
    rewrite FmtFacts.acceptWhile_app by (auto using FmtFacts.digits_are_number_bytes).
    cbn [app]. now rewrite Hparse.
  - destruct (Strconv.ParseUint (c :: body)) as [un | e] eqn:Eu; [| discriminate].
    destruct (ParseUint_digits _ _ Eu) as [_ Hd].
    inversion Hd as [| ? ? Hdd Hds]; subst.
    unfold Fmt.scanInt. cbn [app].
    rewrite FmtFacts.SkipSpace_token by (now left).
    unfold Fmt.isSign. rewrite Esign. cbv iota.
    unfold Fmt.isNumberByte at 1. rewrite Hdd. cbn [negb].
    change (c :: body ++ rest) with ((c :: body) ++ rest).
    rewrite FmtFacts.acceptWhile_app by (auto using FmtFacts.digits_are_number_bytes).
    cbn [app]. now rewrite Hparse.
Qed.

(** An item that is managed by the expected format is read as the same id
    by the scan of the code. *)
Lemma managed_scanned (item : calendar.Event) (id : Z) :
  Reference.managed item = Some id -> stravaIDOf item = Some id.
Proof.
  unfold Reference.managed, Reference.parseCorrelation, stravaIDOf.
  set (tag := calendar.ICalUID item).
  set (n := (length tag - length Reference.domainSuffix)%nat).
  destruct (bool_decide _) eqn:Esuf; [| discriminate].
  apply bool_decide_eq_true in Esuf.
  destruct (Strconv.ParseInt (take n tag)) as [v | e] eqn:Eparse; [| discriminate].
  destruct (Z.eqb_spec v 0) as [| Hne]; [discriminate |]. intros [= ->].
  assert (tag = take n tag ++ uidSuffix) as Htag
    by (rewrite <- (take_drop n tag) at 1; now rewrite Esuf).
  assert (Fmt.Sscanf_d tag uidSuffix
          = {| Fmt.scanned_n := 1; Fmt.scanned_err := None; Fmt.scanned_v := id |}) as Hscan.
  { rewrite Htag. unfold Fmt.Sscanf_d.
    rewrite (scanInt_ParseInt _ _ _ Eparse) by reflexivity.
    rewrite <- (app_nil_r uidSuffix) at 2. now rewrite FmtFacts.advanceLiteral_app. }
  destruct tag as [| c tag'] eqn:Et.
  { destruct (take n []); discriminate. }
  rewrite Hscan. cbn [Fmt.scanned_err Fmt.scanned_n Fmt.scanned_v].
  rewrite bool_decide_eq_false_2 by (intros H; now apply H).
  destruct (Z.eqb_spec id 0); [contradiction | reflexivity].
Qed.

(** The record the code builds, read through the interface, is the record
    of the reference. *)
Lemma itemOf_created (env : Env) (e : Event) :
  STRAVA_CLUB_ID env <> [] ->
  Reference.itemOf (createGoogleCalendarEvent env e) = Reference.record env e.
Proof.
  intros Hclub. unfold createGoogleCalendarEvent.
  rewrite getClubID_set by exact Hclub. reflexivity.
Qed.

Lemma needsUpdate_differs (env : Env) (g : calendar.Event) (e : Event) :
  needsUpdate env (STRAVA_CLUB_ID env) g e = Reference.differs env g e.
Proof.
  unfold needsUpdate, Reference.differs, Reference.instant, parseOrZero,
    Reference.composedDescription, composeDescription.
  rewrite !orb_assoc.
  destruct (parseRFC3339 env (calendar.DateTime (calendar.Start g)));
    destruct (parseRFC3339 env (calendar.DateTime (calendar.End g))); reflexivity.
Qed.

Lemma flat_map_split {A B} (f g : A -> list B) (l : list A) :
  Permutation (flat_map (fun x => f x ++ g x) l) (flat_map f l ++ flat_map g l).
Proof.
  induction l as [| x l IH]; [constructor |].
  cbn [flat_map]. rewrite IH, <- !app_assoc.
  apply Permutation_app_head.
  rewrite !app_assoc. apply Permutation_app_tail, Permutation_app_comm.
Qed.

Lemma map_flat_map_calls {A B C} (f : B -> C) (g : A -> list B) (l : list A) :
  map f (flat_map g l) = flat_map (fun x => map f (g x)) l.
Proof.
  induction l as [| x l IH]; [reflexivity |].
  cbn [flat_map]. now rewrite map_app, IH.
Qed.

(** The scan reads the tags of a snapshot as the expected format does when
    it accepts no tag outside that format. *)
Definition exactTags (existing : list calendar.Event) : Prop :=
  Forall (fun item => Reference.managed item = None -> stravaIDOf item = None) existing.

Lemma exactTags_scan (existing : list calendar.Event) :
  exactTags existing ->
  Forall (fun item => stravaIDOf item = Reference.managed item) existing.
Proof.
  apply List.Forall_impl. intros item H.
  destruct (Reference.managed item) as [id |] eqn:E; [now apply managed_scanned | now apply H].
Qed.

Lemma scan_calls_reference (env : Env) (desired : list Event) (existing : list calendar.Event) :
  STRAVA_CLUB_ID env <> [] ->
  NoDup (map ID desired) ->
  exactTags existing ->
  Permutation (map Reference.ofCall (flat_map (itemCalls env (stravaEventMap desired)) existing))
              (Reference.deletes desired existing ++ Reference.updates env desired existing).
Proof.
  intros Hclub Hnd Hex%exactTags_scan. unfold Reference.deletes, Reference.updates.
  rewrite <- flat_map_split, map_flat_map_calls.
  induction Hex as [| g l Hg _ IH]; [constructor |].
  cbn [flat_map]. apply Permutation_app; [| exact IH].
  unfold itemCalls. rewrite Hg. destruct (Reference.managed g) as [id |]; [| constructor].
  rewrite stravaEventMap_lookup by exact Hnd.
  destruct (Reference.desiredEvent desired id) as [e |]; [| reflexivity].
  rewrite needsUpdate_differs. destruct (Reference.differs env g e); [| constructor].
  cbn [map Reference.ofCall app]. now rewrite itemOf_created.
Qed.

Lemma processedIDs_spec (desired : list Event) (existing : list calendar.Event) id :
  id ∈ Reference.processedIDs desired existing
  <-> exists g, In g existing /\ Reference.managed g = Some id
                /\ is_Some (Reference.desiredEvent desired id).
Proof.
  unfold Reference.processedIDs. rewrite list_elem_of_In, in_flat_map. split.
  - intros (g & Hin & H). exists g. split; [exact Hin |].
    destruct (Reference.managed g) as [id' |]; [| destruct H].
    destruct (Reference.desiredEvent desired id') as [e |] eqn:E; [| destruct H].
    destruct H as [-> | []]. split; [reflexivity | now rewrite E].
  - intros (g & Hin & Hid & [e He]). exists g. split; [exact Hin |].
    rewrite Hid, He. now left.
Qed.

Lemma createMissing_reference (env : Env) (desired : list Event) (existing : list calendar.Event) :
  STRAVA_CLUB_ID env <> [] ->
  NoDup (map ID desired) ->
  exactTags existing ->
  map Reference.ofCall
      (createMissing env desired (fold_left (itemMark (stravaEventMap desired)) existing ∅))
  = Reference.creates env desired existing.
Proof.
  intros Hclub Hnd Hex%exactTags_scan. rewrite List.Forall_forall in Hex.
  unfold createMissing, Reference.creates. rewrite map_flat_map_calls.
  apply flat_map_ext. intros e.
  destruct (isProcessed _ (ID e)) eqn:E; cbn [negb].
  - apply isProcessed_marks in E as [E | (g & Hin & Hid & Hm)];
      [now rewrite isProcessed_empty in E |].
    rewrite bool_decide_eq_true_2; [reflexivity |].
    apply processedIDs_spec. exists g. rewrite <- (Hex g Hin).
    now rewrite <- stravaEventMap_lookup.
  - rewrite bool_decide_eq_false_2.
    + cbn [map Reference.ofCall]. now rewrite itemOf_created.
    + intros (g & Hin & Hid & Hm)%processedIDs_spec.
      rewrite <- stravaEventMap_lookup in Hm by exact Hnd.
      rewrite <- (Hex g Hin) in Hid.
      assert (isProcessed (fold_left (itemMark (stravaEventMap desired)) existing ∅) (ID e) = true)
        as Ht by (apply isProcessed_marks; right; now exists g).
      congruence.
Qed.

End SyncFacts.

Module ApplyFacts.
Import GCal Service SyncFacts.

Section Apply.
Variable newId : list calendar.Event -> gostring.

Lemma delete_absent (id : gostring) (l : list calendar.Event) :
  id ∉ map calendar.Id l -> filter (fun it => calendar.Id it ≠ id) l = l.
Proof.
  induction l as [| x l IH]; intros H; [reflexivity |].
  cbn [map] in H. apply not_elem_of_cons in H as [Hx Hl].
  rewrite filter_cons_True by congruence. now rewrite IH.
Qed.

Lemma update_absent (id : gostring) (e : calendar.Event) (l : list calendar.Event) :
  id ∉ map calendar.Id l ->
  map (fun it => if bool_decide (calendar.Id it = id) then withId id e else it) l = l.
Proof.
  induction l as [| x l IH]; intros H; [reflexivity |].
  cbn [map] in H. apply not_elem_of_cons in H as [Hx Hl].
  cbn [map]. rewrite bool_decide_eq_false_2 by congruence. now rewrite IH.
Qed.

(** What the calls for one item leave of it. *)
Definition itemAfter (env : Env) (m : gmap Z Event) (g : calendar.Event) : list calendar.Event :=
  match stravaIDOf g with
  | None => [g]
  | Some id =>
      match m !! id with
      | None => []
      | Some e =>
          if needsUpdate env (STRAVA_CLUB_ID env) g e
          then [withId (calendar.Id g) (createGoogleCalendarEvent env e)]
          else [g]
      end
  end.

Lemma itemAfter_ids (env : Env) (m : gmap Z Event) (g x : calendar.Event) :
  In x (itemAfter env m g) -> calendar.Id x = calendar.Id g.
Proof.
  unfold itemAfter. destruct (stravaIDOf g); [| now intros [<- | []]].
  destruct (m !! _); [| intros []].
  destruct (needsUpdate _ _ _ _); now intros [<- | []].
Qed.

Lemma applyCalls_app (items : list calendar.Event) (a b : list Call) :
  applyCalls newId items (a ++ b) = applyCalls newId (applyCalls newId items a) b.
Proof. apply fold_left_app. Qed.

(** The calls for one item change that item alone, its opaque id being its
    own. *)
Lemma apply_item (env : Env) (m : gmap Z Event) (g : calendar.Event)
      (done todo : list calendar.Event) :
  calendar.Id g ∉ map calendar.Id done ->
  calendar.Id g ∉ map calendar.Id todo ->
  applyCalls newId (done ++ g :: todo) (itemCalls env m g)
  = done ++ itemAfter env m g ++ todo.
Proof.
  intros Hdone Htodo. unfold itemCalls, itemAfter.
  destruct (stravaIDOf g) as [id |]; [| reflexivity].
  destruct (m !! id) as [e |].
  - destruct (needsUpdate env (STRAVA_CLUB_ID env) g e); [| reflexivity].
    cbn [applyCalls fold_left applyCall app].
    rewrite map_app. cbn [map]. rewrite bool_decide_eq_true_2 by reflexivity.
    now rewrite !update_absent by assumption.
  - cbn [applyCalls fold_left applyCall app].
    rewrite filter_app, filter_cons_False by (intros H; now apply H).
    now rewrite !delete_absent by assumption.
Qed.

(** Applying the calls of the scan item by item: the items already passed
    ([done]), the items scanned ([todo]) and the items the scan does not
    reach ([rest]) keep apart because the opaque ids are distinct. *)
Lemma apply_scan (env : Env) (m : gmap Z Event) (todo rest : list calendar.Event) :
  forall done,
    NoDup (map calendar.Id (todo ++ rest)) ->
    (forall d, In d done -> calendar.Id d ∉ map calendar.Id todo) ->
    applyCalls newId (done ++ todo ++ rest) (flat_map (itemCalls env m) todo)
    = done ++ flat_map (itemAfter env m) todo ++ rest.
Proof.
  induction todo as [| g todo IH]; intros done Hnd Hdone; [reflexivity |].
  cbn [map app] in Hnd. apply NoDup_cons in Hnd as [Hg Hnd].
  assert (calendar.Id g ∉ map calendar.Id done) as Hgd.
  { intros (d & Hd & Hin)%list_elem_of_In%in_map_iff.
    apply (Hdone d Hin). rewrite Hd. cbn [map]. apply elem_of_cons. now left. }
  cbn [flat_map app]. rewrite applyCalls_app, apply_item by assumption.
  rewrite app_assoc, IH, <- !app_assoc; [reflexivity | exact Hnd |].
  intros d [Hin | Hin]%in_app_iff.
  - intros H. apply (Hdone d Hin). cbn [map]. apply elem_of_cons. now right.
  - rewrite (itemAfter_ids _ _ _ _ Hin). intros H. apply Hg.
    rewrite map_app. apply elem_of_app. now left.
Qed.

Lemma apply_scan_all (env : Env) (m : gmap Z Event) (existing : list calendar.Event) :
  NoDup (map calendar.Id existing) ->
  applyCalls newId existing (flat_map (itemCalls env m) existing)
  = flat_map (itemAfter env m) existing.
Proof.
  intros Hnd.
  pose proof (apply_scan env m existing [] []) as H.
  rewrite !app_nil_r in H. apply H; [exact Hnd | intros ? []].
Qed.

(** Inserts only add items, each the record of one of the inserts, and
    every inserted record's correlation identifier ends up in the calendar
    (added now, or held already). *)
Lemma apply_inserts (records : list calendar.Event) : forall items,
  let after := applyCalls newId items (map EventsInsert records) in
  (forall x, In x after ->
     In x items \/ exists id r, In r records /\ x = withId id r)
  /\ (forall x, In x items -> In x after)
  /\ (forall r, In r records ->
        exists x, In x after /\ calendar.ICalUID x = calendar.ICalUID r).
Proof.
  induction records as [| r records IH]; intros items; cbv zeta.
  - cbn. repeat split; [now left | tauto | intros r []].
  - cbn [map applyCalls fold_left]. fold (applyCalls newId).
    specialize (IH (applyCall newId items (EventsInsert r))). cbv zeta in IH.
    destruct IH as (IH1 & IH2 & IH3).
    set (after := applyCalls newId _ _) in *.
    assert (forall x, In x items -> In x (applyCall newId items (EventsInsert r))) as Hkeep.
    { intros x Hx. cbn [applyCall]. destruct (existsb _ items); [exact Hx |].
      apply in_app_iff. now left. }
    assert (exists x, In x (applyCall newId items (EventsInsert r))
                      /\ calendar.ICalUID x = calendar.ICalUID r) as Hr.
    { cbn [applyCall]. destruct (existsb _ items) eqn:E.
      - apply existsb_exists in E as (x & Hx & Hu). exists x.
        split; [exact Hx | now apply bool_decide_eq_true in Hu].
      - exists (withId (newId items) r). split; [| reflexivity].
        apply in_app_iff. right. now left. }
    split; [| split].
    + intros x Hx. apply IH1 in Hx as [Hx | (id & r' & Hr' & ->)].
      * cbn [applyCall] in Hx. destruct (existsb _ items); [now left |].
        apply in_app_iff in Hx as [Hx | [<- | []]]; [now left |].
        right. exists (newId items), r. split; [now left | reflexivity].
      * right. exists id, r'. split; [now right | reflexivity].
    + intros x Hx. apply IH2, Hkeep, Hx.
    + intros r' [<- | Hr'].
      * destruct Hr as (x & Hx & Hu). exists x. split; [now apply IH2 | exact Hu].
      * now apply IH3.
Qed.

End Apply.

End ApplyFacts.

Module IdempotenceFacts.
Import GCal Service SyncFacts ApplyFacts.

(** A desired event the reconciler can recognise again: its id is a
    non-zero 64-bit integer, and the RFC 3339 texts written for its start
    and end read back as the same instants. *)
Definition recognisable (env : Env) (e : Event) : Prop :=
  ID e <> 0
  /\ - 2 ^ 63 <= ID e < 2 ^ 63
  /\ GoTime.Equal (parseOrZero env (formatLondon env (Start e))) (Start e) = true
  /\ GoTime.Equal (parseOrZero env (formatLondon env (End e))) (End e) = true.

(** An item the scan leaves alone and that asks for no call. *)
Definition settled (env : Env) (m : gmap Z Event) (g : calendar.Event) : Prop :=
  match stravaIDOf g with
  | None => True
  | Some id => exists e, m !! id = Some e /\ needsUpdate env (STRAVA_CLUB_ID env) g e = false
  end.

Lemma settled_no_calls (env : Env) (m : gmap Z Event) (g : calendar.Event) :
  settled env m g -> itemCalls env m g = [].
Proof.
  unfold settled, itemCalls. destruct (stravaIDOf g); [| reflexivity].
  now intros (e & -> & ->).
Qed.

Lemma stravaIDOf_uid (x y : calendar.Event) :
  calendar.ICalUID x = calendar.ICalUID y -> stravaIDOf x = stravaIDOf y.
Proof. unfold stravaIDOf. now intros ->. Qed.

Lemma formatUID_nonempty (id : Z) : formatUID id <> [].
Proof.
  unfold formatUID, Fmt.Sprintf_d. destruct (Strconv.FormatInt id); discriminate.
Qed.

Lemma stravaIDOf_formatUID (g : calendar.Event) (id : Z) :
  id <> 0 -> - 2 ^ 63 <= id < 2 ^ 63 ->
  calendar.ICalUID g = formatUID id -> stravaIDOf g = Some id.
Proof.
  intros Hz Hr Hu. unfold stravaIDOf. rewrite Hu.
  pose proof (formatUID_nonempty id) as Hne.
  destruct (formatUID id) as [| c uid] eqn:E; [congruence |].
  rewrite <- E, FmtFacts.Sscanf_formatUID by exact Hr.
  cbn [Fmt.scanned_err Fmt.scanned_n Fmt.scanned_v].
  rewrite bool_decide_eq_false_2 by (intros H; now apply H).
  destruct (Z.eqb_spec id 0); [contradiction | reflexivity].
Qed.

Lemma Equal_refl (t : GoTime.Time) : GoTime.Equal t t = true.
Proof. unfold GoTime.Equal. now rewrite !Z.eqb_refl. Qed.

(** The record written for a desired event is settled under any opaque id. *)
Lemma created_settled (env : Env) (m : gmap Z Event) (e : Event) (id : gostring) :
  STRAVA_CLUB_ID env <> [] -> recognisable env e -> m !! ID e = Some e ->
  stravaIDOf (withId id (createGoogleCalendarEvent env e)) = Some (ID e)
  /\ settled env m (withId id (createGoogleCalendarEvent env e)).
Proof.
  intros Hclub (Hz & Hr & Hs & He) Hm.
  assert (stravaIDOf (withId id (createGoogleCalendarEvent env e)) = Some (ID e)) as Hid
    by (now apply stravaIDOf_formatUID).
  split; [exact Hid |]. unfold settled. rewrite Hid. exists e. split; [exact Hm |].
  unfold needsUpdate, createGoogleCalendarEvent, withId.
  cbn [calendar.Summary calendar.Start calendar.End calendar.DateTime calendar.Description].
  rewrite getClubID_set by exact Hclub. rewrite Hs, He.
  rewrite !bool_decide_eq_false_2 by (intros H; now apply H). reflexivity.
Qed.

Lemma all_settled_no_calls (env : Env) (m : gmap Z Event) (items : list calendar.Event) :
  (forall g, In g items -> settled env m g) -> flat_map (itemCalls env m) items = [].
Proof.
  induction items as [| g items IH]; intros H; [reflexivity |].
  cbn [flat_map]. rewrite settled_no_calls by (apply H; now left).
  apply IH. intros g' Hg'. apply H. now right.
Qed.

Lemma all_processed_no_creates (env : Env) (events : list Event) (p : gmap Z bool) :
  (forall e, In e events -> isProcessed p (ID e) = true) -> createMissing env events p = [].
Proof.
  unfold createMissing. induction events as [| e events IH]; intros H; [reflexivity |].
  cbn [flat_map]. rewrite (H e) by now left. cbn [negb app].
  apply IH. intros e' He'. apply H. now right.
Qed.

(** A calendar whose items are all settled and which holds an item for
    every desired event gives the next run nothing to do. *)
Lemma settled_calendar_no_calls (env : Env) (events : list Event) (items : list calendar.Event) :
  STRAVA_CLUB_ID env <> [] ->
  (forall g, In g items -> settled env (stravaEventMap events) g) ->
  (forall e, In e events -> exists g, In g items /\ stravaIDOf g = Some (ID e)) ->
  syncStravaEvents env events (Ok items) = ([], None).
Proof.
  intros Hclub Hsettled Hcover. rewrite syncStravaEvents_set by exact Hclub.
  rewrite all_settled_no_calls by exact Hsettled.
  rewrite all_processed_no_creates; [reflexivity |].
  intros e He. apply isProcessed_marks. right.
  destruct (Hcover e He) as (g & Hg & Hid). exists g.
  split; [exact Hg |]. split; [exact Hid | now apply stravaEventMap_has].
Qed.

Lemma createMissing_inserts (env : Env) (events : list Event) (p : gmap Z bool) :
  createMissing env events p
  = map EventsInsert
        (map (createGoogleCalendarEvent env)
             (List.filter (fun e => negb (isProcessed p (ID e))) events)).
Proof.
  unfold createMissing. induction events as [| e events IH]; [reflexivity |].
  cbn [flat_map List.filter]. destruct (negb _); cbn [map app]; now rewrite IH.
Qed.

(** What remains of an existing item after the first run is settled. *)
Lemma itemAfter_settled (env : Env) (events : list Event) (g x : calendar.Event) :
  STRAVA_CLUB_ID env <> [] -> Forall (recognisable env) events ->
  In x (itemAfter env (stravaEventMap events) g) ->
  settled env (stravaEventMap events) x
  /\ (forall id, stravaIDOf g = Some id -> stravaIDOf x = Some id).
Proof.
  intros Hclub Hrec. unfold itemAfter.
  destruct (stravaIDOf g) as [id |] eqn:Eid.
  2: { intros [<- | []]. split; [| discriminate]. unfold settled. now rewrite Eid. }
  destruct (stravaEventMap events !! id) as [e |] eqn:Em; [| intros []].
  destruct (needsUpdate env (STRAVA_CLUB_ID env) g e) eqn:Eu; intros [<- | []].
  - apply stravaEventMap_found in Em as Hfound. destruct Hfound as [Hin <-].
    rewrite List.Forall_forall in Hrec.
    destruct (created_settled env (stravaEventMap events) e (calendar.Id g) Hclub
                (Hrec e Hin) Em) as [Hid Hs].
    split; [exact Hs |]. now intros ? [= <-].
  - split; [| now intros ? [= <-]]. unfold settled. rewrite Eid. now exists e.
Qed.

(** With the club id set: the second run makes no call and returns no
    error. *)
Lemma idempotent_club_set (env : Env) (newId : list calendar.Event -> gostring)
      (desired : list Event) (existing : list calendar.Event) :
  STRAVA_CLUB_ID env <> [] ->
  NoDup (map ID desired) ->
  Forall (recognisable env) desired ->
  NoDup (map calendar.Id existing) ->
  syncStravaEvents env desired
    (Ok (applyCalls newId existing (syncStravaEvents env desired (Ok existing)).1))
  = ([], None).
Proof.
  intros Hclub Hnd Hrec Hids.
  rewrite (syncStravaEvents_set env desired existing) by exact Hclub.
  cbn [fst]. rewrite applyCalls_app.
  rewrite apply_scan_all by exact Hids.
  rewrite createMissing_inserts.
  set (m := stravaEventMap desired).
  set (p := fold_left (itemMark m) existing ∅).
  set (records := map _ (List.filter _ desired)).
  destruct (apply_inserts newId records
              (flat_map (itemAfter env m) existing)) as (Hnew & Hkeep & Huid).
  set (after := applyCalls newId _ _) in *.
  assert (forall r, In r records ->
            exists e, In e desired /\ isProcessed p (ID e) = false
                      /\ r = createGoogleCalendarEvent env e) as Hrecords.
  { intros r (e & <- & He)%in_map_iff. apply filter_In in He as [He Hp].
    exists e. split; [exact He |]. split; [now apply negb_true_iff | reflexivity]. }
  pose proof Hrec as Hall. rewrite List.Forall_forall in Hall.
  apply settled_calendar_no_calls; [exact Hclub | |].
  - intros x Hx. apply Hnew in Hx as [Hx | (id & r & Hr & ->)].
    + apply in_flat_map in Hx as (g & Hg & Hx).
      now apply (itemAfter_settled env desired g x).
    + apply Hrecords in Hr as (e & He & _ & ->).
      apply created_settled; auto.
      now apply stravaEventMap_unique.
  - intros e He. destruct (isProcessed p (ID e)) eqn:Ep.
    + apply isProcessed_marks in Ep as [Ep | (g & Hg & Hid & _)];
        [now rewrite isProcessed_empty in Ep |].
      pose proof (stravaEventMap_has desired e He) as [e' He'].
      fold m in He'.
      assert (exists x, In x (itemAfter env m g)) as [x Hx].
      { unfold itemAfter. rewrite Hid, He'.
        destruct (needsUpdate _ _ _ _); eexists; now left. }
      exists x. split.
      * apply Hkeep, in_flat_map. now exists g.
      * now apply (itemAfter_settled env desired g x).
    + destruct (Huid (createGoogleCalendarEvent env e)) as (x & Hx & Hu).
      { apply in_map, filter_In. split; [exact He | now rewrite Ep]. }
      exists x. split; [exact Hx |].
      destruct (Hall e He) as (Hz & Hr & _).
      now apply stravaIDOf_formatUID.
Qed.


(** **** Without the club id

    The scan returns at the first existing item that matches a desired
    event; until then it only skips and deletes. *)

Definition matched (m : gmap Z Event) (g : calendar.Event) : bool :=
  match stravaIDOf g with
  | Some id => bool_decide (is_Some (m !! id))
  | None => false
  end.

Lemma getClubID_unset (club : gostring) :
  club = [] -> Strava.getClubID club = Err Strava.ClubIDNotSet.
Proof. now intros ->. Qed.

(** Over items that match nothing the scan needs no club id. *)
Lemma scan_unmatched (env : Env) (m : gmap Z Event) (pre rest : list calendar.Event) :
  Forall (fun g => matched m g = false) pre ->
  forall p,
    scanExisting env m (pre ++ rest) p
    = (flat_map (itemCalls env m) pre ++ (scanExisting env m rest p).1.1,
       (scanExisting env m rest p).1.2, (scanExisting env m rest p).2).
Proof.
  induction 1 as [| g pre Hg _ IH]; intros p; cbn [app flat_map scanExisting].
  - now destruct (scanExisting env m rest p) as [[? ?] ?].
  - unfold matched in Hg. unfold itemCalls at 1.
    destruct (stravaIDOf g) as [id |]; [| apply IH].
    destruct (m !! id) as [e |] eqn:E.
    + rewrite bool_decide_eq_true_2 in Hg by now eexists. discriminate.
    + now rewrite IH.
Qed.

Lemma scan_matched_unset (env : Env) (m : gmap Z Event) (x : calendar.Event)
      (post : list calendar.Event) (p : gmap Z bool) :
  STRAVA_CLUB_ID env = [] -> matched m x = true ->
  (scanExisting env m (x :: post) p).1.1 = []
  /\ (scanExisting env m (x :: post) p).2 <> None.
Proof.
  intros Hclub Hx. unfold matched in Hx. cbn [scanExisting].
  destruct (stravaIDOf x) as [id |]; [| discriminate].
  apply bool_decide_eq_true in Hx as [e ->].
  rewrite getClubID_unset by exact Hclub. now split.
Qed.

Lemma first_matched (m : gmap Z Event) (items : list calendar.Event) :
  Forall (fun g => matched m g = false) items
  \/ exists pre x post,
       items = pre ++ x :: post
       /\ Forall (fun g => matched m g = false) pre /\ matched m x = true.
Proof.
  induction items as [| g items IH]; [left; constructor |].
  destruct (matched m g) eqn:E.
  - right. exists [], g, items. repeat split; [constructor | exact E].
  - destruct IH as [IH | (pre & x & post & -> & Hpre & Hx)].
    + left. now constructor.
    + right. exists (g :: pre), x, post. repeat split; [now constructor | exact Hx].
Qed.

(** What the first run leaves of items that match nothing is not managed. *)
Lemma unmatched_after (env : Env) (m : gmap Z Event) (pre : list calendar.Event) :
  Forall (fun g => matched m g = false) pre ->
  Forall (fun g => stravaIDOf g = None) (flat_map (itemAfter env m) pre).
Proof.
  induction 1 as [| g pre Hg _ IH]; [constructor |].
  cbn [flat_map]. apply Forall_app. split; [| exact IH].
  unfold matched in Hg. unfold itemAfter.
  destruct (stravaIDOf g) as [id |] eqn:E; [| now repeat constructor].
  destruct (m !! id) as [e |]; [| constructor].
  rewrite bool_decide_eq_true_2 in Hg by now eexists. discriminate.
Qed.

Lemma unmanaged_no_calls (env : Env) (m : gmap Z Event) (items : list calendar.Event) :
  Forall (fun g => stravaIDOf g = None) items ->
  flat_map (itemCalls env m) items = []
  /\ Forall (fun g => matched m g = false) items.
Proof.
  induction 1 as [| g items Hg _ [IH1 IH2]]; [now split |].
  cbn [flat_map]. unfold itemCalls at 1, matched at 1. rewrite Hg.
  split; [exact IH1 | constructor; [now unfold matched; rewrite Hg | exact IH2]].
Qed.

(** Without the club id, a calendar that starts with unmanaged items and
    then holds a matching one gives the run no call to make. *)
Lemma unset_abort_no_calls (env : Env) (events : list Event)
      (pre post : list calendar.Event) (x : calendar.Event) :
  STRAVA_CLUB_ID env = [] ->
  Forall (fun g => stravaIDOf g = None) pre ->
  matched (stravaEventMap events) x = true ->
  (syncStravaEvents env events (Ok (pre ++ x :: post))).1 = [].
Proof.
  intros Hclub Hpre Hx. unfold syncStravaEvents.
  destruct (unmanaged_no_calls env (stravaEventMap events) pre Hpre) as [Hcalls Hun].
  rewrite scan_unmatched by exact Hun. rewrite Hcalls.
  destruct (scan_matched_unset env (stravaEventMap events) x post ∅ Hclub Hx) as [H1 H2].
  rewrite H1. cbn [app].
  destruct ((scanExisting env (stravaEventMap events) (x :: post) ∅).2); [reflexivity | congruence].
Qed.

Lemma created_matched (env : Env) (events : list Event) (e : Event) (x : calendar.Event) :
  recognisable env e -> In e events ->
  calendar.ICalUID x = formatUID (ID e) ->
  matched (stravaEventMap events) x = true.
Proof.
  intros (Hz & Hr & _) Hin Hu. unfold matched.
  rewrite (stravaIDOf_formatUID x (ID e)) by assumption.
  apply bool_decide_eq_true_2. now apply stravaEventMap_has.
Qed.

(** Without the club id: the second run makes no call. *)
Lemma idempotent_club_unset (env : Env) (newId : list calendar.Event -> gostring)
      (desired : list Event) (existing : list calendar.Event) :
  STRAVA_CLUB_ID env = [] ->
  Forall (recognisable env) desired ->
  NoDup (map calendar.Id existing) ->
  (syncStravaEvents env desired
     (Ok (applyCalls newId existing (syncStravaEvents env desired (Ok existing)).1))).1
  = [].
Proof.
  intros Hclub Hrec Hids.
  pose proof Hrec as Hall. rewrite List.Forall_forall in Hall.
  set (m := stravaEventMap desired).
  destruct (first_matched m existing) as [Hnone | (pre & x & post & -> & Hpre & Hx)].
  - (* nothing matches: every managed item is deleted, every event inserted *)
    assert ((syncStravaEvents env desired (Ok existing)).1
            = flat_map (itemCalls env m) existing ++ createMissing env desired ∅) as ->.
    { unfold syncStravaEvents. fold m.
      rewrite <- (app_nil_r existing) at 1. rewrite scan_unmatched by exact Hnone.
      cbn [scanExisting fst snd]. now rewrite app_nil_r. }
    rewrite applyCalls_app, apply_scan_all by exact Hids.
    rewrite createMissing_inserts.
    pose proof (unmatched_after env m existing Hnone) as Hleft.
    set (left := flat_map (itemAfter env m) existing) in *.
    set (records := map _ (List.filter _ desired)).
    destruct (apply_inserts newId records left) as (Hnew & Hkeep & Huid).
    set (after := applyCalls newId _ _) in *.
    assert (forall x, In x after -> stravaIDOf x = None \/ matched m x = true) as Hkinds.
    { intros x Hx. apply Hnew in Hx as [Hx | (id & r & Hr & ->)].
      - left. rewrite List.Forall_forall in Hleft. now apply Hleft.
      - right. apply in_map_iff in Hr as (e & <- & He). apply filter_In in He as [He _].
        apply (created_matched env desired e); [now apply Hall | exact He | reflexivity]. }
    assert (desired = [] \/ exists e, In e desired) as [Hempty | [e He]]
      by (destruct desired as [| e ?]; [now left | right; exists e; now left]).
    + (* nothing desired *)
      assert (after = left) as -> by (unfold after, records; now rewrite Hempty).
      unfold syncStravaEvents. fold m.
      destruct (unmanaged_no_calls env m left Hleft) as [Hcalls Hun].
      rewrite <- (app_nil_r left). rewrite scan_unmatched by exact Hun.
      rewrite Hcalls, Hempty. reflexivity.
    + destruct (Huid (createGoogleCalendarEvent env e)) as (x & Hx & Hu).
      { apply in_map, filter_In. split; [exact He |].
        now rewrite isProcessed_empty. }
      assert (matched m x = true) as Hmx
        by (apply (created_matched env desired e); [now apply Hall | exact He | exact Hu]).
      destruct (first_matched m after) as [Hnone' | (pre & y & post & Eafter & Hpre & Hy)].
      * rewrite List.Forall_forall in Hnone'. rewrite (Hnone' x Hx) in Hmx. discriminate.
      * rewrite Eafter. apply unset_abort_no_calls; [exact Hclub | | exact Hy].
        rewrite List.Forall_forall in Hpre |- *. intros g Hg.
        destruct (Hkinds g) as [H | H]; [rewrite Eafter; apply in_app_iff; now left | exact H |].
        rewrite (Hpre g Hg) in H. discriminate.
  - (* the scan returns at x *)
    assert ((syncStravaEvents env desired (Ok (pre ++ x :: post))).1
            = flat_map (itemCalls env m) pre) as ->.
    { unfold syncStravaEvents. fold m. rewrite scan_unmatched by exact Hpre.
      destruct (scan_matched_unset env m x post ∅ Hclub Hx) as [H1 H2].
      rewrite H1, app_nil_r.
      destruct ((scanExisting env m (x :: post) ∅).2); [reflexivity | congruence]. }
    pose proof (apply_scan newId env m pre (x :: post) [] Hids
                  (fun _ H => match H with end)) as Happly.
    cbn [app] in Happly. rewrite Happly.
    apply unset_abort_no_calls; [exact Hclub | | exact Hx].
    now apply unmatched_after.
Qed.

End IdempotenceFacts.

Module TargetFacts.
Import GCal SyncFacts.

(** The opaque id a call is aimed at; an insert is aimed at none. *)
Definition target (c : Call) : option gostring :=
  match c with
  | EventsDelete id => Some id
  | EventsUpdate id _ => Some id
  | EventsInsert _ => None
  end.

(** Every delete and update of the scan is aimed at an item whose
    correlation identifier the scan accepted. *)
Lemma scan_targets (env : Env) (m : gmap Z Event) (items : list calendar.Event) :
  forall p c id,
    In c (scanExisting env m items p).1.1 -> target c = Some id ->
    exists g, In g items /\ stravaIDOf g <> None /\ calendar.Id g = id.
Proof.
  induction items as [| g items IH]; intros p c id; cbn [scanExisting]; [intros [] |].
  destruct (stravaIDOf g) as [sid |] eqn:Eid.
  2: { intros Hc Ht. destruct (IH _ _ _ Hc Ht) as (x & Hx & H). exists x. split; [now right | exact H]. }
  assert (stravaIDOf g <> None) as Hg by (rewrite Eid; discriminate).
  destruct (m !! sid) as [e |].
  - destruct (Strava.getClubID (STRAVA_CLUB_ID env)) as [club | err]; [| intros []].
    destruct (scanExisting env m items (<[sid:=true]> p)) as [[calls p'] err] eqn:Es.
    cbn [fst]. intros Hc Ht. apply in_app_iff in Hc as [Hc | Hc].
    + destruct (needsUpdate env club g e); [| destruct Hc].
      destruct Hc as [<- | []]. injection Ht as <-. exists g. split; [now left | now split].
    + specialize (IH (<[sid:=true]> p) c id). rewrite Es in IH.
      destruct (IH Hc Ht) as (x & Hx & H). exists x. split; [now right | exact H].
  - destruct (scanExisting env m items p) as [[calls p'] err] eqn:Es.
    cbn [fst]. intros [<- | Hc] Ht.
    + injection Ht as <-. exists g. split; [now left | now split].
    + specialize (IH p c id). rewrite Es in IH.
      destruct (IH Hc Ht) as (x & Hx & H). exists x. split; [now right | exact H].
Qed.

Lemma createMissing_targets (env : Env) (events : list Event) (p : gmap Z bool) c :
  In c (createMissing env events p) -> target c = None.
Proof.
  unfold createMissing. intros (e & _ & Hc)%in_flat_map.
  destruct (negb _); [| destruct Hc]. now destruct Hc as [<- | []].
Qed.

(** An item whose correlation identifier the scan rejects is the target of
    no delete and no update, whatever is desired, as long as opaque ids are
    distinct. *)
Lemma rejected_item_untouched (env : Env) (events : list Event)
      (existing : list calendar.Event) (g : calendar.Event) :
  NoDup (map calendar.Id existing) -> In g existing -> stravaIDOf g = None ->
  forall c, In c (syncStravaEvents env events (Ok existing)).1 ->
            target c <> Some (calendar.Id g).
Proof.
  intros Hnd Hg Hrej c Hc Ht. unfold syncStravaEvents in Hc.
  pose proof (scan_targets env (stravaEventMap events) existing ∅ c (calendar.Id g)) as Hscan.
  destruct (scanExisting env (stravaEventMap events) existing ∅) as [[calls p] err].
  cbn [fst] in Hscan.
  assert (In c calls) as Hin.
  { destruct err; cbn [fst] in Hc; [exact Hc |].
    apply in_app_iff in Hc as [Hc | Hc]; [exact Hc |].
    apply createMissing_targets in Hc. congruence. }
  destruct (Hscan Hin Ht) as (x & Hx & Hacc & Hid).
  assert (x = g) as ->; [| contradiction].
  clear - Hnd Hx Hg Hid. induction existing as [| y l IH]; [destruct Hx |].
  cbn [map] in Hnd. apply NoDup_cons in Hnd as [Hy Hnd].
  assert (forall z, In z l -> calendar.Id z ∈ map calendar.Id l) as Hmem
    by (intros z Hz; apply list_elem_of_In, in_map, Hz).
  destruct Hx as [-> | Hx], Hg as [-> | Hg]; [reflexivity | | | now apply IH].
  - exfalso. apply Hy. rewrite Hid. now apply Hmem.
  - exfalso. apply Hy. rewrite <- Hid. now apply Hmem.
Qed.

Lemma formatUID_suffix (id : Z) (uid : gostring) :
  formatUID id = uid -> drop (length uid - 11) uid = uidSuffix.
Proof.
  intros <-. unfold formatUID, Fmt.Sprintf_d.
  rewrite length_app. change (length uidSuffix) with 11%nat.
  rewrite Nat.add_sub. apply drop_app_length.
Qed.

End TargetFacts.

(** ** The reconciler: the shape of a run *)

Module ShapeFacts.
Import GCal SyncFacts TargetFacts.

(** The calls of the scan: at most one for each item, each aimed at an item
    of the list, none of them an insert. *)
Lemma scan_shape (env : Env) (m : gmap Z Event) (items : list calendar.Event) :
  forall p,
    (length (scanExisting env m items p).1.1 <= length items)%nat
    /\ Forall (fun c => exists g, In g items /\ target c = Some (calendar.Id g))
              (scanExisting env m items p).1.1.
Proof.
  induction items as [| g items IH]; intros p; cbn [scanExisting].
  - split; [reflexivity | constructor].
  - assert (forall l : list Call,
              Forall (fun c => exists x, In x items /\ target c = Some (calendar.Id x)) l ->
              Forall (fun c => exists x, In x (g :: items) /\ target c = Some (calendar.Id x)) l)
      as Hweak.
    { intros l. apply List.Forall_impl. intros c (x & Hx & Hc). exists x. split; [now right | exact Hc]. }
    destruct (stravaIDOf g) as [id |].
    2: { destruct (IH p) as [H1 H2]. split; [cbn [length]; lia | now apply Hweak]. }
    destruct (m !! id) as [e |].
    + destruct (Strava.getClubID (STRAVA_CLUB_ID env)) as [club | err].
      2: { split; [cbn; lia | constructor]. }
      destruct (IH (<[id:=true]> p)) as [H1 H2].
      destruct (scanExisting env m items (<[id:=true]> p)) as [[calls p'] err].
      cbn [fst] in *. destruct (needsUpdate env club g e); cbn [app length].
      * split; [lia |]. constructor; [| now apply Hweak].
        exists g. split; [now left | reflexivity].
      * split; [lia | now apply Hweak].
    + destruct (IH p) as [H1 H2].
      destruct (scanExisting env m items p) as [[calls p'] err].
      cbn [fst length] in *. split; [lia |]. constructor; [| now apply Hweak].
      exists g. split; [now left | reflexivity].
Qed.

Lemma createMissing_shape (env : Env) (events : list Event) (p : gmap Z bool) :
  (length (createMissing env events p) <= length events)%nat
  /\ Forall (fun c => exists e, In e events /\ c = EventsInsert (createGoogleCalendarEvent env e))
            (createMissing env events p).
Proof.
  unfold createMissing. induction events as [| e events [IH1 IH2]]; [split; [reflexivity | constructor] |].
  cbn [flat_map].
  assert (Forall (fun c => exists x, In x (e :: events)
                                     /\ c = EventsInsert (createGoogleCalendarEvent env x))
                 (flat_map (fun stravaEvent =>
                              if negb (isProcessed p (ID stravaEvent))
                              then [EventsInsert (createGoogleCalendarEvent env stravaEvent)]
                              else []) events)) as Hweak.
  { revert IH2. apply List.Forall_impl. intros c (x & Hx & Hc). exists x. split; [now right | exact Hc]. }
  destruct (negb _); cbn [app length].
  - split; [lia |]. constructor; [| exact Hweak]. exists e. split; [now left | reflexivity].
  - split; [lia | exact Hweak].
Qed.

(** What the scan does for one item: nothing, a delete of that item, or
    an update of that item with the record composed for a desired event. *)
Definition itemStep (env : Env) (events : list Event) (g : calendar.Event)
           (cs : list Call) : Prop :=
  cs = [] \/ cs = [EventsDelete (calendar.Id g)]
  \/ exists e, In e events
               /\ cs = [EventsUpdate (calendar.Id g) (createGoogleCalendarEvent env e)].

(** The calls of the scan, item by item: the scan goes through a prefix of
    the items (all of them unless it stops with an error) and makes one
    step for each. *)
Lemma scan_per_item (env : Env) (events : list Event) (items : list calendar.Event) :
  forall p, exists scanned unscanned perItem,
    items = scanned ++ unscanned
    /\ Forall2 (itemStep env events) scanned perItem
    /\ (scanExisting env (stravaEventMap events) items p).1.1 = concat perItem.
Proof.
  induction items as [| g items IH]; intros p; cbn [scanExisting].
  - exists [], [], []. repeat split. constructor.
  - destruct (stravaIDOf g) as [id |].
    2: { destruct (IH p) as (sc & un & per & -> & Hper & Hcalls).
         exists (g :: sc), un, ([] :: per). split; [reflexivity |].
         split; [constructor; [now left | exact Hper] | exact Hcalls]. }
    destruct (stravaEventMap events !! id) as [e |] eqn:Em.
    + destruct (Strava.getClubID (STRAVA_CLUB_ID env)) as [club | err].
      2: { exists [], (g :: items), []. repeat split. constructor. }
      destruct (IH (<[id:=true]> p)) as (sc & un & per & -> & Hper & Hcalls).
      destruct (scanExisting env (stravaEventMap events) (sc ++ un) (<[id:=true]> p))
        as [[calls p'] err].
      cbn [fst] in *. subst calls.
      exists (g :: sc), un,
        ((if needsUpdate env club g e
          then [EventsUpdate (calendar.Id g) (createGoogleCalendarEvent env e)]
          else []) :: per).
      split; [reflexivity |]. split; [| reflexivity].
      constructor; [| exact Hper].
      destruct (needsUpdate env club g e); [| now left].
      right. right. exists e. split; [| reflexivity].
      now apply stravaEventMap_found in Em.
    + destruct (IH p) as (sc & un & per & -> & Hper & Hcalls).
      destruct (scanExisting env (stravaEventMap events) (sc ++ un) p) as [[calls p'] err].
      cbn [fst] in *. subst calls.
      exists (g :: sc), un, ([EventsDelete (calendar.Id g)] :: per).
      split; [reflexivity |]. split; [| reflexivity].
      constructor; [right; now left | exact Hper].
Qed.

(** The inserts: one for each desired event that is not marked processed,
    in the order of the desired list. *)
Lemma createMissing_filter (env : Env) (events : list Event) (p : gmap Z bool) :
  createMissing env events p
  = map (fun e => EventsInsert (createGoogleCalendarEvent env e))
        (List.filter (fun e => negb (isProcessed p (ID e))) events).
Proof.
  unfold createMissing. induction events as [| e events IH]; [reflexivity |].
  cbn [flat_map List.filter]. rewrite IH. now destruct (negb _).
Qed.

Lemma filter_is_sublist {A} (f : A -> bool) (l : list A) : sublist (List.filter f l) l.
Proof.
  induction l as [| x l IH]; cbn [List.filter]; [constructor |].
  destruct (f x); [now apply sublist_skip | now apply sublist_cons].
Qed.

(** With nothing desired every managed item is deleted. *)
Lemma scan_nothing_desired (env : Env) (items : list calendar.Event) : forall p,
  scanExisting env ∅ items p
  = (flat_map (fun g => match stravaIDOf g with
                        | Some _ => [EventsDelete (calendar.Id g)]
                        | None => []
                        end) items, p, None).
Proof.
  induction items as [| g items IH]; intros p; [reflexivity |].
  cbn [scanExisting flat_map]. destruct (stravaIDOf g) as [id |]; [| apply IH].
  rewrite lookup_empty, IH. reflexivity.
Qed.

End ShapeFacts.


(** ** The serializer: physical lines *)

Module DocFacts.
Import FoldFacts.

(** A text without carriage return. *)
Definition noCR (s : gostring) : Prop := Forall (fun c => c <> CR) s.

(** Lines written one after the other, each with its CRLF. *)
Definition writeLines (ls : list gostring) : gostring :=
  concat (map (fun l => l ++ CRLF) ls).

Lemma writeLines_app (ls ms : list gostring) :
  writeLines (ls ++ ms) = writeLines ls ++ writeLines ms.
Proof. unfold writeLines. now rewrite map_app, concat_app. Qed.

Lemma writeLines_cons (l : gostring) (ls : list gostring) :
  writeLines (l :: ls) = l ++ CRLF ++ writeLines ls.
Proof. unfold writeLines. cbn [map concat]. now rewrite <- app_assoc. Qed.

(** The physical lines of lines written with their CRLF are these lines. *)
Lemma linesFrom_lines (ls : list gostring) (t : gostring) :
  Forall noCR ls -> linesFrom [] (writeLines ls ++ t) = ls ++ linesFrom [] t.
Proof.
  induction 1 as [| l ls Hl _ IH]; [reflexivity |].
  rewrite writeLines_cons, <- !app_assoc, linesFrom_piece by exact Hl.
  cbn [rev app]. now rewrite IH.
Qed.

(** The pieces the folding loop cuts a line into. *)
Fixpoint pieces (fuel : nat) (line : gostring) : list gostring :=
  match fuel with
  | O => [line]
  | S fuel' =>
      if Nat.ltb maxLen (length line)
      then take maxLen line :: pieces fuel' (drop maxLen line)
      else [line]
  end.

(** The physical lines of a folded line: the first piece, and every other
    piece behind the continuation space. *)
Definition continued (ps : list gostring) : list gostring :=
  match ps with
  | [] => []
  | p :: ps' => p :: map (cons SP) ps'
  end.

Lemma pieces_nonempty (fuel : nat) (line : gostring) : pieces fuel line <> [].
Proof. destruct fuel; cbn [pieces]; [| destruct (Nat.ltb maxLen (length line))]; discriminate. Qed.

Lemma writeLines_spaced (ps : list gostring) :
  ps <> [] -> writeLines (map (cons SP) ps) = SP :: writeLines (continued ps).
Proof. destruct ps as [| p ps]; [congruence | reflexivity]. Qed.

Lemma foldLoop_lines (fuel : nat) : forall line,
  foldLoop fuel line ++ CRLF = writeLines (continued (pieces fuel line)).
Proof.
  induction fuel as [| fuel IH]; intros line; cbn [foldLoop pieces].
  - unfold writeLines. cbn. now rewrite app_nil_r.
  - destruct (Nat.ltb maxLen (length line)).
    + cbn [continued]. rewrite writeLines_cons, writeLines_spaced by apply pieces_nonempty.
      rewrite <- IH, <- !app_assoc. reflexivity.
    + unfold writeLines. cbn. now rewrite app_nil_r.
Qed.

Lemma pieces_short (fuel : nat) : forall line,
  (length line <= fuel)%nat -> Forall (fun p => (length p <= maxLen)%nat) (pieces fuel line).
Proof.
  induction fuel as [| fuel IH]; intros line Hlen; cbn [pieces].
  - constructor; [lia | constructor].
  - destruct (Nat.ltb_spec maxLen (length line)) as [Hlt | Hge].
    + constructor; [rewrite length_take; lia |].
      apply IH. rewrite length_drop. unfold maxLen in *. lia.
    + constructor; [exact Hge | constructor].
Qed.

Lemma pieces_noCR (fuel : nat) : forall line,
  noCR line -> Forall noCR (pieces fuel line).
Proof.
  induction fuel as [| fuel IH]; intros line Hline; cbn [pieces].
  - now constructor.
  - destruct (Nat.ltb maxLen (length line)); [| now constructor].
    destruct (Forall_take_drop _ maxLen _ Hline) as [Ht Hd].
    constructor; [exact Ht | now apply IH].
Qed.

Lemma pieces_concat (fuel : nat) : forall line, concat (pieces fuel line) = line.
Proof.
  induction fuel as [| fuel IH]; intros line; cbn [pieces].
  - cbn. apply app_nil_r.
  - destruct (Nat.ltb maxLen (length line)); [| cbn; apply app_nil_r].
    cbn [concat]. rewrite IH. apply take_drop.
Qed.

Lemma continued_noCR (ps : list gostring) : Forall noCR ps -> Forall noCR (continued ps).
Proof.
  destruct 1 as [| p ps Hp Hps]; [constructor |].
  cbn [continued]. constructor; [exact Hp |].
  induction Hps as [| q qs Hq _ IH]; [constructor |].
  cbn [map]. constructor; [| exact IH]. constructor; [discriminate | exact Hq].
Qed.

(** The logical line of a property in the newer revision. *)
Definition logicalLine (property value : gostring) : gostring :=
  property ++ ``":" ++ IcsRfc.escapeICSText (IcsRfc.stripHTML value).

(** The physical lines of a property in the newer revision. *)
Definition propertyLines (property value : gostring) : list gostring :=
  continued (pieces (length (logicalLine property value)) (logicalLine property value)).

Lemma formatICSProperty_lines (property value : gostring) :
  IcsRfc.formatICSProperty property value = writeLines (propertyLines property value).
Proof.
  unfold IcsRfc.formatICSProperty. rewrite rfc_foldLine_loop. apply foldLoop_lines.
Qed.

Lemma logicalLine_noCR (property value : gostring) :
  noCR property -> noCR (logicalLine property value).
Proof.
  intros Hp. apply Forall_app. split; [exact Hp |].
  apply Forall_app. split; [repeat constructor; discriminate | apply rfc_escaped_no_CR].
Qed.

Lemma propertyLines_noCR (property value : gostring) :
  noCR property -> Forall noCR (propertyLines property value).
Proof.
  intros Hp. apply continued_noCR, pieces_noCR. now apply logicalLine_noCR.
Qed.

(** The first line of a property starts as the property's name does; every
    other line starts with the continuation space. *)
Lemma propertyLines_heads (property value : gostring) (c : ascii) (rest : gostring) :
  property = c :: rest ->
  exists first others,
    propertyLines property value = (c :: first) :: map (cons SP) others.
Proof.
  intros ->. unfold propertyLines, logicalLine.
  set (tail := rest ++ ``":" ++ IcsRfc.escapeICSText (IcsRfc.stripHTML value)).
  change ((c :: rest) ++ ``":" ++ IcsRfc.escapeICSText (IcsRfc.stripHTML value)) with (c :: tail).
  destruct (length (c :: tail)) as [| fuel] eqn:E; [discriminate |].
  cbn [pieces]. destruct (Nat.ltb maxLen (length (c :: tail))).
  - cbn [continued]. unfold maxLen. cbn [take]. eexists _, _. reflexivity.
  - exists tail, []. reflexivity.
Qed.

End DocFacts.

Module GenerateFacts.
Import DocFacts FoldFacts.

(** The lines of one event in the newer revision. *)
Definition eventLines (env : Ics.Env) (i : nat) (event : Event) : list gostring :=
  [ ``"BEGIN:VEVENT";
    ``"UID:" ++ Strconv.FormatInt (ID event) ++ ``"@strava.com";
    ``"DTSTART;TZID=Europe/London:" ++ Ics.formatLondon env (Start event);
    ``"DTEND;TZID=Europe/London:" ++ Ics.formatLondon env (End event);
    ``"DTSTAMP:" ++ Ics.nowUTC env i;
    ``"SUMMARY:" ++ IcsRfc.escapeICSText (Title event) ]
  ++ propertyLines ``"DESCRIPTION" (Ics.description env i event)
  ++ propertyLines ``"X-ALT-DESC;FMTTYPE=text/html" (Ics.htmlDescription env i event)
  ++ match Location event with
     | [] => []
     | _ => [ ``"LOCATION:" ++ IcsRfc.escapeICSText (Location event) ]
     end
  ++ [ ``"URL:" ++ URL event;
       ``"CATEGORIES:Running,Club Event";
       ``"END:VEVENT" ].

Fixpoint eventsLines (env : Ics.Env) (i : nat) (events : list Event) : list gostring :=
  match events with
  | [] => []
  | event :: rest => eventLines env i event ++ eventsLines env (S i) rest
  end.

Lemma writeEvent_lines (env : Ics.Env) (i : nat) (event : Event) :
  Ics.writeEvent IcsRfc.escapeICSText IcsRfc.formatICSProperty env i event
  = writeLines (eventLines env i event).
Proof.
  unfold Ics.writeEvent, eventLines, Fmt.Sprintf_d.
  rewrite !formatICSProperty_lines.
  rewrite !writeLines_app.
  destruct (Location event) as [| l loc] eqn:E;
    unfold writeLines; cbn [map concat app]; rewrite <- ?app_assoc; cbn [app];
    rewrite <- ?app_assoc; reflexivity.
Qed.

Lemma writeEvents_lines (env : Ics.Env) (events : list Event) : forall i,
  Ics.writeEvents IcsRfc.escapeICSText IcsRfc.formatICSProperty env i events
  = writeLines (eventsLines env i events).
Proof.
  induction events as [| e events IH]; intros i; [reflexivity |].
  cbn [Ics.writeEvents eventsLines]. now rewrite writeLines_app, writeEvent_lines, IH.
Qed.

(** What the physical lines need: no carriage return in the texts the clock
    gives and in the links of the events. *)
Definition plainStamps (env : Ics.Env) : Prop := forall i, noCR (Ics.nowUTC env i).

Definition plainEvent (env : Ics.Env) (e : Event) : Prop :=
  noCR (Ics.formatLondon env (Start e))
  /\ noCR (Ics.formatLondon env (End e))
  /\ noCR (URL e).

Ltac lit := unfold noCR; repeat constructor; discriminate.

Lemma FormatInt_noCR (i : Z) : noCR (Strconv.FormatInt i).
Proof.
  assert (forall fuel u acc, noCR acc -> noCR (Strconv.formatBits fuel u acc)) as H.
  { induction fuel as [| fuel IH]; intros u acc Hacc; [exact Hacc |].
    cbn [Strconv.formatBits].
    assert (noCR (Strconv.digitChar (u mod 10) :: acc)) as Hacc'.
    { constructor; [| exact Hacc]. intros Hc.
      pose proof (StrconvFacts.isDigit_digitChar (u mod 10)) as Hd.
      rewrite Hc in Hd. specialize (Hd ltac:(apply Z.mod_pos_bound; lia)). discriminate. }
    destruct (u <? 10); [exact Hacc' | now apply IH]. }
  unfold Strconv.FormatInt. destruct (i <? 0).
  - constructor; [discriminate | apply H; constructor].
  - apply H. constructor.
Qed.

Lemma eventLines_noCR (env : Ics.Env) (i : nat) (event : Event) :
  plainStamps env -> plainEvent env event -> Forall noCR (eventLines env i event).
Proof.
  intros Hnow (Hstart & Hend & Hurl). unfold eventLines.
  assert (forall s t : gostring, noCR s -> noCR t -> noCR (s ++ t)) as Happ.
  { intros s t Hs Ht. apply Forall_app. now split. }
  apply Forall_app. split; [| apply Forall_app; split; [| apply Forall_app; split;
                                                           [| apply Forall_app; split]]].
  - constructor; [lit |].
    constructor; [apply Happ; [lit | apply Happ; [apply FormatInt_noCR | lit]] |].
    constructor; [apply Happ; [lit | exact Hstart] |].
    constructor; [apply Happ; [lit | exact Hend] |].
    constructor; [apply Happ; [lit | apply Hnow] |].
    constructor; [apply Happ; [lit | apply rfc_escaped_no_CR] | constructor].
  - apply propertyLines_noCR. lit.
  - apply propertyLines_noCR. lit.
  - destruct (Location event); [constructor |].
    constructor; [| constructor]. apply Happ; [lit | apply rfc_escaped_no_CR].
  - constructor; [apply Happ; [lit | exact Hurl] |].
    constructor; [lit |]. constructor; [lit | constructor].
Qed.

Lemma eventsLines_noCR (env : Ics.Env) (events : list Event) : forall i,
  plainStamps env -> Forall (plainEvent env) events ->
  Forall noCR (eventsLines env i events).
Proof.
  induction events as [| e events IH]; intros i Hclock Hurls; [constructor |].
  inversion Hurls as [| ? ? Hu Hus]; subst.
  cbn [eventsLines]. apply Forall_app. split; [now apply eventLines_noCR | now apply IH].
Qed.

(** The physical lines of the document of the newer revision. *)
Lemma generateICS_lines (env : Ics.Env) (events : list Event) :
  plainStamps env -> Forall (plainEvent env) events ->
  physicalLines (IcsRfc.generateICS env events)
  = Ics.headerLines ++ eventsLines env 0 events ++ [ ``"END:VCALENDAR"; [LF] ].
Proof.
  intros Hclock Hurls.
  unfold physicalLines, IcsRfc.generateICS, Ics.generateICS, Ics.footer.
  rewrite writeEvents_lines.
  change Ics.header with (writeLines Ics.headerLines).
  change (``"END:VCALENDAR" ++ CRLF ++ [LF]) with (writeLines [ ``"END:VCALENDAR" ] ++ [LF]).
  rewrite !linesFrom_lines.
  - reflexivity.
  - repeat constructor; discriminate.
  - now apply eventsLines_noCR.
  - unfold Ics.headerLines. repeat (constructor; [repeat constructor; discriminate |]). constructor.
Qed.

(** How often a line occurs. *)
Definition occurrences (line : gostring) (ls : list gostring) : nat :=
  length (List.filter (fun l => bool_decide (l = line)) ls).

Lemma occurrences_app (line : gostring) (ls ms : list gostring) :
  occurrences line (ls ++ ms) = (occurrences line ls + occurrences line ms)%nat.
Proof. unfold occurrences. now rewrite List.filter_app, length_app. Qed.

Lemma occurrences_other (c : ascii) (line : gostring) (ls : list gostring) :
  Forall (fun l => head l <> Some c) ls -> occurrences (c :: line) ls = 0%nat.
Proof.
  unfold occurrences. induction 1 as [| l ls Hl _ IH]; [reflexivity |].
  cbn [List.filter]. rewrite bool_decide_eq_false_2; [exact IH |].
  intros ->. now apply Hl.
Qed.

Lemma propertyLines_head_other (property value : gostring) (c d : ascii) (rest : gostring) :
  property = d :: rest -> d <> c -> SP <> c ->
  Forall (fun l => head l <> Some c) (propertyLines property value).
Proof.
  intros Hp Hd Hsp. destruct (propertyLines_heads property value d rest Hp) as (f & o & ->).
  constructor; [cbn; congruence |].
  induction o as [| x o IH]; [constructor |].
  cbn [map]. constructor; [cbn; congruence | exact IH].
Qed.

Lemma eventLines_begin (env : Ics.Env) (i : nat) (event : Event) :
  occurrences ``"BEGIN:VEVENT" (eventLines env i event) = 1%nat.
Proof.
  unfold eventLines. cbn [app].
  unfold occurrences at 1. cbn [List.filter]. rewrite bool_decide_eq_true_2 by reflexivity.
  cbn [length]. f_equal.
  change (length (List.filter (fun l => bool_decide (l = ``"BEGIN:VEVENT")) ?x))
    with (occurrences ``"BEGIN:VEVENT" x).
  apply (occurrences_other "B"%char).
  repeat (apply Forall_cons; split; [cbn; discriminate |]).
  repeat (apply Forall_app; split).
  - now apply (propertyLines_head_other _ _ _ "D"%char ``"ESCRIPTION").
  - now apply (propertyLines_head_other _ _ _ "X"%char ``"-ALT-DESC;FMTTYPE=text/html").
  - destruct (Location event); repeat constructor; cbn; discriminate.
  - repeat constructor; cbn; discriminate.
Qed.

Lemma eventLines_end (env : Ics.Env) (i : nat) (event : Event) :
  occurrences ``"END:VEVENT" (eventLines env i event) = 1%nat.
Proof.
  unfold eventLines. rewrite !occurrences_app.
  change ``"END:VEVENT" with ("E"%char :: ``"ND:VEVENT").
  rewrite (occurrences_other "E"%char _ (propertyLines ``"DESCRIPTION" _))
    by now apply (propertyLines_head_other _ _ _ "D"%char ``"ESCRIPTION").
  rewrite (occurrences_other "E"%char _ (propertyLines ``"X-ALT-DESC;FMTTYPE=text/html" _))
    by now apply (propertyLines_head_other _ _ _ "X"%char ``"-ALT-DESC;FMTTYPE=text/html").
  rewrite (occurrences_other "E"%char _ (match Location event with [] => [] | _ => _ end))
    by (destruct (Location event); repeat constructor; cbn; discriminate).
  rewrite (occurrences_other "E"%char)
    by (repeat (apply Forall_cons; split; [cbn; discriminate |]); constructor).
  reflexivity.
Qed.

Lemma eventsLines_count (line : gostring) (env : Ics.Env) (events : list Event) :
  (forall i e, occurrences line (eventLines env i e) = 1%nat) ->
  forall i, occurrences line (eventsLines env i events) = length events.
Proof.
  intros H. induction events as [| e events IH]; intros i; [reflexivity |].
  cbn [eventsLines length]. now rewrite occurrences_app, H, IH.
Qed.

Lemma eventsLines_In (env : Ics.Env) (events : list Event) (k : nat) (e : Event) : forall i,
  events !! k = Some e ->
  forall l, In l (eventLines env (i + k) e) -> In l (eventsLines env i events).
Proof.
  revert k. induction events as [| x events IH]; intros k i Hk l Hl; [discriminate |].
  cbn [eventsLines]. apply in_or_app. destruct k as [| k].
  - injection Hk as ->. left. now rewrite Nat.add_0_r in Hl.
  - right. apply (IH k (S i)); [exact Hk |]. now rewrite Nat.add_succ_comm.
Qed.

End GenerateFacts.

Module UidFacts.
Import DocFacts GenerateFacts.

Definition isUID (l : gostring) : bool := Strings.HasPrefix l ``"UID:".

Lemma no_UID (ls : list gostring) :
  Forall (fun l => isUID l = false) ls -> List.filter isUID ls = [].
Proof.
  induction 1 as [| l ls Hl _ IH]; [reflexivity |]. cbn [List.filter]. now rewrite Hl.
Qed.

Lemma propertyLines_no_UID (property value : gostring) (d : ascii) (rest : gostring) :
  property = d :: rest -> d <> "U"%char ->
  Forall (fun l => isUID l = false) (propertyLines property value).
Proof.
  intros Hp Hd. destruct (propertyLines_heads property value d rest Hp) as (f & o & ->).
  constructor.
  - unfold isUID. change ``"UID:" with ("U"%char :: ``"ID:"). cbn [Strings.HasPrefix].
    rewrite (bool_decide_eq_false_2 ("U"%char = d)) by congruence. reflexivity.
  - induction o as [| x o IH]; [constructor |]. cbn [map]. constructor; [reflexivity | exact IH].
Qed.

Lemma eventLines_UID (env : Ics.Env) (i : nat) (event : Event) :
  List.filter isUID (eventLines env i event) = [ ``"UID:" ++ GCal.formatUID (ID event) ].
Proof.
  unfold eventLines. rewrite !List.filter_app.
  rewrite (no_UID (propertyLines ``"DESCRIPTION" _))
    by now apply (propertyLines_no_UID _ _ "D"%char ``"ESCRIPTION").
  rewrite (no_UID (propertyLines ``"X-ALT-DESC;FMTTYPE=text/html" _))
    by now apply (propertyLines_no_UID _ _ "X"%char ``"-ALT-DESC;FMTTYPE=text/html").
  rewrite (no_UID (match Location event with [] => [] | _ => _ end))
    by (destruct (Location event); repeat constructor).
  rewrite (no_UID [ ``"URL:" ++ URL event; _; _ ]) by (repeat constructor).
  reflexivity.
Qed.

Lemma eventsLines_UID (env : Ics.Env) (events : list Event) : forall i,
  List.filter isUID (eventsLines env i events)
  = map (fun e => ``"UID:" ++ GCal.formatUID (ID e)) events.
Proof.
  induction events as [| e events IH]; intros i; [reflexivity |].
  cbn [eventsLines map]. now rewrite List.filter_app, eventLines_UID, IH.
Qed.

End UidFacts.


(** ** The serializer: line breaks, markup and the older revision *)

Module BreakFacts.
Import Strings.

(** A text with every line break (CRLF, lone CR, lone LF) as one line
    feed. *)
Definition lineFeeds (s : gostring) : gostring :=
  ReplaceAll (ReplaceAll s [CR; LF] [LF]) [CR] [LF].

(** What the newer revision writes for one byte that is no line break. *)
Definition isBreak (c : ascii) : bool := bool_decide (c = CR) || bool_decide (c = LF).

(** The last three replacements of the newer [escapeICSText]. *)
Definition escapeBreaks (t : gostring) : gostring :=
  ReplaceAll (ReplaceAll (ReplaceAll t [CR; LF] ``"\n") [LF] ``"\n") [CR] ``"\n".

(** Replacing a two-byte text: at an occurrence, and elsewhere. *)
Lemma ReplaceAll_two_hit (a b : ascii) (new t : gostring) :
  ReplaceAll (a :: b :: t) [a; b] new = new ++ ReplaceAll t [a; b] new.
Proof.
  unfold ReplaceAll. cbn [replaceFrom HasPrefix length Nat.pred].
  now rewrite !bool_decide_eq_true_2 by reflexivity.
Qed.

Lemma ReplaceAll_two_miss (a b c : ascii) (new t : gostring) :
  c <> a \/ head t <> Some b ->
  ReplaceAll (c :: t) [a; b] new = c :: ReplaceAll t [a; b] new.
Proof.
  intros H. unfold ReplaceAll. cbn [replaceFrom HasPrefix].
  destruct H as [H | H].
  - now rewrite (bool_decide_eq_false_2 (a = c)) by congruence.
  - destruct t as [| d t]; [now rewrite andb_false_r |].
    rewrite (bool_decide_eq_false_2 (b = d)); [now rewrite andb_false_r |].
    intros <-. now apply H.
Qed.

Lemma escapeBreaks_CRLF (t : gostring) :
  escapeBreaks (CR :: LF :: t) = ``"\n" ++ escapeBreaks t.
Proof.
  unfold escapeBreaks. rewrite ReplaceAll_two_hit.
  rewrite !EscapeFacts.ReplaceAll_byte, !flat_map_app. reflexivity.
Qed.

Lemma escapeBreaks_CR (t : gostring) :
  head t <> Some LF -> escapeBreaks (CR :: t) = ``"\n" ++ escapeBreaks t.
Proof.
  intros Ht. unfold escapeBreaks. rewrite ReplaceAll_two_miss by now right.
  rewrite !EscapeFacts.ReplaceAll_byte.
  change (CR :: ReplaceAll t [CR; LF] ``"\n") with ([CR] ++ ReplaceAll t [CR; LF] ``"\n").
  rewrite !flat_map_app. reflexivity.
Qed.

Lemma escapeBreaks_LF (t : gostring) :
  escapeBreaks (LF :: t) = ``"\n" ++ escapeBreaks t.
Proof.
  unfold escapeBreaks. rewrite ReplaceAll_two_miss by (left; discriminate).
  rewrite !EscapeFacts.ReplaceAll_byte.
  change (LF :: ReplaceAll t [CR; LF] ``"\n") with ([LF] ++ ReplaceAll t [CR; LF] ``"\n").
  rewrite !flat_map_app. reflexivity.
Qed.

Lemma escapeBreaks_other (p t : gostring) :
  Forall (fun c => isBreak c = false) p -> escapeBreaks (p ++ t) = p ++ escapeBreaks t.
Proof.
  induction 1 as [| c p Hc _ IH]; [reflexivity |].
  unfold isBreak in Hc. apply orb_false_elim in Hc as [H1 H2].
  apply bool_decide_eq_false in H1. apply bool_decide_eq_false in H2.
  cbn [app]. rewrite <- IH.
  unfold escapeBreaks. rewrite ReplaceAll_two_miss by now left.
  rewrite !EscapeFacts.ReplaceAll_byte. cbn [flat_map].
  rewrite (bool_decide_eq_false_2 (c = LF)) by assumption.
  cbn [app flat_map].
  rewrite (bool_decide_eq_false_2 (c = CR)) by assumption.
  reflexivity.
Qed.

Lemma lineFeeds_CRLF (t : gostring) : lineFeeds (CR :: LF :: t) = LF :: lineFeeds t.
Proof.
  unfold lineFeeds. rewrite ReplaceAll_two_hit.
  rewrite !EscapeFacts.ReplaceAll_byte, !flat_map_app. reflexivity.
Qed.

Lemma lineFeeds_CR (t : gostring) :
  head t <> Some LF -> lineFeeds (CR :: t) = LF :: lineFeeds t.
Proof.
  intros Ht. unfold lineFeeds. rewrite ReplaceAll_two_miss by now right.
  rewrite !EscapeFacts.ReplaceAll_byte. reflexivity.
Qed.

Lemma lineFeeds_other (c : ascii) (t : gostring) :
  c <> CR -> lineFeeds (c :: t) = c :: lineFeeds t.
Proof.
  intros Hc. unfold lineFeeds. rewrite ReplaceAll_two_miss by now left.
  rewrite !EscapeFacts.ReplaceAll_byte. cbn [flat_map].
  now rewrite (bool_decide_eq_false_2 (c = CR)) by assumption.
Qed.

Lemma escapeByte_plain (c : ascii) :
  isBreak c = false -> Forall (fun x => isBreak x = false) (escapeByte c).
Proof.
  intros Hc. unfold escapeByte. destruct (_ || _); repeat constructor; assumption.
Qed.

Lemma escapeByte_break (c : ascii) : isBreak c = true -> escapeByte c = [c].
Proof.
  unfold isBreak. intros H. apply orb_prop in H as [H | H];
    apply bool_decide_eq_true in H; subst c; reflexivity.
Qed.

Lemma escaped_head (s : gostring) :
  head s <> Some LF -> head (flat_map escapeByte s) <> Some LF.
Proof.
  destruct s as [| c s]; [easy |]. cbn [head flat_map]. intros Hc.
  unfold escapeByte. destruct (_ || _); cbn; [discriminate | exact Hc].
Qed.

(** The newer [escapeICSText], byte by byte and break by break. *)
Lemma rfc_escape_unfold (s : gostring) :
  IcsRfc.escapeICSText s = escapeBreaks (flat_map escapeByte s).
Proof.
  unfold IcsRfc.escapeICSText, escapeBreaks.
  change (ReplaceAll (ReplaceAll (ReplaceAll s ``"\" ``"\\") ``";" ``"\;") ``"," ``"\,")
    with (IcsRaw.escapeICSText s).
  now rewrite escapeICSText_bytes.
Qed.

Lemma unescape_break (t : gostring) :
  unescapeFrom false (``"\n" ++ t) = LF :: unescapeFrom false t.
Proof. reflexivity. Qed.

(** Reading the escaped text back, by cases on how the text starts. *)
Lemma rfc_escape_cases (n : nat) : forall s : gostring,
  (length s <= n)%nat ->
  unescapeText (IcsRfc.escapeICSText s) = lineFeeds s
  /\ Forall (fun c => isBreak c = false) (IcsRfc.escapeICSText s).
Proof.
  induction n as [| n IH]; intros s Hlen.
  - destruct s; [| simpl in Hlen; lia]. split; [reflexivity | constructor].
  - destruct s as [| c s]; [split; [reflexivity | constructor] |].
    cbn [length] in Hlen. rewrite rfc_escape_unfold.
    destruct (decide (c = CR)) as [-> | Hcr].
    + destruct s as [| d s].
      * split; [reflexivity | repeat constructor].
      * destruct (decide (d = LF)) as [-> | Hd].
        -- cbn [length] in Hlen.
           change (flat_map escapeByte (CR :: LF :: s)) with (CR :: LF :: flat_map escapeByte s).
           rewrite escapeBreaks_CRLF, lineFeeds_CRLF, <- rfc_escape_unfold.
           destruct (IH s ltac:(lia)) as [H1 H2].
           split; [| repeat (constructor; [reflexivity |]); exact H2].
           unfold unescapeText in *. now rewrite unescape_break, H1.
        -- change (flat_map escapeByte (CR :: d :: s)) with (CR :: flat_map escapeByte (d :: s)).
           rewrite escapeBreaks_CR by (apply escaped_head; cbn; congruence).
           rewrite lineFeeds_CR by (cbn; congruence).
           rewrite <- rfc_escape_unfold.
           destruct (IH (d :: s) ltac:(lia)) as [H1 H2].
           split; [| repeat (constructor; [reflexivity |]); exact H2].
           unfold unescapeText in *. now rewrite unescape_break, H1.
    + destruct (decide (c = LF)) as [-> | Hlf].
      * change (flat_map escapeByte (LF :: s)) with (LF :: flat_map escapeByte s).
        rewrite escapeBreaks_LF, lineFeeds_other by discriminate.
        rewrite <- rfc_escape_unfold.
        destruct (IH s ltac:(lia)) as [H1 H2].
        split; [| repeat (constructor; [reflexivity |]); exact H2].
        unfold unescapeText in *. now rewrite unescape_break, H1.
      * assert (isBreak c = false) as Hc.
        { unfold isBreak. now rewrite !bool_decide_eq_false_2. }
        cbn [flat_map]. rewrite escapeBreaks_other by now apply escapeByte_plain.
        rewrite lineFeeds_other by assumption. rewrite <- rfc_escape_unfold.
        destruct (IH s ltac:(lia)) as [H1 H2].
        split; [| apply Forall_app; split; [now apply escapeByte_plain | exact H2]].
        unfold unescapeText in *. now rewrite unescape_escapeByte, H1.
Qed.

(** A text without carriage return is read back unchanged. *)
Lemma rfc_escape_reads_back (s : gostring) :
  Forall (fun c => c <> CR) s -> unescapeText (IcsRfc.escapeICSText s) = s.
Proof.
  intros Hs. destruct (rfc_escape_cases (length s) s (le_n _)) as [H _].
  rewrite H. unfold lineFeeds.
  rewrite (EscapeFacts.ReplaceAll_absent CR [LF]) by exact Hs.
  now rewrite (EscapeFacts.ReplaceAll_absent CR []) by exact Hs.
Qed.

End BreakFacts.

Module MarkupFacts.
Import Strings.

Definition isGt (x : ascii) : bool := bool_decide (x = ">"%char).

Lemma stripTags_unfold (inTag : bool) (c : ascii) (s : gostring) :
  IcsRfc.stripTags inTag (c :: s)
  = if inTag then IcsRfc.stripTags (negb (bool_decide (c = ">"%char))) s
    else if bool_decide (c = "<"%char) && existsb isGt s
         then IcsRfc.stripTags true s
         else c :: IcsRfc.stripTags false s.
Proof. reflexivity. Qed.

(** Text without [<] passes tag removal unchanged. *)
Lemma stripTags_plain (p t : gostring) :
  Forall (fun c => c <> "<"%char) p ->
  IcsRfc.stripTags false (p ++ t) = p ++ IcsRfc.stripTags false t.
Proof.
  induction 1 as [| c p Hc _ IH]; [reflexivity |].
  cbn [app]. rewrite stripTags_unfold.
  rewrite (bool_decide_eq_false_2 (c = "<"%char)) by assumption. cbn [andb].
  now rewrite IH.
Qed.

(** Inside a tag everything up to the first [>] is dropped. *)
Lemma stripTags_inside (body t : gostring) :
  Forall (fun c => c <> ">"%char) body ->
  IcsRfc.stripTags true (body ++ ">"%char :: t) = IcsRfc.stripTags false t.
Proof.
  induction 1 as [| c body Hc _ IH]; [reflexivity |].
  cbn [app]. rewrite stripTags_unfold.
  rewrite (bool_decide_eq_false_2 (c = ">"%char)) by assumption. exact IH.
Qed.

(** A tag is dropped. *)
Lemma stripTags_tag (body t : gostring) :
  Forall (fun c => c <> ">"%char) body ->
  IcsRfc.stripTags false ("<"%char :: body ++ ">"%char :: t) = IcsRfc.stripTags false t.
Proof.
  intros Hb. rewrite stripTags_unfold.
  rewrite bool_decide_eq_true_2 by reflexivity.
  assert (existsb isGt (body ++ ">"%char :: t) = true) as ->.
  { rewrite existsb_app. cbn. now rewrite orb_true_r. }
  cbn [andb]. now apply stripTags_inside.
Qed.

(** What tag removal leaves has no [>] unless the text has one. *)
Lemma stripTags_no_gt (s : gostring) : forall inTag,
  existsb isGt s = false -> existsb isGt (IcsRfc.stripTags inTag s) = false.
Proof.
  induction s as [| c s IH]; intros inTag Hs; [reflexivity |].
  cbn [existsb] in Hs. apply orb_false_elim in Hs as [Hc Hs].
  rewrite stripTags_unfold. destruct inTag; [now apply IH |].
  rewrite Hs, andb_false_r. cbn [existsb]. now rewrite Hc, IH.
Qed.

(** After tag removal, a [<] that is left has no [>] behind it. *)
Lemma stripTags_again (s : gostring) : forall inTag,
  IcsRfc.stripTags false (IcsRfc.stripTags inTag s) = IcsRfc.stripTags inTag s.
Proof.
  induction s as [| c s IH]; intros inTag; [reflexivity |].
  rewrite stripTags_unfold. destruct inTag; [apply IH |].
  destruct (bool_decide (c = "<"%char) && existsb isGt s) eqn:E; [apply IH |].
  rewrite stripTags_unfold, IH.
  apply andb_false_iff in E as [E | E]; [now rewrite E |].
  now rewrite (stripTags_no_gt s false E), andb_false_r.
Qed.

(** A text without [<] and [&] has neither markup nor entities. *)
Definition plain (s : gostring) : Prop :=
  Forall (fun c => c <> "<"%char /\ c <> "&"%char) s.

Lemma stripHTML_plain (s : gostring) : plain s -> IcsRfc.stripHTML s = s.
Proof.
  intros Hs. unfold IcsRfc.stripHTML.
  assert (IcsRfc.stripTags false s = s) as ->.
  { rewrite <- (app_nil_r s) at 1. rewrite stripTags_plain; [apply app_nil_r |].
    eapply List.Forall_impl; [| exact Hs]. now intros c [H _]. }
  assert (Forall (fun c => c <> "&"%char) s) as Hamp
    by (eapply List.Forall_impl; [| exact Hs]; now intros c [_ H]).
  change ``"&nbsp;" with ("&"%char :: ``"nbsp;").
  change ``"&amp;" with ("&"%char :: ``"amp;").
  change ``"&lt;" with ("&"%char :: ``"lt;").
  change ``"&gt;" with ("&"%char :: ``"gt;").
  change ``"&quot;" with ("&"%char :: ``"quot;").
  change ``"&#39;" with ("&"%char :: ``"#39;").
  change ``"&apos;" with ("&"%char :: ``"apos;").
  repeat (rewrite (EscapeFacts.ReplaceAll_absent "&"%char _ _ s) by exact Hamp).
  reflexivity.
Qed.

End MarkupFacts.

Module RawFacts.
Import Strings.

(** The pieces of a text before and after a separator. *)
Lemma Split1_sep (sep : ascii) (a b : gostring) : forall cur,
  splitByte sep cur (a ++ sep :: b) = splitByte sep cur a ++ splitByte sep [] b.
Proof.
  induction a as [| c a IH]; intros cur; cbn [app splitByte].
  - now rewrite bool_decide_eq_true_2.
  - destruct (bool_decide (c = sep)); [cbn [app]; f_equal |]; apply IH.
Qed.

Lemma splitByte_nonempty (sep : ascii) (s : gostring) : forall cur,
  splitByte sep cur s <> [].
Proof.
  induction s as [| c s IH]; intros cur; cbn [splitByte]; [discriminate |].
  destruct (bool_decide (c = sep)); [discriminate | apply IH].
Qed.

Lemma splitByte_absent (sep : ascii) (s : gostring) : forall cur,
  Forall (fun c => c <> sep) s -> splitByte sep cur s = [rev cur ++ s].
Proof.
  induction s as [| c s IH]; intros cur Hs; cbn [splitByte].
  - now rewrite app_nil_r.
  - inversion Hs as [| ? ? Hc Hs']; subst.
    rewrite bool_decide_eq_false_2 by assumption.
    rewrite IH by assumption. cbn [rev]. now rewrite <- app_assoc.
Qed.

Lemma joinLines_app (xs ys : list gostring) :
  xs <> [] -> ys <> [] ->
  IcsRaw.joinLines (xs ++ ys) = IcsRaw.joinLines xs ++ CRLF ++ IcsRaw.joinLines ys.
Proof.
  intros Hx Hy. induction xs as [| x xs IH]; [congruence |].
  destruct xs as [| x' xs].
  - destruct ys as [| y ys]; [congruence |]. reflexivity.
  - change (IcsRaw.joinLines ((x :: x' :: xs) ++ ys))
      with (x ++ CRLF ++ IcsRaw.joinLines ((x' :: xs) ++ ys)).
    rewrite IH by discriminate.
    change (IcsRaw.joinLines (x :: x' :: xs)) with (x ++ CRLF ++ IcsRaw.joinLines (x' :: xs)).
    now rewrite <- !app_assoc.
Qed.

End RawFacts.

Module AltFacts.
Import Strings MarkupFacts.

(** A text with neither [<], [>] nor [&]. *)
Definition markupFree (s : gostring) : Prop :=
  Forall (fun c => c <> "<"%char /\ c <> ">"%char /\ c <> "&"%char) s.

Lemma markupFree_lt (s : gostring) : markupFree s -> Forall (fun c => c <> "<"%char) s.
Proof. apply List.Forall_impl. now intros c (H & _). Qed.

Lemma markupFree_gt (s : gostring) : markupFree s -> Forall (fun c => c <> ">"%char) s.
Proof. apply List.Forall_impl. now intros c (_ & H & _). Qed.

Lemma markupFree_amp (s : gostring) : markupFree s -> Forall (fun c => c <> "&"%char) s.
Proof. apply List.Forall_impl. now intros c (_ & _ & H). Qed.

(** The text without its line feeds. *)
Definition withoutLF (s : gostring) : gostring :=
  List.filter (fun c => negb (bool_decide (c = LF))) s.

(** Line feeds written as [<br>] are removed with the tag. *)
Lemma stripTags_br (f t : gostring) :
  markupFree f ->
  IcsRfc.stripTags false (ReplaceAll f [LF] ``"<br>" ++ t)
  = withoutLF f ++ IcsRfc.stripTags false t.
Proof.
  rewrite EscapeFacts.ReplaceAll_byte.
  induction 1 as [| c f (Hlt & _) _ IH]; [reflexivity |].
  cbn [flat_map withoutLF List.filter].
  destruct (decide (c = LF)) as [-> | Hc].
  - rewrite bool_decide_eq_true_2 by reflexivity. cbn [negb].
    rewrite <- app_assoc.
    change (``"<br>" ++ ?x) with ("<"%char :: ``"br" ++ ">"%char :: x).
    rewrite stripTags_tag by (repeat constructor; discriminate). exact IH.
  - rewrite bool_decide_eq_false_2 by exact Hc. cbn [negb app].
    rewrite stripTags_unfold, (bool_decide_eq_false_2 (c = "<"%char)) by exact Hlt.
    cbn [andb]. f_equal. exact IH.
Qed.

Lemma withoutLF_markupFree (s : gostring) : markupFree s -> markupFree (withoutLF s).
Proof.
  induction 1 as [| c s Hc _ IH]; [constructor |].
  cbn [withoutLF List.filter]. destruct (negb _); [constructor |]; assumption.
Qed.

(** A piece of text in which every tag that opens also closes. *)
Fixpoint closes (inTag : bool) (p : gostring) : bool :=
  match p with
  | [] => negb inTag
  | c :: p' =>
      if inTag then closes (negb (bool_decide (c = ">"%char))) p'
      else if bool_decide (c = "<"%char) then existsb isGt p' && closes true p'
      else closes false p'
  end.

Lemma stripTags_closed (p t : gostring) : forall inTag,
  closes inTag p = true ->
  IcsRfc.stripTags inTag (p ++ t) = IcsRfc.stripTags inTag p ++ IcsRfc.stripTags false t.
Proof.
  induction p as [| c p IH]; intros inTag Hp.
  - destruct inTag; [discriminate | reflexivity].
  - cbn [app]. rewrite !stripTags_unfold. cbn [closes] in Hp.
    destruct inTag; [now apply IH |].
    destruct (bool_decide (c = "<"%char)); cbn [andb].
    + apply andb_prop in Hp as [Hgt Hp].
      rewrite existsb_app, Hgt. cbn [orb]. now apply IH.
    + cbn [app]. f_equal. now apply IH.
Qed.

(** The link tag is removed with the address in it. *)
Lemma stripTags_anchor (url t : gostring) :
  Forall (fun c => c <> ">"%char) url ->
  IcsRfc.stripTags false (("<"%char :: ``"a href=") ++ quote ++ url ++ quote ++ ``">" ++ t)
  = IcsRfc.stripTags false t.
Proof.
  intros Hu.
  assert ((("<"%char :: ``"a href=") ++ quote ++ url ++ quote ++ ``">" ++ t)
          = "<"%char :: (``"a href=" ++ quote ++ url ++ quote) ++ ">"%char :: t) as ->.
  { cbn [app]. now rewrite <- !app_assoc. }
  apply stripTags_tag.
  apply Forall_app. split; [repeat constructor; discriminate |].
  apply Forall_app. split; [repeat constructor; discriminate |].
  apply Forall_app. split; [exact Hu | repeat constructor; discriminate].
Qed.

(** What tag removal leaves of the HTML description of an event whose
    fields hold no markup. *)
Definition altText (env : Ics.Env) (i : nat) (event : Event) : gostring :=
  ``"Leader: " ++ withoutLF (Organizer event)
  ++ ``"Location: " ++ withoutLF (Location event)
  ++ withoutLF (Description event)
  ++ ``"View on Strava: " ++ URL event
  ++ ``"Synced from Strava Club " ++ Ics.clubIDOrUnknown env
  ++ ``" on: " ++ Ics.syncTime env i.

Lemma stripTags_htmlDescription (env : Ics.Env) (i : nat) (event : Event) :
  markupFree (Organizer event) -> markupFree (Location event) ->
  markupFree (Description event) -> markupFree (URL event) ->
  markupFree (Ics.clubIDOrUnknown env) -> markupFree (Ics.syncTime env i) ->
  IcsRfc.stripTags false (Ics.htmlDescription env i event) = altText env i event.
Proof.
  intros Ho Hl Hd Hu Hc Ht. unfold Ics.htmlDescription, altText.
  rewrite (stripTags_closed ``"<p><strong>Leader:</strong> ") by reflexivity.
  rewrite stripTags_br by exact Ho.
  rewrite (stripTags_closed ``"</p><p><strong>Location:</strong> ") by reflexivity.
  rewrite stripTags_br by exact Hl.
  rewrite (stripTags_closed ``"</p><p>") by reflexivity.
  rewrite stripTags_br by exact Hd.
  change ``"</p><p><strong>View on Strava:</strong> <a href="
    with (``"</p><p><strong>View on Strava:</strong> " ++ "<"%char :: ``"a href=").
  rewrite <- (app_assoc ``"</p><p><strong>View on Strava:</strong> ").
  rewrite (stripTags_closed ``"</p><p><strong>View on Strava:</strong> ") by reflexivity.
  rewrite stripTags_anchor by now apply markupFree_gt.
  rewrite stripTags_plain by now apply markupFree_lt.
  rewrite (stripTags_closed ``"</a></p><p><strong>Synced from Strava Club ") by reflexivity.
  rewrite stripTags_plain by now apply markupFree_lt.
  rewrite (stripTags_closed ``" on:</strong> ") by reflexivity.
  rewrite stripTags_plain by now apply markupFree_lt.
  change (IcsRfc.stripTags false ``"</p>") with (@nil ascii).
  rewrite app_nil_r. reflexivity.
Qed.

Lemma altText_no_amp (env : Ics.Env) (i : nat) (event : Event) :
  markupFree (Organizer event) -> markupFree (Location event) ->
  markupFree (Description event) -> markupFree (URL event) ->
  markupFree (Ics.clubIDOrUnknown env) -> markupFree (Ics.syncTime env i) ->
  Forall (fun c => c <> "&"%char) (altText env i event).
Proof.
  intros Ho Hl Hd Hu Hc Ht. unfold altText.
  repeat (apply Forall_app; split);
    try (repeat constructor; discriminate);
    try (apply markupFree_amp; try apply withoutLF_markupFree; assumption).
Qed.

Lemma stripHTML_htmlDescription (env : Ics.Env) (i : nat) (event : Event) :
  markupFree (Organizer event) -> markupFree (Location event) ->
  markupFree (Description event) -> markupFree (URL event) ->
  markupFree (Ics.clubIDOrUnknown env) -> markupFree (Ics.syncTime env i) ->
  IcsRfc.stripHTML (Ics.htmlDescription env i event) = altText env i event.
Proof.
  intros Ho Hl Hd Hu Hc Ht. unfold IcsRfc.stripHTML.
  rewrite stripTags_htmlDescription by assumption.
  pose proof (altText_no_amp env i event Ho Hl Hd Hu Hc Ht) as Hamp.
  change ``"&nbsp;" with ("&"%char :: ``"nbsp;").
  change ``"&amp;" with ("&"%char :: ``"amp;").
  change ``"&lt;" with ("&"%char :: ``"lt;").
  change ``"&gt;" with ("&"%char :: ``"gt;").
  change ``"&quot;" with ("&"%char :: ``"quot;").
  change ``"&#39;" with ("&"%char :: ``"#39;").
  change ``"&apos;" with ("&"%char :: ``"apos;").
  repeat (rewrite (EscapeFacts.ReplaceAll_absent "&"%char _ _ (altText env i event)) by exact Hamp).
  reflexivity.
Qed.

End AltFacts.

(** ** The club feed *)

Module FetchFacts.
Import Strava.

(** The header a request carries for a token store. *)
Definition bearer (t : TokenStore) : gostring := ``"Bearer " ++ AccessToken t.

(** The requests for [n] consecutive pages from [page] on. *)
Fixpoint pageRequests (clubID : gostring) (t : TokenStore) (page : Z) (n : nat)
  : list Http.Request :=
  match n with
  | O => []
  | S n' => Http.GET (pageURL clubID page) (bearer t) :: pageRequests clubID t (page + 1) n'
  end.

(** The network answers the next requests with these pages, one for each
    request. *)
Definition serves (net : Net) (from : nat) (pages : list (list StravaEvent.t)) : Prop :=
  forall i page,
    pages !! i = Some page ->
    exists body,
      answer net (from + i) = Some {| Http.StatusCode := 200; Http.Body := body |}
      /\ decodeEvents net body = Some page.

Lemma serves_tail (net : Net) (from : nat) (p : list StravaEvent.t)
      (pages : list (list StravaEvent.t)) :
  serves net from (p :: pages) -> serves net (S from) pages.
Proof.
  intros H i page Hi. destruct (H (S i) page Hi) as (body & Ha & Hd).
  exists body. split; [| exact Hd]. now rewrite Nat.add_succ_comm.
Qed.

(** One round of [makeAPIRequest] against an answer that is no 401. *)
Lemma makeAPIRequest_plain (net : Net) (s : Session) (url : gostring) (resp : Http.Response) :
  newRequestOK net url = true ->
  answer net (length (sent s)) = Some resp ->
  Http.StatusCode resp <> Http.StatusUnauthorized ->
  makeAPIRequest net s url
  = (Ok resp, {| tokens := tokens s; sent := sent s ++ [Http.GET url (bearer (tokens s))] |}).
Proof.
  intros Hok Ha Hst. unfold makeAPIRequest, send. rewrite Hok, Ha. cbn [negb].
  now rewrite (proj2 (Z.eqb_neq _ _) Hst).
Qed.

Lemma fetchLoop_pages (net : Net) (clubID : gostring) (full : list (list StravaEvent.t))
      (last : list StravaEvent.t) :
  (forall page, newRequestOK net (pageURL clubID page) = true) ->
  Forall (fun p => (200 <= length p)%nat) full ->
  (length last < 200)%nat ->
  forall fuel s page allEvents,
    serves net (length (sent s)) (full ++ [last]) ->
    (length full < fuel)%nat ->
    fetchLoop fuel net s clubID page allEvents
    = Some (Ok (allEvents ++ concat full ++ last),
            {| tokens := tokens s;
               sent := sent s ++ pageRequests clubID (tokens s) page (S (length full)) |}).
Proof.
  intros Hurl Hfull Hlast.
  induction Hfull as [| p full Hp _ IH]; intros fuel s page allEvents Hserves Hfuel.
  - destruct fuel as [| fuel]; [cbn in Hfuel; lia |].
    destruct (Hserves 0%nat last eq_refl) as (body & Ha & Hd).
    rewrite Nat.add_0_r in Ha.
    cbn [fetchLoop]. rewrite (makeAPIRequest_plain net s _ _ (Hurl page) Ha) by discriminate.
    cbn [Http.StatusCode Http.Body]. change (200 =? Http.StatusOK) with true. cbn [negb].
    rewrite Hd. cbn [concat app pageRequests length].
    destruct last as [| ev last].
    + cbn [length Nat.eqb]. now rewrite app_nil_r.
    + cbn [Nat.eqb length]. cbn [length] in Hlast.
      destruct (Z.ltb_spec (Z.of_nat (S (length last))) perPage) as [_ | H];
        [reflexivity | unfold perPage in H; lia].
  - destruct fuel as [| fuel]; [cbn in Hfuel; lia |].
    destruct (Hserves 0%nat p eq_refl) as (body & Ha & Hd).
    rewrite Nat.add_0_r in Ha.
    cbn [fetchLoop]. rewrite (makeAPIRequest_plain net s _ _ (Hurl page) Ha) by discriminate.
    cbn [Http.StatusCode Http.Body]. change (200 =? Http.StatusOK) with true. cbn [negb].
    rewrite Hd.
    destruct (Nat.eqb_spec (length p) 0) as [H0 | _]; [lia |].
    destruct (Z.ltb_spec (Z.of_nat (length p)) perPage) as [H | _];
      [unfold perPage in H; lia |].
    rewrite IH.
    + cbn [tokens sent concat length pageRequests].
      now rewrite <- !app_assoc.
    + cbn [sent]. rewrite length_app. cbn [length]. rewrite Nat.add_1_r.
      now apply (serves_tail net _ p).
    + cbn [length] in Hfuel. lia.
Qed.

(** What a session keeps: the client's id and secret, and the requests
    already sent. *)
Definition extends (s s' : Session) : Prop :=
  ClientID (tokens s') = ClientID (tokens s)
  /\ ClientSecret (tokens s') = ClientSecret (tokens s)
  /\ exists more, sent s' = sent s ++ more.

Lemma extends_refl (s : Session) : extends s s.
Proof. repeat split. exists []. now rewrite app_nil_r. Qed.

Lemma extends_trans (s1 s2 s3 : Session) : extends s1 s2 -> extends s2 s3 -> extends s1 s3.
Proof.
  intros (H1 & H2 & m1 & H3) (H4 & H5 & m2 & H6).
  split; [congruence |]. split; [congruence |].
  exists (m1 ++ m2). now rewrite H6, H3, app_assoc.
Qed.

Lemma send_extends (net : Net) (s : Session) (r : Http.Request) :
  extends s (send net s r).2.
Proof. repeat split. now exists [r]. Qed.

Lemma refreshTokens_extends (net : Net) (s : Session) :
  extends s (refreshTokens net s).2.
Proof.
  unfold refreshTokens, send.
  destruct (answer net (length (sent s))) as [resp |];
    [| repeat split; now eexists].
  destruct (negb _); [repeat split; now eexists |].
  destruct (decodeTokenResponse net (Http.Body resp)); repeat split; now eexists.
Qed.

(** The requests one call of [makeAPIRequest] sends. *)
Lemma makeAPIRequest_sent (net : Net) (s : Session) (url : gostring) :
  let s' := (makeAPIRequest net s url).2 in
  ClientID (tokens s') = ClientID (tokens s)
  /\ ClientSecret (tokens s') = ClientSecret (tokens s)
  /\ (sent s' = sent s
      \/ sent s' = sent s ++ [Http.GET url (bearer (tokens s))]
      \/ sent s' = sent s ++ [Http.GET url (bearer (tokens s));
                              Http.POST stravaTokenURL ``"application/json"
                                        (refreshPayload (tokens s))]
      \/ sent s' = sent s ++ [Http.GET url (bearer (tokens s));
                              Http.POST stravaTokenURL ``"application/json"
                                        (refreshPayload (tokens s));
                              Http.GET url (bearer (tokens s'))]).
Proof.
  cbv zeta. unfold makeAPIRequest, send.
  destruct (newRequestOK net url); cbn [negb]; [| now repeat split; left].
  destruct (answer net (length (sent s))) as [resp |]; [| now repeat split; right; left].
  destruct (Http.StatusCode resp =? Http.StatusUnauthorized); [| now repeat split; right; left].
  unfold refreshTokens, send. cbn [tokens sent].
  destruct (answer net (length (sent s ++ _))) as [resp2 |];
    [| repeat split; right; right; left; cbn; now rewrite <- app_assoc].
  destruct (negb _); [repeat split; right; right; left; cbn; now rewrite <- app_assoc |].
  destruct (decodeTokenResponse net (Http.Body resp2)) as [tr |];
    [| repeat split; right; right; left; cbn; now rewrite <- app_assoc].
  cbn [tokens sent].
  destruct (answer net (length ((sent s ++ _) ++ _))) as [resp3 |];
    repeat split; right; right; right; cbn; now rewrite <- !app_assoc.
Qed.

Lemma makeAPIRequest_extends (net : Net) (s : Session) (url : gostring) :
  extends s (makeAPIRequest net s url).2.
Proof.
  destruct (makeAPIRequest_sent net s url) as (H1 & H2 & H3).
  split; [exact H1 |]. split; [exact H2 |].
  destruct H3 as [-> | [-> | [-> | ->]]]; [exists []; now rewrite app_nil_r | | |]; now eexists.
Qed.

Lemma fetchLoop_extends (net : Net) (clubID : gostring) (fuel : nat) :
  forall s page allEvents r s',
    fetchLoop fuel net s clubID page allEvents = Some (r, s') -> extends s s'.
Proof.
  induction fuel as [| fuel IH]; intros s page allEvents r s' H; [discriminate |].
  cbn [fetchLoop] in H.
  pose proof (makeAPIRequest_extends net s (pageURL clubID page)) as Hext.
  destruct (makeAPIRequest net s (pageURL clubID page)) as [[resp | err] s1]; cbn [snd] in Hext.
  2: { now injection H as _ <-. }
  destruct (negb _); [now injection H as _ <- |].
  destruct (decodeEvents net (Http.Body resp)) as [events |]; [| now injection H as _ <-].
  destruct (Nat.eqb _ _); [now injection H as _ <- |].
  destruct (_ <? _); [now injection H as _ <- |].
  eapply extends_trans; [exact Hext |]. eapply IH, H.
Qed.

End FetchFacts.

Module RefreshFacts.
Import Strava FetchFacts.

(** The token store after a refresh that succeeds. *)
Definition refreshed (t : TokenStore) (tokenResp : TokenResponse.t) : TokenStore :=
  {| ClientID := ClientID t;
     ClientSecret := ClientSecret t;
     AccessToken := TokenResponse.AccessToken tokenResp;
     RefreshToken := TokenResponse.RefreshToken tokenResp |}.

(** [makeAPIRequest] against a 401, a token answer that decodes, and a
    third answer. *)
Lemma makeAPIRequest_refresh (net : Net) (s : Session) (url body : gostring)
      (denied resp : Http.Response) (tokenResp : TokenResponse.t) :
  newRequestOK net url = true ->
  answer net (length (sent s)) = Some denied ->
  Http.StatusCode denied = Http.StatusUnauthorized ->
  answer net (length (sent s) + 1)
  = Some {| Http.StatusCode := Http.StatusOK; Http.Body := body |} ->
  decodeTokenResponse net body = Some tokenResp ->
  answer net (length (sent s) + 2) = Some resp ->
  makeAPIRequest net s url
  = (Ok resp,
     {| tokens := refreshed (tokens s) tokenResp;
        sent := sent s ++ [ Http.GET url (bearer (tokens s));
                            Http.POST stravaTokenURL ``"application/json"
                                      (refreshPayload (tokens s));
                            Http.GET url (bearer (refreshed (tokens s) tokenResp)) ] |}).
Proof.
  intros Hok H0 Hcode H1 Hdec H2.
  unfold makeAPIRequest, send. rewrite Hok, H0, Hcode. cbn [negb].
  change (Http.StatusUnauthorized =? Http.StatusUnauthorized) with true. cbn iota.
  unfold refreshTokens, send. cbn [tokens sent].
  rewrite length_app. cbn [length]. rewrite H1. cbn [Http.StatusCode Http.Body].
  change (Http.StatusOK =? Http.StatusOK) with true. cbn [negb]. rewrite Hdec.
  cbn [tokens sent]. rewrite !length_app. cbn [length].
  rewrite <- Nat.add_assoc. cbn [Nat.add]. rewrite H2.
  unfold refreshed, bearer. cbn [tokens sent]. now rewrite <- !app_assoc.
Qed.

Lemma fetchLoop_refresh (net : Net) (clubID body : gostring) (denied : Http.Response)
      (tokenResp : TokenResponse.t) (full : list (list StravaEvent.t))
      (last : list StravaEvent.t) (fuel : nat) (s : Session) :
  (forall page, newRequestOK net (pageURL clubID page) = true) ->
  answer net (length (sent s)) = Some denied ->
  Http.StatusCode denied = Http.StatusUnauthorized ->
  answer net (length (sent s) + 1)
  = Some {| Http.StatusCode := Http.StatusOK; Http.Body := body |} ->
  decodeTokenResponse net body = Some tokenResp ->
  serves net (length (sent s) + 2) (full ++ [last]) ->
  Forall (fun p => (200 <= length p)%nat) full ->
  (length last < 200)%nat ->
  (length full < fuel)%nat ->
  fetchLoop fuel net s clubID 1 []
  = Some (Ok (concat full ++ last),
          {| tokens := refreshed (tokens s) tokenResp;
             sent := sent s
                     ++ [ Http.GET (pageURL clubID 1) (bearer (tokens s));
                          Http.POST stravaTokenURL ``"application/json"
                                    (refreshPayload (tokens s)) ]
                     ++ pageRequests clubID (refreshed (tokens s) tokenResp) 1
                                     (S (length full)) |}).
Proof.
  intros Hurl H0 Hcode H1 Hdec Hserves Hfull Hlast Hfuel.
  destruct fuel as [| fuel]; [lia |].
  assert (exists page0 rest, full ++ [last] = page0 :: rest) as (page0 & rest & Hpages)
    by (destruct full; cbn; eauto).
  destruct (Hserves 0%nat page0) as (pbody & Ha & Hd); [now rewrite Hpages |].
  rewrite Nat.add_0_r in Ha.
  cbn [fetchLoop].
  rewrite (makeAPIRequest_refresh net s _ body denied _ tokenResp (Hurl 1) H0 Hcode H1 Hdec Ha).
  cbn [Http.StatusCode Http.Body]. change (200 =? Http.StatusOK) with true. cbn [negb].
  rewrite Hd.
  destruct full as [| p full].
  - injection Hpages as <- <-. cbn [concat app length pageRequests].
    destruct last as [| ev last]; [reflexivity |].
    cbn [Nat.eqb length]. cbn [length] in Hlast.
    destruct (Z.ltb_spec (Z.of_nat (S (length last))) perPage) as [_ | H];
      [reflexivity | unfold perPage in H; lia].
  - injection Hpages as <- <-. inversion Hfull as [| ? ? Hp Hfull']; subst.
    destruct (Nat.eqb_spec (length p) 0) as [Hz | _]; [lia |].
    destruct (Z.ltb_spec (Z.of_nat (length p)) perPage) as [H | _];
      [unfold perPage in H; lia |].
    rewrite (fetchLoop_pages net clubID full last Hurl Hfull' Hlast).
    + cbn [tokens sent concat length pageRequests app].
      rewrite <- !app_assoc. reflexivity.
    + cbn [sent]. rewrite length_app. cbn [length].
      replace (length (sent s) + 3)%nat with (S (length (sent s) + 2)) by lia.
      now apply (serves_tail net _ p).
    + cbn [length] in Hfuel. lia.
Qed.

(** With the request built, the first request of a call is the GET with
    the bearer token of the store. *)
Lemma makeAPIRequest_first (net : Net) (s : Session) (url : gostring) :
  newRequestOK net url = true ->
  exists more,
    sent (makeAPIRequest net s url).2 = sent s ++ Http.GET url (bearer (tokens s)) :: more.
Proof.
  intros Hok. destruct (makeAPIRequest_sent net s url) as (_ & _ & H).
  cbv zeta in H. destruct H as [H | [H | [H | H]]].
  - exfalso. revert H. unfold makeAPIRequest, send. rewrite Hok. cbn [negb].
    intros H.
    assert (forall s', (exists more, sent s' = (sent s ++ [Http.GET url (bearer (tokens s))]) ++ more)
                       -> sent s' <> sent s) as Hgrow.
    { intros s' [more E] E'. rewrite E' in E. rewrite <- app_assoc in E.
      apply (f_equal length) in E. rewrite length_app in E. cbn in E. lia. }
    revert H. apply Hgrow.
    destruct (answer net (length (sent s))) as [resp |]; [| exists []; cbn; now rewrite app_nil_r].
    destruct (Http.StatusCode resp =? Http.StatusUnauthorized);
      [| exists []; cbn; now rewrite app_nil_r].
    pose proof (refreshTokens_extends net
                  {| tokens := tokens s; sent := sent s ++ [Http.GET url (``"Bearer " ++ AccessToken (tokens s))] |})
      as (_ & _ & m1 & Hm1).
    destruct (refreshTokens net _) as [[e |] s1]; cbn [snd sent] in Hm1; cbn [snd].
    + now exists m1.
    + unfold send. destruct (answer net (length (sent s1))); cbn [snd sent];
        exists (m1 ++ [Http.GET url (``"Bearer " ++ AccessToken (tokens s1))]);
        now rewrite Hm1, <- !app_assoc.
  - rewrite H. now eexists.
  - rewrite H. now eexists.
  - rewrite H. now eexists.
Qed.

End RefreshFacts.

(** ** The club feed: what has been sent while the loop runs *)

Module ProgressFacts.
Import Strava FetchFacts RefreshFacts.

Lemma fetchLoopSession_extends (net : Net) (clubID : gostring) (fuel : nat) :
  forall s page, extends s (fetchLoopSession fuel net s clubID page).
Proof.
  induction fuel as [| fuel IH]; intros s page; [apply extends_refl |].
  cbn [fetchLoopSession].
  pose proof (makeAPIRequest_extends net s (pageURL clubID page)) as Hext.
  destruct (makeAPIRequest net s (pageURL clubID page)) as [[resp | err] s1]; cbn [snd] in Hext;
    [| exact Hext].
  destruct (negb _); [exact Hext |].
  destruct (decodeEvents net (Http.Body resp)) as [events |]; [| exact Hext].
  destruct (Nat.eqb _ _); [exact Hext |].
  destruct (_ <? _); [exact Hext |].
  exact (extends_trans _ _ _ Hext (IH s1 (page + 1))).
Qed.

(** When the loop returns, the session it returns is the one watched. *)
Lemma fetchLoop_session (net : Net) (clubID : gostring) (fuel : nat) :
  forall s page allEvents r s',
    fetchLoop fuel net s clubID page allEvents = Some (r, s') ->
    fetchLoopSession fuel net s clubID page = s'.
Proof.
  induction fuel as [| fuel IH]; intros s page allEvents r s' H; [discriminate |].
  cbn [fetchLoop] in H. cbn [fetchLoopSession].
  destruct (makeAPIRequest net s (pageURL clubID page)) as [[resp | err] s1].
  2: { now injection H as _ <-. }
  destruct (negb _); [now injection H as _ <- |].
  destruct (decodeEvents net (Http.Body resp)) as [events |]; [| now injection H as _ <-].
  destruct (Nat.eqb _ _); [now injection H as _ <- |].
  destruct (_ <? _); [now injection H as _ <- |].
  exact (IH _ _ _ _ _ H).
Qed.

(** After one round or more, the first request of the loop is on record:
    the GET of the first page with the bearer token the loop started
    with. *)
Lemma fetchLoopSession_first (net : Net) (clubID : gostring) (fuel : nat)
      (s : Session) (page : Z) :
  newRequestOK net (pageURL clubID page) = true ->
  exists more,
    sent (fetchLoopSession (S fuel) net s clubID page)
    = sent s ++ Http.GET (pageURL clubID page) (bearer (tokens s)) :: more.
Proof.
  intros Hok. cbn [fetchLoopSession].
  destruct (makeAPIRequest_first net s (pageURL clubID page) Hok) as (m & Hm).
  destruct (makeAPIRequest net s (pageURL clubID page)) as [[resp | err] s1]; cbn [snd] in Hm;
    [| now exists m].
  destruct (negb _); [now exists m |].
  destruct (decodeEvents net (Http.Body resp)) as [events |]; [| now exists m].
  destruct (Nat.eqb _ _); [now exists m |].
  destruct (_ <? _); [now exists m |].
  destruct (fetchLoopSession_extends net clubID fuel s1 (page + 1)) as (_ & _ & m' & Hm').
  exists (m ++ m'). rewrite Hm', Hm, <- app_assoc. reflexivity.
Qed.

End ProgressFacts.

Module PageFacts.
Import Strava FetchFacts.

(** What the network answers to the [n] requests from the [from]-th on,
    read as pages of events: a 200 whose body decodes. *)
Definition pagesServed (net : Net) (from n : nat) : list (option (list StravaEvent.t)) :=
  map (fun i => match answer net (from + i) with
                | Some resp =>
                    if Http.StatusCode resp =? Http.StatusOK
                    then decodeEvents net (Http.Body resp)
                    else None
                | None => None
                end) (seq 0 n).

Lemma pagesServed_serves (net : Net) (from : nat) (pages : list (list StravaEvent.t)) :
  pagesServed net from (length pages) = map Some pages -> serves net from pages.
Proof.
  intros H i page Hi.
  assert (pagesServed net from (length pages) !! i = Some (Some page)) as Hl.
  { rewrite H, list_lookup_fmap, Hi. reflexivity. }
  unfold pagesServed in Hl. rewrite list_lookup_fmap in Hl.
  assert (i < length pages)%nat as Hlt by exact (lookup_lt_Some _ _ _ Hi).
  rewrite lookup_seq_lt in Hl by exact Hlt. cbn in Hl.
  destruct (answer net (from + i)) as [[code body] |]; [| discriminate].
  cbn [Http.StatusCode Http.Body] in Hl.
  destruct (Z.eqb_spec code Http.StatusOK) as [-> | _]; [| discriminate].
  exists body. split; [reflexivity | congruence].
Qed.

End PageFacts.

Module AnswerFacts.
Import Strava FetchFacts.

(** The answers to the requests from the [from]-th up to, not including,
    the [to]-th are responses with status 200 or 401. *)
Definition answered (net : Net) (from to : nat) : Prop :=
  forall k, (from <= k < to)%nat ->
            exists resp, answer net k = Some resp
                         /\ (Http.StatusCode resp = 200 \/ Http.StatusCode resp = 401).

Lemma answered_join (net : Net) (a b c : nat) :
  answered net a b -> answered net b c -> answered net a c.
Proof.
  intros H1 H2 k Hk. destruct (Nat.lt_ge_cases k b); [apply H1 | apply H2]; lia.
Qed.

(** A call of [makeAPIRequest] that returns a response has met a 401 and
    the 200 of the token endpoint before it, or nothing. *)
Lemma makeAPIRequest_answered (net : Net) (s s' : Session) (url : gostring)
      (resp : Http.Response) :
  makeAPIRequest net s url = (Ok resp, s') ->
  (length (sent s) < length (sent s'))%nat
  /\ answer net (length (sent s') - 1) = Some resp
  /\ answered net (length (sent s)) (length (sent s') - 1).
Proof.
  unfold makeAPIRequest, send.
  destruct (newRequestOK net url); cbn [negb]; [| discriminate].
  destruct (answer net (length (sent s))) as [resp0 |] eqn:E0; [| discriminate].
  destruct (Z.eqb_spec (Http.StatusCode resp0) Http.StatusUnauthorized) as [H401 | _].
  2: { intros [= <- <-]. cbn [sent]. rewrite length_app. cbn [length].
       replace (length (sent s) + 1 - 1)%nat with (length (sent s)) by lia.
       split; [lia |]. split; [exact E0 |]. intros k Hk. lia. }
  unfold refreshTokens, send. cbn [tokens sent].
  rewrite length_app. cbn [length].
  destruct (answer net (length (sent s) + 1)) as [resp1 |] eqn:E1; [| discriminate].
  destruct (Z.eqb_spec (Http.StatusCode resp1) Http.StatusOK) as [H200 | _];
    cbn [negb]; [| discriminate].
  destruct (decodeTokenResponse net (Http.Body resp1)); [| discriminate].
  cbn [tokens sent]. rewrite !length_app. cbn [length].
  destruct (answer net (length (sent s) + 1 + 1)) as [resp2 |] eqn:E2; [| discriminate].
  intros [= <- <-]. cbn [sent]. rewrite !length_app. cbn [length].
  replace (length (sent s) + 1 + 1 + 1 - 1)%nat with (length (sent s) + 1 + 1)%nat by lia.
  split; [lia |]. split; [exact E2 |].
  intros k Hk.
  assert (k = length (sent s) \/ k = (length (sent s) + 1)%nat) as [-> | ->] by lia.
  - exists resp0. split; [exact E0 | now right].
  - exists resp1. split; [exact E1 | now left].
Qed.

Lemma fetchLoop_answered (net : Net) (clubID : gostring) (fuel : nat) :
  forall s page allEvents events s',
    fetchLoop fuel net s clubID page allEvents = Some (Ok events, s') ->
    answered net (length (sent s)) (length (sent s')).
Proof.
  induction fuel as [| fuel IH]; intros s page allEvents events s' H; [discriminate |].
  cbn [fetchLoop] in H.
  destruct (makeAPIRequest net s (pageURL clubID page)) as [[resp | err] s1] eqn:E;
    [| discriminate].
  apply makeAPIRequest_answered in E as (Hlen & Hlast & Hbefore).
  destruct (Z.eqb_spec (Http.StatusCode resp) Http.StatusOK) as [H200 | _];
    cbn [negb] in H; [| discriminate].
  assert (answered net (length (sent s)) (length (sent s1))) as Hround.
  { apply (answered_join net _ (length (sent s1) - 1)); [exact Hbefore |].
    intros k Hk. assert (k = (length (sent s1) - 1)%nat) as -> by lia.
    exists resp. split; [exact Hlast | now left]. }
  destruct (decodeEvents net (Http.Body resp)) as [page0 |]; [| discriminate].
  destruct (Nat.eqb _ _); [now injection H as _ <- |].
  destruct (_ <? _); [now injection H as _ <- |].
  apply (answered_join net _ (length (sent s1))); [exact Hround |].
  eapply IH, H.
Qed.

End AnswerFacts.



(** ** Redaction *)

Module ReplaceFacts.
Import Strings.

Lemma HasPrefix_split (old : gostring) : forall s,
  HasPrefix s old = true -> s = old ++ drop (length old) s.
Proof.
  induction old as [| c old IH]; intros s H; [reflexivity |].
  destruct s as [| x s]; [discriminate |].
  cbn [HasPrefix] in H. apply andb_prop in H as [H1 H2].
  apply bool_decide_eq_true in H1 as ->. cbn [length drop app]. f_equal. now apply IH.
Qed.

(** Bytes that are skipped are dropped. *)
Lemma replaceFrom_skip (old new : gostring) (s : gostring) : forall skip,
  replaceFrom old new skip s = replaceFrom old new 0 (drop skip s).
Proof.
  induction s as [| c s IH]; intros skip.
  - now rewrite drop_nil.
  - destruct skip as [| skip]; [reflexivity |]. cbn [replaceFrom drop]. apply IH.
Qed.

(** Replacing a text by itself changes nothing. *)
Lemma ReplaceAll_same (old : gostring) (s : gostring) :
  old <> [] -> ReplaceAll s old old = s.
Proof.
  intros Hold. unfold ReplaceAll.
  remember (length s) as n eqn:Hn. revert s Hn.
  induction n as [n IH] using lt_wf_ind. intros s Hn.
  destruct s as [| c s]; [reflexivity |].
  cbn [replaceFrom].
  destruct (HasPrefix (c :: s) old) eqn:E.
  - pose proof (HasPrefix_split old _ E) as Hs.
    destruct old as [| o old]; [congruence |].
    cbn [length Nat.pred]. rewrite replaceFrom_skip.
    cbn [app length drop] in Hs. injection Hs as -> Hs.
    rewrite (IH (length (drop (length old) s))).
    + cbn [app]. f_equal. now symmetry.
    + subst n. cbn [length]. rewrite length_drop. lia.
    + reflexivity.
  - f_equal. apply (IH (length s)); [subst n; cbn; lia | reflexivity].
Qed.

(** What holds of the bytes of the text and of the replacement holds of the
    bytes of the result. *)
Lemma replaceFrom_Forall (P : ascii -> Prop) (old new : gostring) (s : gostring) :
  Forall P new -> Forall P s -> forall skip, Forall P (replaceFrom old new skip s).
Proof.
  intros Hnew Hs. induction Hs as [| c s Hc _ IH]; intros skip; [constructor |].
  cbn [replaceFrom]. destruct skip as [| skip]; [| apply IH].
  destruct (HasPrefix (c :: s) old).
  - apply Forall_app. split; [exact Hnew | apply IH].
  - constructor; [exact Hc | apply IH].
Qed.

End ReplaceFacts.

Module RedactFacts.
Import Regexp.

(** A text without ASCII digit. *)
Definition noDigits (s : gostring) : Prop := Forall (fun c => Strconv.isDigit c = false) s.

(** A class of digits only. *)
Definition digitsOnly (k : class) : bool :=
  match k with
  | Digit | Digit1to9 | Digit1to3 => true
  | Space | SpaceOrHyphen => false
  end.

(** A piece that takes a digit wherever it matches. *)
Definition takesDigit (x : piece) : bool :=
  match x with
  | Lit c => Strconv.isDigit c
  | Rep k (S _) _ => digitsOnly k
  | _ => false
  end.

Lemma digitsOnly_digit (k : class) (c : ascii) :
  digitsOnly k = true -> inClass k c = true -> Strconv.isDigit c = true.
Proof.
  unfold Strconv.isDigit. destruct k; try discriminate; intros _ H; cbn in H;
    apply andb_prop in H as [H1 H2]; apply Z.leb_le in H1; apply Z.leb_le in H2;
    apply andb_true_intro; split; apply Z.leb_le; lia.
Qed.

(** A repetition of at least one digit matches nothing in a text without
    digits. *)
Lemma repeatThen_digit (rest : option ascii -> gostring -> option gostring)
      (k : class) (min : nat) (max : option nat) (prev : option ascii) (s : gostring) :
  digitsOnly k = true -> noDigits s -> repeatThen rest k (S min) max prev s = None.
Proof.
  intros Hk Hs. destruct Hs as [| c s Hc _]; [reflexivity |].
  cbn [repeatThen]. destruct (inClass k c) eqn:E; [| reflexivity].
  rewrite (digitsOnly_digit k c Hk E) in Hc. discriminate.
Qed.

(** A repetition in front of a rest that matches nothing matches
    nothing. *)
Lemma repeatThen_rest (rest : option ascii -> gostring -> option gostring)
      (k : class) (s : gostring) :
  (forall prev s', noDigits s' -> rest prev s' = None) ->
  noDigits s -> forall min max prev, repeatThen rest k min max prev s = None.
Proof.
  intros Hrest Hs. induction Hs as [| c s Hc Hs IH]; intros min max prev.
  - cbn [repeatThen]. destruct min; [apply Hrest; constructor | reflexivity].
  - cbn [repeatThen]. rewrite IH.
    assert (match min with O => rest prev (c :: s) | S _ => None end = None) as ->
      by (destruct min; [apply Hrest; now constructor | reflexivity]).
    now destruct (_ && _).
Qed.

Lemma literalAt_noDigits (l : gostring) : forall prev s prev' s',
  literalAt l prev s = Some (prev', s') -> noDigits s -> noDigits s'.
Proof.
  induction l as [| c l IH]; intros prev s prev' s' H Hs.
  - now injection H as _ <-.
  - destruct s as [| x s]; [discriminate |]. cbn [literalAt] in H.
    destruct (bool_decide (x = c)); [| discriminate].
    inversion Hs; subst. eapply IH; eassumption.
Qed.

(** A pattern with a piece that takes a digit matches nowhere in a text
    without digits. *)
Lemma matchHere_noDigits (p : pattern) :
  existsb takesDigit p = true ->
  forall prev s, noDigits s -> matchHere p prev s = None.
Proof.
  induction p as [| x p IH]; intros Hp prev s Hs; [discriminate |].
  cbn [existsb] in Hp. destruct (takesDigit x) eqn:Ex.
  - destruct x as [| c | k [| min] max | l]; try discriminate.
    + cbn [matchHere]. destruct Hs as [| y s Hy _]; [reflexivity |].
      destruct (decide (y = c)) as [-> | Hne].
      * cbn [takesDigit] in Ex. congruence.
      * now rewrite bool_decide_eq_false_2.
    + cbn [matchHere]. now apply repeatThen_digit.
  - cbn [orb] in Hp. specialize (IH Hp).
    destruct x as [| c | k min max | l]; cbn [matchHere].
    + destruct (atBoundary prev s); [now apply IH | reflexivity].
    + destruct Hs as [| y s Hy Hs]; [reflexivity |].
      destruct (bool_decide (y = c)); [now apply IH | reflexivity].
    + now apply repeatThen_rest.
    + destruct (literalAt l prev s) as [[prev' s'] |] eqn:El; [| now apply IH].
      rewrite (IH prev' s') by (eapply literalAt_noDigits; eassumption).
      now apply IH.
Qed.

Lemma replaceFrom_noDigits (p : pattern) (repl : gostring) (s : gostring) :
  existsb takesDigit p = true -> noDigits s ->
  forall prev, replaceFrom p repl 0 prev s = s.
Proof.
  intros Hp Hs. induction Hs as [| c s Hc Hs IH]; intros prev; [reflexivity |].
  cbn [replaceFrom].
  rewrite (matchHere_noDigits p Hp prev (c :: s)) by now constructor.
  now rewrite IH.
Qed.

Lemma patterns_noDigits (ps : list pattern) (repl : gostring) (s : gostring) :
  forallb (existsb takesDigit) ps = true -> noDigits s ->
  fold_left (fun result pattern => ReplaceAllString pattern result repl) ps s = s.
Proof.
  induction ps as [| p ps IH]; intros Hps Hs; [reflexivity |].
  cbn [forallb] in Hps. apply andb_prop in Hps as [Hp Hps].
  cbn [fold_left]. unfold ReplaceAllString at 2.
  rewrite replaceFrom_noDigits by assumption. now apply IH.
Qed.

End RedactFacts.

(** ** Redaction: what a pattern matches *)

Module MatchFacts.
Import Regexp.

(** The last byte of [w], or [prev] when [w] is empty: the byte in front of
    what follows [w]. *)
Fixpoint lastOr (prev : option ascii) (w : gostring) : option ascii :=
  match w with
  | [] => prev
  | c :: w' => lastOr (Some c) w'
  end.

Lemma lastOr_app (u v : gostring) : forall prev,
  lastOr prev (u ++ v) = lastOr (lastOr prev u) v.
Proof. induction u as [| c u IH]; intros prev; [reflexivity | apply IH]. Qed.

Lemma lastOr_nonempty (w : gostring) : forall prev prev',
  w <> [] -> lastOr prev w = lastOr prev' w.
Proof. destruct w; [congruence | reflexivity]. Qed.

Lemma lastOr_last (u : gostring) : lastOr None u = last u.
Proof.
  assert (forall prev, lastOr prev u = match last u with Some c => Some c | None => prev end) as H.
  { induction u as [| c u IH]; intros prev; [reflexivity |].
    cbn [lastOr]. rewrite IH. destruct u as [| a u]; [reflexivity |].
    change (last (c :: a :: u)) with (last (a :: u)).
    destruct (last (a :: u)) eqn:E; [reflexivity |]. apply last_None in E. discriminate. }
  rewrite H. now destruct (last u).
Qed.

(** The first byte of [w], or the lookahead [la] when [w] is empty: the
    byte behind what precedes [w]. *)
Definition nextOf (w : gostring) (la : option ascii) : option ascii :=
  match w with
  | c :: _ => Some c
  | [] => la
  end.

Lemma head_app (w rest : gostring) : head (w ++ rest) = nextOf w (head rest).
Proof. now destruct w. Qed.

Definition fits (max : option nat) (n : nat) : Prop :=
  match max with
  | None => True
  | Some m => (n <= m)%nat
  end.

(** [Consumes p prev w la]: the pattern [p] matches exactly the text [w]
    when [prev] is the byte before it and [la] the byte behind it. *)
Fixpoint Consumes (p : pattern) (prev : option ascii) (w : gostring) (la : option ascii)
  : Prop :=
  match p with
  | [] => w = []
  | Boundary :: p' =>
      xorb (isWord prev) (isWord (nextOf w la)) = true /\ Consumes p' prev w la
  | Lit c :: p' => exists w', w = c :: w' /\ Consumes p' (Some c) w' la
  | Rep k min max :: p' =>
      exists r w',
        w = r ++ w' /\ Forall (fun c => inClass k c = true) r
        /\ (min <= length r)%nat /\ fits max (length r)
        /\ Consumes p' (lastOr prev r) w' la
  | OptLit l :: p' =>
      (exists w', w = l ++ w' /\ Consumes p' (lastOr prev l) w' la)
      \/ Consumes p' prev w la
  end.

Lemma repeatThen_sound (rest : option ascii -> gostring -> option gostring) (k : class)
      (s : gostring) : forall min max prev after,
  repeatThen rest k min max prev s = Some after ->
  exists r s1,
    s = r ++ s1 /\ Forall (fun c => inClass k c = true) r
    /\ (min <= length r)%nat /\ fits max (length r)
    /\ rest (lastOr prev r) s1 = Some after.
Proof.
  assert (forall min max prev s after,
            match min with O => rest prev s | S _ => None end = Some after ->
            exists r s1,
              s = r ++ s1 /\ Forall (fun c => inClass k c = true) r
              /\ (min <= length r)%nat /\ fits max (length r)
              /\ rest (lastOr prev r) s1 = Some after) as Hhere.
  { intros [| min] max prev s0 after H; [| discriminate].
    exists [], s0. repeat split; [constructor | reflexivity | destruct max; cbn; lia | exact H]. }
  induction s as [| c s IH]; intros min max prev after H.
  - cbn [repeatThen] in H. now apply Hhere.
  - cbn [repeatThen] in H.
    destruct (inClass k c && negb (bool_decide (max = Some 0%nat))) eqn:E;
      [| now apply Hhere].
    apply andb_prop in E as [Ec Emax]. apply negb_true_iff, bool_decide_eq_false in Emax.
    destruct (repeatThen rest k (Nat.pred min) (Nat.pred <$> max) (Some c) s) as [a |] eqn:Er;
      [| now apply Hhere].
    injection H as ->.
    destruct (IH _ _ _ _ Er) as (r & s1 & -> & Hr & Hmin & Hmax & Hrest).
    exists (c :: r), s1. repeat split; [now constructor | cbn; lia | | exact Hrest].
    destruct max as [[| m] |]; cbn in *; [congruence | lia | exact I].
Qed.

Lemma repeatThen_complete (rest : option ascii -> gostring -> option gostring) (k : class)
      (r : gostring) : forall s1 min max prev,
  Forall (fun c => inClass k c = true) r ->
  (min <= length r)%nat -> fits max (length r) ->
  is_Some (rest (lastOr prev r) s1) ->
  is_Some (repeatThen rest k min max prev (r ++ s1)).
Proof.
  induction r as [| c r IH]; intros s1 min max prev Hr Hmin Hmax Hrest.
  - cbn [length] in Hmin. assert (min = 0%nat) as -> by lia. cbn [app lastOr] in *.
    destruct s1 as [| x s1]; cbn [repeatThen]; [exact Hrest |].
    destruct (_ && _); [| exact Hrest].
    destruct (repeatThen rest k _ _ _ s1); [now eexists | exact Hrest].
  - inversion Hr as [| ? ? Hc Hr']; subst. cbn [app repeatThen]. rewrite Hc.
    assert (max <> Some 0%nat) as Hne by (intros ->; cbn in Hmax; lia).
    rewrite (bool_decide_eq_false_2 _ Hne). cbn [negb andb].
    destruct (IH s1 (Nat.pred min) (Nat.pred <$> max) (Some c) Hr') as [a ->];
      [cbn in Hmin; lia | destruct max as [m |]; cbn in *; [lia | exact I] | exact Hrest |].
    now eexists.
Qed.

Lemma literalAt_spec (l : gostring) : forall prev s prev' s',
  literalAt l prev s = Some (prev', s') <-> s = l ++ s' /\ prev' = lastOr prev l.
Proof.
  induction l as [| c l IH]; intros prev s prev' s'.
  - cbn. split; [now intros [= -> ->] | now intros [-> ->]].
  - destruct s as [| x s]; cbn [literalAt app lastOr].
    + split; [discriminate | now intros [? _]].
    + destruct (decide (x = c)) as [-> | Hne].
      * rewrite bool_decide_eq_true_2 by reflexivity. rewrite IH.
        split; [now intros [-> ->] | now intros [[= ->] ->]].
      * rewrite bool_decide_eq_false_2 by exact Hne.
        split; [discriminate | intros [[= ? _] _]; congruence].
Qed.

(** What the matcher finds is a match. *)
Lemma matchHere_sound (p : pattern) : forall prev s rest,
  matchHere p prev s = Some rest ->
  exists w, s = w ++ rest /\ Consumes p prev w (head rest).
Proof.
  induction p as [| x p IH]; intros prev s rest H.
  - injection H as ->. now exists [].
  - destruct x as [| c | k min max | l]; cbn [matchHere] in H.
    + destruct (atBoundary prev s) eqn:E; [| discriminate].
      destruct (IH _ _ _ H) as (w & -> & Hw). exists w. split; [reflexivity |].
      split; [| exact Hw]. unfold atBoundary in E. now rewrite head_app in E.
    + destruct s as [| y s]; [discriminate |].
      destruct (decide (y = c)) as [-> | Hne];
        [rewrite bool_decide_eq_true_2 in H by reflexivity
        | rewrite bool_decide_eq_false_2 in H by exact Hne; discriminate].
      destruct (IH _ _ _ H) as (w & -> & Hw). exists (c :: w). split; [reflexivity |].
      now exists w.
    + apply repeatThen_sound in H as (r & s1 & -> & Hr & Hmin & Hmax & Hrest).
      destruct (IH _ _ _ Hrest) as (w & -> & Hw). exists (r ++ w).
      split; [now rewrite app_assoc |]. now exists r, w.
    + destruct (literalAt l prev s) as [[prev' s'] |] eqn:El.
      * apply literalAt_spec in El as [-> ->].
        destruct (matchHere p (lastOr prev l) s') as [a |] eqn:Em.
        -- injection H as ->. destruct (IH _ _ _ Em) as (w & -> & Hw).
           exists (l ++ w). split; [now rewrite app_assoc |]. left. now exists w.
        -- destruct (IH _ _ _ H) as (w & Hs & Hw). exists w. split; [exact Hs | now right].
      * destruct (IH _ _ _ H) as (w & Hs & Hw). exists w. split; [exact Hs | now right].
Qed.

(** Where there is a match the matcher finds one. *)
Lemma matchHere_complete (p : pattern) : forall prev w x,
  Consumes p prev w (head x) -> is_Some (matchHere p prev (w ++ x)).
Proof.
  induction p as [| y p IH]; intros prev w x H.
  - cbn in H. subst w. now eexists.
  - destruct y as [| c | k min max | l]; cbn [Consumes] in H; cbn [matchHere].
    + destruct H as [Hb H]. unfold atBoundary. rewrite head_app, Hb. now apply IH.
    + destruct H as (w' & -> & H). cbn [app].
      rewrite bool_decide_eq_true_2 by reflexivity. now apply IH.
    + destruct H as (r & w' & -> & Hr & Hmin & Hmax & H). rewrite <- app_assoc.
      apply repeatThen_complete; try assumption. now apply IH.
    + destruct H as [(w' & -> & H) | H].
      * rewrite <- app_assoc.
        assert (literalAt l prev (l ++ w' ++ x) = Some (lastOr prev l, w' ++ x)) as ->
          by now apply literalAt_spec.
        destruct (IH _ _ _ H) as [a ->]. now eexists.
      * destruct (literalAt l prev (w ++ x)) as [[prev' s'] |]; [| now apply IH].
        destruct (matchHere p prev' s'); [now eexists | now apply IH].
Qed.

(** A match depends on the bytes around it only through their being word
    bytes or not. *)
Lemma Consumes_context (p : pattern) : forall prev prev' w la la',
  isWord prev = isWord prev' -> isWord la = isWord la' ->
  Consumes p prev w la -> Consumes p prev' w la'.
Proof.
  induction p as [| y p IH]; intros prev prev' w la la' Hp Hl H; [exact H |].
  destruct y as [| c | k min max | l]; cbn [Consumes] in *.
  - destruct H as [Hb H]. split; [| now apply (IH prev prev' w la la')].
    rewrite <- Hp. destruct w; cbn [nextOf] in *; [now rewrite <- Hl | exact Hb].
  - destruct H as (w' & -> & H). exists w'. split; [reflexivity |].
    now apply (IH (Some c) (Some c) w' la la').
  - destruct H as (r & w' & -> & Hr & Hmin & Hmax & H). exists r, w'.
    repeat split; try assumption.
    apply (IH (lastOr prev r) (lastOr prev' r) w' la la'); [| exact Hl | exact H].
    destruct r; [exact Hp | reflexivity].
  - destruct H as [(w' & -> & H) | H].
    + left. exists w'. split; [reflexivity |].
      apply (IH (lastOr prev l) (lastOr prev' l) w' la la'); [| exact Hl | exact H].
      destruct l; [exact Hp | reflexivity].
    + right. now apply (IH prev prev' w la la').
Qed.

End MatchFacts.

(** ** Redaction: the patterns of the program *)

Module GoodFacts.
Import Regexp MatchFacts.

Definition marker : gostring := Strava.redacted.

Definition inMarker (c : ascii) : bool := existsb (fun x => bool_decide (x = c)) marker.

(** A pattern starts well: with [\b] and a word byte, or with a byte that
    is no word byte; the byte is none of the marker. *)
Definition startsOK (p : pattern) : bool :=
  match p with
  | Boundary :: Lit c :: _ => isWordChar c && negb (inMarker c)
  | Lit c :: _ => negb (isWordChar c) && negb (inMarker c)
  | _ => false
  end.

(** No piece of the pattern takes an opening bracket. *)
Fixpoint noBracket (p : pattern) : bool :=
  match p with
  | [] => true
  | Lit c :: p' => negb (bool_decide (c = "["%char)) && noBracket p'
  | OptLit l :: p' => forallb (fun c => negb (bool_decide (c = "["%char))) l && noBracket p'
  | _ :: p' => noBracket p'
  end.

(** The pattern ends with at least one digit and [\b]. *)
Fixpoint endsDigit (p : pattern) : bool :=
  match p with
  | [] => false
  | Rep k (S _) _ :: p' =>
      match p' with
      | [Boundary] => RedactFacts.digitsOnly k
      | _ => endsDigit p'
      end
  | _ :: p' => endsDigit p'
  end.

(** The pattern has no [\b] and ends with a literal byte that is no word
    byte. *)
Fixpoint endsPlain (p : pattern) : bool :=
  match p with
  | [] => false
  | Boundary :: _ => false
  | Lit c :: p' =>
      match p' with
      | [] => negb (isWordChar c)
      | _ => endsPlain p'
      end
  | _ :: p' => endsPlain p'
  end.

Definition good (p : pattern) : bool :=
  startsOK p && noBracket p && (endsDigit p || endsPlain p).

Lemma starts_spec (p : pattern) (prev : option ascii) (w : gostring) (la : option ascii) :
  startsOK p = true -> Consumes p prev w la ->
  exists c w',
    w = c :: w' /\ inMarker c = false
    /\ ((isWordChar c = true /\ isWord prev = false)
        \/ (isWordChar c = false /\ forall prev', Consumes p prev' w la)).
Proof.
  intros Hp H. destruct p as [| [| c | |] p]; try discriminate.
  - destruct p as [| [| c | |] p]; try discriminate.
    cbn [startsOK] in Hp. apply andb_prop in Hp as [Hw Hm]. apply negb_true_iff in Hm.
    cbn [Consumes] in H. destruct H as (Hb & w' & -> & H).
    exists c, w'. repeat split; [exact Hm |]. left. split; [exact Hw |].
    cbn [nextOf isWord] in Hb. rewrite Hw in Hb. now destruct (isWord prev).
  - cbn [startsOK] in Hp. apply andb_prop in Hp as [Hw Hm].
    apply negb_true_iff in Hm. apply negb_true_iff in Hw.
    cbn [Consumes] in H. destruct H as (w' & -> & H).
    exists c, w'. repeat split; [exact Hm |]. right. split; [exact Hw |].
    intros prev'. cbn [Consumes]. now exists w'.
Qed.

Lemma class_no_bracket (k : class) (c : ascii) : inClass k c = true -> c <> "["%char.
Proof. intros H ->. now destruct k. Qed.

Lemma bracket_spec (p : pattern) : forall prev w la,
  noBracket p = true -> Consumes p prev w la -> Forall (fun c => c <> "["%char) w.
Proof.
  induction p as [| y p IH]; intros prev w la Hp H.
  - cbn in H. subst w. constructor.
  - destruct y as [| c | k min max | l]; cbn [noBracket Consumes] in *.
    + destruct H as [_ H]. now apply (IH prev w la).
    + apply andb_prop in Hp as [Hc Hp]. apply negb_true_iff, bool_decide_eq_false in Hc.
      destruct H as (w' & -> & H). constructor; [exact Hc | now apply (IH (Some c) w' la)].
    + destruct H as (r & w' & -> & Hr & _ & _ & H). apply Forall_app. split.
      * eapply List.Forall_impl; [| exact Hr]. intros c. apply class_no_bracket.
      * now apply (IH (lastOr prev r) w' la).
    + apply andb_prop in Hp as [Hl Hp]. destruct H as [(w' & -> & H) | H].
      * apply Forall_app. split; [| now apply (IH (lastOr prev l) w' la)].
        apply List.Forall_forall. intros c Hc.
        rewrite forallb_forall in Hl. specialize (Hl c Hc).
        now apply negb_true_iff, bool_decide_eq_false in Hl.
      * now apply (IH prev w la).
Qed.

Lemma digits_word (k : class) (r : gostring) (prev : option ascii) :
  RedactFacts.digitsOnly k = true -> Forall (fun c => inClass k c = true) r -> r <> [] ->
  isWord (lastOr prev r) = true.
Proof.
  intros Hk Hr. revert prev. induction Hr as [| c r Hc Hr IH]; intros prev Hne; [congruence |].
  cbn [lastOr]. destruct r as [| d r]; [| apply IH; discriminate].
  cbn [lastOr isWord]. pose proof (RedactFacts.digitsOnly_digit k c Hk Hc) as Hd.
  unfold Strconv.isDigit in Hd. unfold isWordChar. now rewrite Hd.
Qed.

Lemma endsDigit_spec (p : pattern) : forall prev w la,
  endsDigit p = true -> Consumes p prev w la ->
  isWord (lastOr prev w) = true /\ isWord la = false.
Proof.
  induction p as [| y p IH]; intros prev w la Hp H; [discriminate |].
  destruct y as [| c | k min max | l]; cbn [endsDigit Consumes] in *.
  - destruct H as [_ H]. now apply IH.
  - destruct H as (w' & -> & H). cbn [lastOr]. now apply IH.
  - destruct H as (r & w' & -> & Hr & Hmin & Hmax & H). rewrite lastOr_app.
    destruct min as [| min]; [now apply IH |].
    destruct p as [| [| | |] [| z p]]; try (now apply IH).
    cbn [Consumes] in H. destruct H as [Hb ->]. cbn [nextOf lastOr] in *.
    assert (isWord (lastOr prev r) = true) as Hw
      by (apply (digits_word k); [exact Hp | exact Hr | destruct r; [cbn in Hmin; lia | discriminate]]).
    rewrite Hw in Hb |- *. split; [reflexivity | now destruct (isWord la)].
  - destruct H as [(w' & -> & H) | H]; [rewrite lastOr_app |]; now apply IH.
Qed.

Lemma endsPlain_spec (p : pattern) : forall prev w la,
  endsPlain p = true -> Consumes p prev w la ->
  isWord (lastOr prev w) = false /\ forall la', Consumes p prev w la'.
Proof.
  induction p as [| y p IH]; intros prev w la Hp H; [discriminate |].
  destruct y as [| c | k min max | l]; cbn [endsPlain Consumes] in *.
  - discriminate.
  - destruct H as (w' & -> & H). cbn [lastOr]. destruct p as [| z p].
    + cbn [Consumes] in H. subst w'. cbn [lastOr isWord].
      apply negb_true_iff in Hp. split; [exact Hp |]. intros la'. now exists [].
    + destruct (IH (Some c) w' la Hp H) as [H1 H2]. split; [exact H1 |].
      intros la'. exists w'. split; [reflexivity | apply H2].
  - destruct H as (r & w' & -> & Hr & Hmin & Hmax & H). rewrite lastOr_app.
    destruct (IH _ _ _ Hp H) as [H1 H2]. split; [exact H1 |].
    intros la'. exists r, w'. repeat split; try assumption. apply H2.
  - destruct H as [(w' & -> & H) | H].
    + rewrite lastOr_app. destruct (IH _ _ _ Hp H) as [H1 H2]. split; [exact H1 |].
      intros la'. left. exists w'. split; [reflexivity | apply H2].
    + destruct (IH _ _ _ Hp H) as [H1 H2]. split; [exact H1 |].
      intros la'. right. apply H2.
Qed.

Lemma good_parts (p : pattern) :
  good p = true ->
  startsOK p = true /\ noBracket p = true /\ (endsDigit p = true \/ endsPlain p = true).
Proof.
  unfold good. intros H. apply andb_prop in H as [H H3]. apply andb_prop in H as [H1 H2].
  repeat split; try assumption. now apply orb_prop.
Qed.

(** A match is not empty. *)
Lemma good_nonempty (p : pattern) (prev : option ascii) (w : gostring) (la : option ascii) :
  good p = true -> Consumes p prev w la -> w <> [].
Proof.
  intros Hp H. apply good_parts in Hp as (Hs & _ & _).
  destruct (starts_spec p prev w la Hs H) as (c & w' & -> & _). discriminate.
Qed.

(** A match where the byte in front is another, of the same kind or in
    front of a byte that is no word byte. *)
Lemma good_front (q : pattern) (prev prev' : option ascii) (w : gostring) (la : option ascii) :
  good q = true -> Consumes q prev' w la ->
  isWord prev' = isWord prev \/ isWord (nextOf w None) = false ->
  Consumes q prev w la.
Proof.
  intros Hq H Hc. apply good_parts in Hq as (Hs & _ & _).
  destruct (starts_spec q prev' w la Hs H) as (c & w' & -> & _ & [[Hw _] | [_ Hany]]).
  - cbn [nextOf isWord] in Hc. rewrite Hw in Hc. destruct Hc as [Hc | Hc]; [| discriminate].
    now apply (Consumes_context q prev' prev (c :: w') la la).
  - apply Hany.
Qed.

(** A match that ends where a match of another pattern starts. *)
Lemma good_adjacent (p q : pattern) (ctx : option ascii) (w m : gostring)
      (la la2 : option ascii) :
  good p = true -> good q = true ->
  Consumes q ctx w la -> Consumes p (lastOr ctx w) m la2 ->
  Consumes q ctx w (nextOf m la2).
Proof.
  intros Hp Hq Hw Hm.
  apply good_parts in Hp as (Hps & _ & _). apply good_parts in Hq as (_ & _ & [He | He]).
  - destruct (endsDigit_spec q ctx w la He Hw) as [Hlast Hla].
    destruct (starts_spec p _ m la2 Hps Hm) as (c & m' & -> & _ & [[_ Hprev] | [Hc _]]);
      [congruence |].
    apply (Consumes_context q ctx ctx w la (Some c)); [reflexivity | | exact Hw].
    cbn [isWord]. congruence.
  - now apply (endsPlain_spec q ctx w la He Hw).
Qed.

(** Behind a match the closing bracket of the marker stands for the last
    byte of the match. *)
Lemma good_behind (p : pattern) (prev : option ascii) (m : gostring) (la : option ascii) :
  good p = true -> Consumes p prev m la ->
  isWord (Some "]"%char) = isWord (lastOr prev m) \/ isWord la = false.
Proof.
  intros Hp H. apply good_parts in Hp as (_ & _ & [He | He]).
  - right. now apply (endsDigit_spec p prev m la He H).
  - left. destruct (endsPlain_spec p prev m la He H) as [-> _]. reflexivity.
Qed.

End GoodFacts.

(** ** Redaction: one pass *)

Module PassFacts.
Import Regexp MatchFacts GoodFacts.

(** One pass over the text [s] behind the byte [prev]. *)
Definition scan (p : pattern) (prev : option ascii) (s : gostring) : gostring :=
  replaceFrom p marker 0 prev s.

Lemma replaceFrom_passes_over (p : pattern) (repl : gostring) (u : gostring) : forall prev rest,
  replaceFrom p repl (length u) prev (u ++ rest) = replaceFrom p repl 0 (lastOr prev u) rest.
Proof.
  induction u as [| c u IH]; intros prev rest.
  - cbn [length app lastOr]. reflexivity.
  - cbn [length app replaceFrom lastOr]. apply IH.
Qed.

Lemma scan_miss (p : pattern) (prev : option ascii) (c : ascii) (s : gostring) :
  matchHere p prev (c :: s) = None -> scan p prev (c :: s) = c :: scan p (Some c) s.
Proof. intros H. unfold scan. cbn [replaceFrom]. now rewrite H. Qed.

Lemma scan_match (p : pattern) (prev : option ascii) (m rest : gostring) :
  m <> [] -> matchHere p prev (m ++ rest) = Some rest ->
  scan p prev (m ++ rest) = marker ++ scan p (lastOr prev m) rest.
Proof.
  intros Hm H. unfold scan. destruct m as [| c m]; [congruence |].
  cbn [app] in H. cbn [app replaceFrom]. rewrite H.
  cbn [length]. rewrite length_app.
  replace (S (length m + length rest) - length rest)%nat with (S (length m)) by lia.
  now rewrite replaceFrom_passes_over.
Qed.

(** How a pass of a good pattern goes on. *)
Lemma scan_cases (p : pattern) (prev : option ascii) (s : gostring) :
  good p = true ->
  (s = [] /\ scan p prev s = [])
  \/ (exists c s', s = c :: s' /\ matchHere p prev s = None
                   /\ scan p prev s = c :: scan p (Some c) s')
  \/ (exists m rest, m <> [] /\ s = m ++ rest /\ Consumes p prev m (head rest)
                     /\ scan p prev s = marker ++ scan p (lastOr prev m) rest).
Proof.
  intros Hp. destruct s as [| c s]; [now left | right].
  destruct (matchHere p prev (c :: s)) as [rest |] eqn:E.
  - right. destruct (matchHere_sound p prev _ rest E) as (m & Hs & Hm).
    pose proof (good_nonempty p prev m _ Hp Hm) as Hne.
    exists m, rest. split; [exact Hne |]. split; [exact Hs |]. split; [exact Hm |].
    rewrite Hs in E |- *. now apply scan_match.
  - left. exists c, s. split; [reflexivity |]. split; [reflexivity | now apply scan_miss].
Qed.

(** Up to the first opening bracket the result of a pass is the text. *)
Lemma scan_prefix (p : pattern) (w : gostring) : forall prev s ro,
  good p = true -> scan p prev s = w ++ ro -> Forall (fun c => c <> "["%char) w ->
  exists rs, s = w ++ rs /\ ro = scan p (lastOr prev w) rs.
Proof.
  induction w as [| c w IH]; intros prev s ro Hp H Hw.
  - exists s. now split.
  - inversion Hw as [| ? ? Hc Hw']; subst.
    destruct (scan_cases p prev s Hp)
      as [[-> Hs] | [(c' & s' & -> & Hnone & Hs) | (m & rest & Hm & -> & _ & Hs)]];
      rewrite Hs in H.
    + discriminate.
    + injection H as -> H. destruct (IH _ _ _ Hp H Hw') as (rs & -> & Hro).
      exists rs. now split.
    + injection H as <- _. congruence.
Qed.

(** The byte that follows a piece of the result, against the byte that
    follows it in the text. *)
Lemma scan_next (p q : pattern) (ctx : option ascii) (w : gostring) (prev : option ascii)
      (rs : gostring) :
  good p = true -> good q = true -> prev = lastOr ctx w ->
  Consumes q ctx w (head (scan p prev rs)) -> Consumes q ctx w (head rs).
Proof.
  intros Hp Hq -> H.
  destruct (scan_cases p (lastOr ctx w) rs Hp)
    as [[-> Hs] | [(c' & s' & -> & Hnone & Hs) | (m & rest & Hm & -> & Hcm & Hs)]];
    rewrite Hs in H.
  - exact H.
  - exact H.
  - rewrite head_app. exact (good_adjacent p q ctx w m _ (head rest) Hp Hq H Hcm).
Qed.

(** [NoMatch q prev t]: nowhere in [t], which stands behind the byte
    [prev], does [q] match. *)
Definition NoMatch (q : pattern) (prev : option ascii) (t : gostring) : Prop :=
  forall u v, t = u ++ v -> matchHere q (lastOr prev u) v = None.

Lemma NoMatch_tail (q : pattern) (prev : option ascii) (m rest : gostring) :
  NoMatch q prev (m ++ rest) -> NoMatch q (lastOr prev m) rest.
Proof.
  intros H u v ->. rewrite <- lastOr_app. apply H. now rewrite app_assoc.
Qed.

Lemma marker_inside (o u v : gostring) :
  marker ++ o = u ++ v -> (length u < length marker)%nat ->
  exists c v', v = c :: v' /\ inMarker c = true.
Proof.
  intros H Hu.
  assert (v = drop (length u) marker ++ o) as ->.
  { apply (f_equal (drop (length u))) in H.
    rewrite drop_app_length in H. rewrite <- H.
    rewrite drop_app_le by lia. reflexivity. }
  assert (forall n, (n < length marker)%nat ->
                    exists c t, drop n marker = c :: t /\ inMarker c = true) as Hin.
  { intros n Hn.
    do 23 (destruct n as [| n]; [eexists _, _; split; reflexivity |]).
    cbn in Hn. lia. }
  destruct (Hin _ Hu) as (c & t & -> & Hc). now exists c, (t ++ o).
Qed.

(** A pass with [p] leaves no match of [p], and it keeps a text that has no
    match of [q] free of them.  [prev'] is the byte in front of the result:
    the byte in front of the text, or the closing bracket of a marker. *)
Lemma pass_clean (p q : pattern) :
  good p = true -> good q = true ->
  forall n s, (length s <= n)%nat ->
  forall prev prev',
    isWord prev' = isWord prev \/ isWord (head s) = false ->
    p = q \/ NoMatch q prev s ->
    NoMatch q prev' (scan p prev s).
Proof.
  intros Hp Hq. induction n as [| n IH]; intros s Hlen prev prev' Hctx Hfree u v Huv.
  - destruct s; [| cbn in Hlen; lia]. cbn in Huv.
    destruct u; [| discriminate]. cbn in Huv. subst v. cbn [lastOr].
    destruct (matchHere q prev' []) as [rest |] eqn:E; [| reflexivity].
    destruct (matchHere_sound q _ _ _ E) as (w & Hs & Hw).
    destruct w; [| discriminate]. now apply good_nonempty in Hw.
  - destruct (scan_cases p prev s Hp)
      as [[-> Hs] | [(c & s' & -> & Hnone & Hs) | (m & rest & Hm & -> & Hcm & Hs)]];
      rewrite Hs in Huv.
    + apply (IH [] ltac:(cbn; lia) prev prev' Hctx Hfree u v).
      now rewrite <- Huv.
    + (* no match at the first byte, which is copied *)
      cbn [length] in Hlen.
      assert (p = q \/ NoMatch q (Some c) s') as Hfree'
        by (destruct Hfree as [-> | H]; [now left | right; exact (NoMatch_tail q prev [c] s' H)]).
      destruct u as [| c0 u].
      * cbn [app lastOr] in *. subst v.
        destruct (matchHere q prev' (c :: scan p (Some c) s')) as [ro |] eqn:E; [| reflexivity].
        exfalso.
        destruct (matchHere_sound q _ _ _ E) as (w & Hs' & Hw).
        pose proof (bracket_spec q _ _ _ (proj1 (proj2 (good_parts q Hq))) Hw) as Hbr.
        pose proof (good_nonempty q _ _ _ Hq Hw) as Hne.
        destruct w as [| c1 w]; [congruence |]. injection Hs' as <- Hs'.
        inversion Hbr as [| ? ? _ Hbr']; subst.
        destruct (scan_prefix p w (Some c) s' ro Hp Hs' Hbr') as (rs & -> & Hro).
        assert (Consumes q prev (c :: w) (head rs)) as Hin.
        { apply (good_front q prev prev'); [exact Hq | | exact Hctx].
          apply (scan_next p q prev' (c :: w) (lastOr (Some c) w) rs Hp Hq); [| now rewrite <- Hro].
          reflexivity. }
        apply (matchHere_complete q prev (c :: w) rs) in Hin as [a Ha].
        destruct Hfree as [<- | Hfree]; [cbn [app] in Ha; congruence |].
        specialize (Hfree [] ((c :: w) ++ rs) eq_refl). cbn [lastOr] in Hfree. congruence.
      * injection Huv as <- Huv. cbn [lastOr].
        apply (IH s' ltac:(lia) (Some c) (Some c) (or_introl eq_refl) Hfree' u v Huv).
    + (* a match, replaced by the marker *)
      assert (length rest < length (m ++ rest))%nat as Hshort
        by (rewrite length_app; destruct m; [congruence | cbn; lia]).
      destruct (Nat.lt_ge_cases (length u) (length marker)) as [Hu | Hu].
      * destruct (marker_inside _ u v Huv Hu) as (c & v' & -> & Hc).
        destruct (matchHere q (lastOr prev' u) (c :: v')) as [ro |] eqn:E; [| reflexivity].
        exfalso.
        destruct (matchHere_sound q _ _ _ E) as (w & Hs' & Hw).
        destruct (starts_spec q _ w _ (proj1 (good_parts q Hq)) Hw) as (c1 & w' & -> & Hm1 & _).
        injection Hs' as <- _. congruence.
      * assert (u = marker ++ drop (length marker) u /\ scan p (lastOr prev m) rest
                = drop (length marker) u ++ v) as [Hu' Hrest].
        { pose proof (f_equal (take (length marker)) Huv) as H1.
          rewrite take_app_length, take_app_le in H1 by exact Hu.
          pose proof (f_equal (drop (length marker)) Huv) as H2.
          rewrite drop_app_length, drop_app_le in H2 by exact Hu.
          split; [| exact H2]. rewrite H1 at 1. now rewrite take_drop. }
        rewrite Hu', lastOr_app.
        change (lastOr prev' marker) with (Some "]"%char).
        apply (IH rest ltac:(lia) (lastOr prev m) (Some "]"%char)); [| | exact Hrest].
        -- now apply (good_behind p prev m (head rest)).
        -- destruct Hfree as [-> | H]; [now left | right; now apply NoMatch_tail].
Qed.

(** A pass changes nothing in a text without match. *)
Lemma scan_fixed (p : pattern) (s : gostring) : forall prev,
  NoMatch p prev s -> scan p prev s = s.
Proof.
  induction s as [| c s IH]; intros prev H; [reflexivity |].
  rewrite scan_miss by exact (H [] (c :: s) eq_refl).
  f_equal. apply IH. exact (NoMatch_tail p prev [c] s H).
Qed.

End PassFacts.

(** ** Redaction: all passes *)

Module RedactionFacts.
Import Regexp MatchFacts GoodFacts PassFacts.

(** The older marker as a pattern of literal bytes. *)
Definition oldMarker : pattern := map Lit ``"<Phone Number Redacted>".

(** The patterns of all the passes that change the text. *)
Definition allPatterns : list pattern := oldMarker :: Strava.phonePatterns.

Lemma all_good : forallb good allPatterns = true.
Proof. vm_compute. reflexivity. Qed.

Lemma HasPrefix_length (l : gostring) : forall s,
  Strings.HasPrefix s l = true -> (length l <= length s)%nat.
Proof.
  induction l as [| c l IH]; intros s H; [cbn; lia |].
  destruct s as [| x s]; [discriminate |]. cbn [Strings.HasPrefix] in H.
  apply andb_prop in H as [_ H]. apply IH in H. cbn. lia.
Qed.

(** A pattern of literal bytes matches where the text starts with them. *)
Lemma matchHere_literal (l : gostring) : forall prev s,
  matchHere (map Lit l) prev s
  = if Strings.HasPrefix s l then Some (drop (length l) s) else None.
Proof.
  induction l as [| c l IH]; intros prev s; [reflexivity |].
  destruct s as [| x s]; [reflexivity |].
  cbn [map matchHere Strings.HasPrefix length drop].
  destruct (decide (x = c)) as [-> | Hne].
  - rewrite !bool_decide_eq_true_2 by reflexivity. cbn [andb]. apply IH.
  - rewrite (bool_decide_eq_false_2 (x = c)) by exact Hne.
    rewrite (bool_decide_eq_false_2 (c = x)) by congruence. reflexivity.
Qed.

(** [strings.ReplaceAll] and the replacement by a pattern of literal bytes
    agree. *)
Lemma ReplaceAll_literal (l new : gostring) (s : gostring) : forall skip prev,
  l <> [] ->
  Strings.replaceFrom l new skip s = Regexp.replaceFrom (map Lit l) new skip prev s.
Proof.
  induction s as [| c s IH]; intros skip prev Hl; [reflexivity |].
  cbn [Strings.replaceFrom Regexp.replaceFrom].
  destruct skip as [| skip]; [| now apply IH].
  rewrite matchHere_literal.
  destruct (Strings.HasPrefix (c :: s) l) eqn:E.
  - pose proof (HasPrefix_length l _ E) as Hlen. rewrite length_drop.
    destruct l as [| x l]; [congruence |]. cbn [length Nat.pred] in *.
    replace (S (length s) - (S (length s) - S (length l)))%nat with (S (length l)) by lia.
    f_equal. now apply IH.
  - f_equal. now apply IH.
Qed.

(** The passes of [redactPhoneNumbers], one after the other. *)
Definition passes (ps : list pattern) (text : gostring) : gostring :=
  fold_left (fun result p => scan p None result) ps text.

Lemma redact_passes (text : gostring) :
  Strava.redactPhoneNumbers text = passes allPatterns text.
Proof.
  unfold Strava.redactPhoneNumbers, passes, allPatterns. cbn [fold_left].
  rewrite ReplaceFacts.ReplaceAll_same by discriminate.
  unfold Strings.ReplaceAll.
  rewrite (ReplaceAll_literal ``"<Phone Number Redacted>" Strava.redacted text 0 None)
    by discriminate.
  reflexivity.
Qed.

Lemma scan_keeps (p q : pattern) (s : gostring) :
  good p = true -> good q = true ->
  p = q \/ NoMatch q None s -> NoMatch q None (scan p None s).
Proof.
  intros Hp Hq H.
  apply (pass_clean p q Hp Hq (length s) s (le_n _) None None); [now left | exact H].
Qed.

Lemma passes_keep (q : pattern) (ps : list pattern) :
  good q = true -> forallb good ps = true ->
  forall s, NoMatch q None s -> NoMatch q None (passes ps s).
Proof.
  intros Hq. induction ps as [| p ps IH]; intros Hps s Hs; [exact Hs |].
  cbn [forallb] in Hps. apply andb_prop in Hps as [Hp Hps].
  unfold passes. cbn [fold_left]. apply (IH Hps). apply scan_keeps; auto.
Qed.

Lemma passes_clean (q : pattern) (ps : list pattern) :
  forallb good ps = true -> In q ps ->
  forall s, NoMatch q None (passes ps s).
Proof.
  induction ps as [| p ps IH]; intros Hps Hin s; [destruct Hin |].
  cbn [forallb] in Hps. apply andb_prop in Hps as [Hp Hps].
  unfold passes. cbn [fold_left]. destruct Hin as [-> | Hin].
  - apply (passes_keep q ps Hp Hps). apply scan_keeps; auto.
  - now apply IH.
Qed.

Lemma passes_fixed (ps : list pattern) (s : gostring) :
  (forall p, In p ps -> NoMatch p None s) -> passes ps s = s.
Proof.
  induction ps as [| p ps IH]; intros H; [reflexivity |].
  unfold passes. cbn [fold_left]. rewrite scan_fixed by (apply H; now left).
  apply IH. intros q Hq. apply H. now right.
Qed.

(** Nowhere in the result does a pattern match. *)
Lemma redact_clean (text : gostring) (p : pattern) :
  In p allPatterns -> NoMatch p None (Strava.redactPhoneNumbers text).
Proof.
  intros Hp. rewrite redact_passes. apply passes_clean; [apply all_good | exact Hp].
Qed.

Lemma redact_idempotent (text : gostring) :
  Strava.redactPhoneNumbers (Strava.redactPhoneNumbers text)
  = Strava.redactPhoneNumbers text.
Proof.
  rewrite (redact_passes (Strava.redactPhoneNumbers text)).
  apply passes_fixed. intros p Hp. now apply redact_clean.
Qed.

End RedactionFacts.


Module KeepFacts.
Import Regexp MatchFacts GoodFacts PassFacts RedactionFacts.

(** The bytes a phone pattern can take: digits, white space, the hyphen,
    the plus sign and the round brackets. *)
Definition phoneByte (c : ascii) : bool :=
  inClass Digit c || inClass SpaceOrHyphen c
  || bool_decide (c = "+"%char) || bool_decide (c = "("%char) || bool_decide (c = ")"%char).

Definition onlyPhoneBytes (p : pattern) : bool :=
  forallb (fun x => match x with
                    | Lit c => phoneByte c
                    | OptLit l => forallb phoneByte l
                    | _ => true
                    end) p.

Lemma class_phoneByte (k : class) (c : ascii) : inClass k c = true -> phoneByte c = true.
Proof.
  intros H. unfold phoneByte.
  assert (inClass Digit c = true \/ inClass SpaceOrHyphen c = true) as [-> | ->];
    [| reflexivity | now rewrite orb_true_r].
  destruct k; cbn in *.
  - now left.
  - left. apply andb_prop in H as [H1 H2]. apply Z.leb_le in H1. apply Z.leb_le in H2.
    apply andb_true_intro. split; apply Z.leb_le; lia.
  - left. apply andb_prop in H as [H1 H2]. apply Z.leb_le in H1. apply Z.leb_le in H2.
    apply andb_true_intro. split; apply Z.leb_le; lia.
  - right. now rewrite H.
  - now right.
Qed.

Lemma onlyPhoneBytes_spec (p : pattern) : forall prev w la,
  onlyPhoneBytes p = true -> Consumes p prev w la -> Forall (fun c => phoneByte c = true) w.
Proof.
  induction p as [| y p IH]; intros prev w la Hp H.
  - cbn in H. subst w. constructor.
  - cbn [onlyPhoneBytes forallb] in Hp. apply andb_prop in Hp as [Hy Hp].
    destruct y as [| c | k min max | l]; cbn [Consumes] in H.
    + destruct H as [_ H]. now apply (IH prev w la).
    + destruct H as (w' & -> & H). constructor; [exact Hy | now apply (IH (Some c) w' la)].
    + destruct H as (r & w' & -> & Hr & _ & _ & H). apply Forall_app. split.
      * eapply List.Forall_impl; [| exact Hr]. intros c. apply class_phoneByte.
      * now apply (IH (lastOr prev r) w' la).
    + destruct H as [(w' & -> & H) | H]; [| now apply (IH prev w la)].
      apply Forall_app. split; [| now apply (IH (lastOr prev l) w' la)].
      apply List.Forall_forall. intros c Hc. rewrite forallb_forall in Hy. now apply Hy.
Qed.

(** The bytes of a text that no phone pattern can take. *)
Definition otherBytes (s : gostring) : gostring :=
  List.filter (fun c => negb (phoneByte c)) s.

Lemma otherBytes_app (s t : gostring) : otherBytes (s ++ t) = otherBytes s ++ otherBytes t.
Proof. apply List.filter_app. Qed.

Lemma otherBytes_phone (m : gostring) :
  Forall (fun c => phoneByte c = true) m -> otherBytes m = [].
Proof.
  induction 1 as [| c m Hc _ IH]; [reflexivity |].
  unfold otherBytes in *. cbn [List.filter]. now rewrite Hc.
Qed.

(** One pass keeps the other bytes, in order. *)
Lemma scan_keeps_other (p : pattern) :
  good p = true -> onlyPhoneBytes p = true ->
  forall n s, (length s <= n)%nat ->
  forall prev, sublist (otherBytes s) (otherBytes (scan p prev s)).
Proof.
  intros Hp Ho. induction n as [| n IH]; intros s Hlen prev.
  - destruct s; [constructor | cbn in Hlen; lia].
  - destruct (scan_cases p prev s Hp)
      as [[-> Hs] | [(c & s' & -> & _ & Hs) | (m & rest & Hm & -> & Hcm & Hs)]];
      rewrite Hs.
    + constructor.
    + cbn [length] in Hlen. unfold otherBytes in *. cbn [List.filter].
      destruct (negb (phoneByte c)); [apply sublist_skip |]; apply IH; lia.
    + rewrite !otherBytes_app.
      rewrite (otherBytes_phone m) by exact (onlyPhoneBytes_spec p _ _ _ Ho Hcm).
      cbn [app]. apply sublist_inserts_l. apply IH.
      rewrite length_app in Hlen. destruct m; [congruence | cbn in Hlen; lia].
Qed.

Lemma passes_keep_other (ps : list pattern) :
  forallb good ps = true -> forallb onlyPhoneBytes ps = true ->
  forall s, sublist (otherBytes s) (otherBytes (passes ps s)).
Proof.
  induction ps as [| p ps IH]; intros Hg Ho s; [reflexivity |].
  cbn [forallb] in Hg, Ho. apply andb_prop in Hg as [Hp Hg]. apply andb_prop in Ho as [Hop Ho].
  unfold passes. cbn [fold_left].
  transitivity (otherBytes (scan p None s)).
  - now apply (scan_keeps_other p Hp Hop (length s)).
  - now apply IH.
Qed.

End KeepFacts.



(** ** Time windows *)

Lemma After_trans (t u v : GoTime.Time) :
  GoTime.After t u = true -> GoTime.After v u = false -> GoTime.After t v = true.
Proof.
  unfold GoTime.After. intros H1 H2.
  apply orb_false_elim in H2 as [H2 H3].
  apply Z.ltb_ge in H2.
  apply orb_true_iff. apply orb_prop in H1 as [H1 | H1].
  - apply Z.ltb_lt in H1.
    destruct (Z.eq_dec (GoTime.sec v) (GoTime.sec u)) as [E | E].
    + left. apply Z.ltb_lt. lia.
    + left. apply Z.ltb_lt. lia.
  - apply andb_prop in H1 as [H1 H4]. apply Z.eqb_eq in H1. apply Z.ltb_lt in H4.
    destruct (Z.eq_dec (GoTime.sec v) (GoTime.sec u)) as [E | E].
    + right. apply andb_true_intro. split; [apply Z.eqb_eq; lia |].
      apply Z.ltb_lt. rewrite E, Z.eqb_refl in H3. cbn [andb] in H3.
      apply Z.ltb_ge in H3. lia.
    + left. apply Z.ltb_lt. lia.
Qed.

(** ** The reconciler: the sync time in the description *)

Module StampFacts.
Import Strings GCal.

Lemma spaceBytes_L (rest : list Z) : spaceBytes (byteVal "L"%char) rest = 0%nat.
Proof. destruct rest as [| b2 [| b3 rest]]; reflexivity. Qed.

(** A text that ends with the letter M has nothing to trim at its end. *)
Lemma trimRight_M (r : gostring) :
  trimRightSpaceRev ("M"%char :: r) = "M"%char :: r.
Proof.
  cbn [trimRightSpaceRev]. change (byteVal "M"%char) with 77.
  change (Nat.eqb (spaceBytes 77 []) 1) with false. cbn iota.
  destruct r as [| c2 r]; [reflexivity |].
  assert (Nat.eqb (spaceBytes (byteVal c2) [77]) 2 = false) as ->.
  { unfold spaceBytes. destruct (_ || _); [reflexivity |].
    change (77 =? 133) with false. change (77 =? 160) with false.
    now rewrite andb_false_r. }
  destruct r as [| c3 r]; [reflexivity |].
  assert (Nat.eqb (spaceBytes (byteVal c3) [byteVal c2; 77]) 3 = false) as ->; [| reflexivity].
  unfold spaceBytes. destruct (_ || _); [reflexivity |].
  destruct (_ && _); [reflexivity |].
  change (77 =? 128) with false. change (128 <=? 77) with false.
  change (77 =? 168) with false. change (77 =? 169) with false.
  change (77 =? 175) with false. change (77 =? 159) with false.
  cbn [andb orb]. now rewrite !andb_false_r.
Qed.

(** The description of a run whose sync time ends with M (of AM or PM) is
    not changed by [TrimSpace]. *)
Lemma TrimSpace_description (e : Event) (clubID t : gostring) :
  TrimSpace (composeDescription e clubID (t ++ ``"M"))
  = composeDescription e clubID (t ++ ``"M").
Proof.
  unfold TrimSpace.
  assert (trimLeftSpace (composeDescription e clubID (t ++ ``"M"))
          = composeDescription e clubID (t ++ ``"M")) as ->.
  { unfold composeDescription.
    change (``"Leader: " ++ ?x) with ("L"%char :: ``"eader: " ++ x).
    cbn [trimLeftSpace]. now rewrite spaceBytes_L. }
  assert (exists body, composeDescription e clubID (t ++ ``"M") = body ++ ["M"%char])
    as [body ->].
  { unfold composeDescription. eexists. rewrite !app_assoc. reflexivity. }
  rewrite rev_unit, trimRight_M. cbn [rev]. now rewrite rev_involutive.
Qed.

Lemma composeDescription_time (e : Event) (clubID t1 t2 : gostring) :
  composeDescription e clubID t1 = composeDescription e clubID t2 -> t1 = t2.
Proof.
  unfold composeDescription. intros H.
  repeat (apply app_inv_head in H). exact H.
Qed.

End StampFacts.

(** * Worked runs *)

Definition june3_1830 : GoTime.Time := GoTime.DateUTC 2025 6 3 18 30 0 0.
Definition june3_1930 : GoTime.Time := GoTime.DateUTC 2025 6 3 19 30 0 0.
Definition june5_0600 : GoTime.Time := GoTime.DateUTC 2025 6 5 6 0 0 0.
Definition june5_0700 : GoTime.Time := GoTime.DateUTC 2025 6 5 7 0 0 0.

(** The time-zone database as far as the worked runs need it: the London
    (BST, +01:00) RFC 3339 text of four instants. *)
Definition londonTexts : list (GoTime.Time * gostring) :=
  [ (june3_1830, ``"2025-06-03T19:30:00+01:00");
    (june3_1930, ``"2025-06-03T20:30:00+01:00");
    (june5_0600, ``"2025-06-05T07:00:00+01:00");
    (june5_0700, ``"2025-06-05T08:00:00+01:00") ].

Definition londonFormat (t : GoTime.Time) : gostring :=
  match List.find (fun row => GoTime.Equal row.1 t) londonTexts with
  | Some row => row.2
  | None => []
  end.

Definition londonParse (s : gostring) : option GoTime.Time :=
  match List.find (fun row => bool_decide (row.2 = s)) londonTexts with
  | Some row => Some row.1
  | None => None
  end.

(** A run on Monday 2 June 2025 at 18:00 London time, club 4242. *)
Definition eveningRun : GCal.Env :=
  {| GCal.STRAVA_CLUB_ID := ``"4242";
     GCal.syncTime := ``"Mon, 2 Jun @ 6:00 PM";
     GCal.formatLondon := londonFormat;
     GCal.parseRFC3339 := londonParse |}.

(** The next scheduled run, a quarter of an hour later. *)
Definition nextRun : GCal.Env :=
  {| GCal.STRAVA_CLUB_ID := ``"4242";
     GCal.syncTime := ``"Mon, 2 Jun @ 6:15 PM";
     GCal.formatLondon := londonFormat;
     GCal.parseRFC3339 := londonParse |}.

Definition clubEvent (id : Z) (title : gostring) (start finish : GoTime.Time) : Event :=
  {| ID := id; Title := title; Start := start; End := finish;
     Description := ``"Meet at the clock tower";
     URL := ``"https://www.strava.com/clubs/4242/group_events/" ++ Strconv.FormatInt id;
     Location := ``"Priory Park"; Organizer := ``"Ada Hill";
     SkillLevels := None; Terrain := None |}.

Definition tempo : Event := clubEvent 1001 ``"Tempo Run" june3_1830 june3_1930.
Definition dawn : Event := clubEvent 1002 ``"Dawn Hills" june5_0600 june5_0700.

Definition calendarItem (id uid summary : gostring) : calendar.Event :=
  {| calendar.Id := id; calendar.ICalUID := uid; calendar.Summary := summary;
     calendar.Location := []; calendar.Description := [];
     calendar.Start := {| calendar.DateTime := ``"2025-06-03T19:30:00+01:00";
                          calendar.TimeZone := ``"Europe/London" |};
     calendar.End := {| calendar.DateTime := ``"2025-06-03T20:30:00+01:00";
                        calendar.TimeZone := ``"Europe/London" |};
     calendar.Source := {| calendar.Title := []; calendar.Url := [] |} |}.

(** A snapshot: somebody's own entry, a stale managed item, and the managed
    item of the tempo run under an old title. *)
Definition snapshot : list calendar.Event :=
  [ calendarItem ``"g-1" ``"k3j4h5@google.com" ``"Dentist";
    calendarItem ``"g-2" ``"999@strava.com" ``"Cancelled relay";
    calendarItem ``"g-3" ``"1001@strava.com" ``"Tempo" ].

Definition freshId (items : list calendar.Event) : gostring :=
  ``"new-" ++ Strconv.FormatInt (Z.of_nat (length items)).

Example first_run_calls :
  GCal.syncStravaEvents eveningRun [tempo; dawn] (Ok snapshot)
  = ([ GCal.EventsDelete ``"g-2";
       GCal.EventsUpdate ``"g-3" (GCal.createGoogleCalendarEvent eveningRun tempo);
       GCal.EventsInsert (GCal.createGoogleCalendarEvent eveningRun dawn) ], None).
Proof. vm_compute. reflexivity. Qed.

(** The scenarios of the specification: one create for a desired event
    that the calendar lacks, no call for an item that agrees with its
    event, one delete for a managed item that is no longer desired, and no
    call for an item whose correlation identifier holds no number. *)
Example scenario_create :
  GCal.syncStravaEvents eveningRun [tempo] (Ok [])
  = ([GCal.EventsInsert (GCal.createGoogleCalendarEvent eveningRun tempo)], None).
Proof. vm_compute. reflexivity. Qed.

Example scenario_unchanged :
  GCal.syncStravaEvents eveningRun [tempo]
    (Ok [Service.withId ``"g-3" (GCal.createGoogleCalendarEvent eveningRun tempo)])
  = ([], None).
Proof. vm_compute. reflexivity. Qed.

Example scenario_delete :
  GCal.syncStravaEvents eveningRun [] (Ok [calendarItem ``"g-3" ``"1001@strava.com" ``"Tempo"])
  = ([GCal.EventsDelete ``"g-3"], None).
Proof. vm_compute. reflexivity. Qed.

Example scenario_not_a_number :
  GCal.syncStravaEvents eveningRun [tempo]
    (Ok [calendarItem ``"g-9" ``"notanumber@strava.com" ``"Book club"])
  = ([GCal.EventsInsert (GCal.createGoogleCalendarEvent eveningRun tempo)], None).
Proof. vm_compute. reflexivity. Qed.

(** An entry of another calendar feed whose identifier only begins like one
    of this system's. *)
Definition foreignItem : calendar.Event :=
  calendarItem ``"g-7" ``"7@strava.community" ``"Volunteers meeting".

(** A desired event with the id zero. *)
Definition eventZero : Event := clubEvent 0 ``"Tempo Run" june3_1830 june3_1930.

(** A source event as the club feed sends it. *)
Definition tempoRun : StravaEvent.t :=
  {| StravaEvent.ID := 1001;
     StravaEvent.Title := ``"Tempo Run";
     StravaEvent.Description := ``"Meet at the clock tower";
     StravaEvent.OrganizingAthlete :=
       {| StravaEvent.FirstName := ``"Ada"; StravaEvent.LastName := ``"Hill " |};
     StravaEvent.UpcomingOccurrences := [``"2025-06-01T18:30:00Z"; ``"2025-06-08T18:30:00Z"];
     StravaEvent.Address := ``"Priory Park" |}.


(** A clock in UTC, for [AddDate] by days. *)
Definition utcClock (now : GoTime.Time) : Main.Clock :=
  {| Main.Now := now;
     Main.AddDate := fun t years months days => GoTime.AddDaysUTC t days |}.

(** 2025-06-10 12:00:00 UTC. *)
Definition noon : GoTime.Time := GoTime.DateUTC 2025 6 10 12 0 0 0.

Definition eventAt (id : Z) (start : GoTime.Time) : Event :=
  {| ID := id; Title := ``"Club run"; Start := start;
     End := GoTime.Add start (1 * GoTime.Hour);
     Description := []; URL := []; Location := []; Organizer := [];
     SkillLevels := None; Terrain := None |}.


(** A checkout in which no cache file has been written yet. *)
Definition freshCheckout : Main.Disk :=
  {| Main.statEventsFile := Main.StatNotExist;
     Main.readEventsFile := None;
     Main.unmarshalEvents := fun _ => None |}.


(** The London local time of the four instants in the basic format. *)
Definition basicTexts : list (GoTime.Time * gostring) :=
  [ (june3_1830, ``"20250603T193000");
    (june3_1930, ``"20250603T203000");
    (june5_0600, ``"20250605T070000");
    (june5_0700, ``"20250605T080000") ].

Definition londonBasic (t : GoTime.Time) : gostring :=
  match List.find (fun row => GoTime.Equal row.1 t) basicTexts with
  | Some row => row.2
  | None => []
  end.

(** The export of the run of Monday 2 June 2025, 18:00 London time. *)
Definition eveningExport : Ics.Env :=
  {| Ics.STRAVA_CLUB_ID := ``"4242";
     Ics.formatLondon := londonBasic;
     Ics.nowUTC := fun _ => ``"20250602T170000Z";
     Ics.syncTime := fun _ => ``"Mon, 2 Jun @ 6:00 PM" |}.


(** A club feed of 201 events, served in two pages. *)
Definition twoPages : Strava.Net :=
  {| Strava.answer := fun k =>
       match k with
       | 0%nat => Some {| Http.StatusCode := 200; Http.Body := ``"page 1" |}
       | 1%nat => Some {| Http.StatusCode := 200; Http.Body := ``"page 2" |}
       | _ => None
       end;
     Strava.newRequestOK := fun _ => true;
     Strava.decodeTokenResponse := fun _ => None;
     Strava.decodeEvents := fun body =>
       if bool_decide (body = ``"page 1") then Some (repeat tempoRun 200)
       else if bool_decide (body = ``"page 2") then Some [tempoRun]
       else None |}.

Definition signedIn : Strava.Session :=
  {| Strava.tokens := {| ClientID := ``"12345"; ClientSecret := ``"s3cr3t";
                         AccessToken := ``"a1b2c3"; RefreshToken := ``"r4r5r6" |};
     Strava.sent := [] |}.


(** The same feed behind an access token that has expired: the first
    answer is a 401, the second the new tokens. *)
Definition expiredThenTwoPages : Strava.Net :=
  {| Strava.answer := fun k =>
       match k with
       | 0%nat => Some {| Http.StatusCode := 401; Http.Body := ``"Authorization Error" |}
       | 1%nat => Some {| Http.StatusCode := 200; Http.Body := ``"tokens" |}
       | 2%nat => Some {| Http.StatusCode := 200; Http.Body := ``"page 1" |}
       | 3%nat => Some {| Http.StatusCode := 200; Http.Body := ``"page 2" |}
       | _ => None
       end;
     Strava.newRequestOK := fun _ => true;
     Strava.decodeTokenResponse := fun body =>
       if bool_decide (body = ``"tokens")
       then Some {| TokenResponse.AccessToken := ``"x7y8z9";
                    TokenResponse.RefreshToken := ``"r4r5r6";
                    TokenResponse.ExpiresAt := 1748887200 |}
       else None;
     Strava.decodeEvents := fun body =>
       if bool_decide (body = ``"page 1") then Some (repeat tempoRun 200)
       else if bool_decide (body = ``"page 2") then Some [tempoRun]
       else None |}.


(** A feed that never ends: every answer is a full page. *)
Definition endlessPages : Strava.Net :=
  {| Strava.answer := fun _ => Some {| Http.StatusCode := 200; Http.Body := ``"page" |};
     Strava.newRequestOK := fun _ => true;
     Strava.decodeTokenResponse := fun _ => None;
     Strava.decodeEvents := fun _ => Some (repeat tempoRun 200) |}.


(** The examples of the documentation of [redactPhoneNumbers]. *)
Example redaction_examples :
  map Strava.redactPhoneNumbers
      [ ``"07801 252100"; ``"07341 081992"; ``"07599393367"; ``"+44 7801 252100";
        ``"+44 (0)7801-252-100"; ``"(020) 7946 0018"; ``"0207-946-0018" ]
  = repeat ``"[Phone Number Redacted]" 7.
Proof. vm_compute. reflexivity. Qed.


(** * The properties of the specification *)

(** ** C1: idempotence *)

(** C1.  Idempotence, at the failing input: the first run, on Monday at
    6:00 PM against an empty calendar, inserts the tempo run; the next
    scheduled run, a quarter of an hour later, with the same desired set
    and against the calendar the first run left, does not make zero calls:
    the description it composes ends with its own sync time, so it differs
    from the one stored, and the run updates the unchanged event. *)
Theorem sync_time_change_updates :
  let first := (GCal.syncStravaEvents eveningRun [tempo] (Ok [])).1 in
  let after := Service.applyCalls freshId [] first in
  first = [GCal.EventsInsert (GCal.createGoogleCalendarEvent eveningRun tempo)]
  /\ after = [Service.withId ``"new-0" (GCal.createGoogleCalendarEvent eveningRun tempo)]
  /\ GCal.syncStravaEvents nextRun [tempo] (Ok after)
     = ([GCal.EventsUpdate ``"new-0" (GCal.createGoogleCalendarEvent nextRun tempo)], None).
Proof. vm_compute. repeat split. Qed.

(** The zero guard of the scan has the same effect on one id: a desired
    event with id 0 is inserted by the first run under the correlation
    identifier "0@strava.com", which the second run skips as not managed;
    so the second run, even in the same minute, inserts the event again. *)
Lemma second_run_inserts_id_zero_again :
  let first := (GCal.syncStravaEvents eveningRun [eventZero] (Ok [])).1 in
  let after := Service.applyCalls freshId [] first in
  first = [GCal.EventsInsert (GCal.createGoogleCalendarEvent eveningRun eventZero)]
  /\ after = [Service.withId ``"new-0" (GCal.createGoogleCalendarEvent eveningRun eventZero)]
  /\ (GCal.syncStravaEvents eveningRun [eventZero] (Ok after)).1
     = [GCal.EventsInsert (GCal.createGoogleCalendarEvent eveningRun eventZero)].
Proof. vm_compute. repeat split. Qed.

(** What does hold is idempotence within one minute.  For one desired
    event per id, every id a non-zero 64-bit integer, start and end times
    that read back from their RFC 3339 text, a snapshot with distinct opaque
    ids, and a second run that reads the same sync-time text and club id as
    the first: a run against the calendar that results from applying the
    first run's calls makes no call, and with the club id configured it
    returns no error. *)
Lemma sync_idempotent (env : GCal.Env) (newId : list calendar.Event -> gostring)
        (desired : list Event) (existing : list calendar.Event) :
  NoDup (map ID desired) ->
  Forall (IdempotenceFacts.recognisable env) desired ->
  NoDup (map calendar.Id existing) ->
  (GCal.syncStravaEvents env desired
     (Ok (Service.applyCalls newId existing
            (GCal.syncStravaEvents env desired (Ok existing)).1))).1 = []
  /\ (GCal.STRAVA_CLUB_ID env <> [] ->
      (GCal.syncStravaEvents env desired
         (Ok (Service.applyCalls newId existing
                (GCal.syncStravaEvents env desired (Ok existing)).1))).2 = None).
Proof.
  intros Hnd Hrec Hids.
  destruct (decide (GCal.STRAVA_CLUB_ID env = [])) as [Hclub | Hclub].
  - split; [| contradiction]. now apply IdempotenceFacts.idempotent_club_unset.
  - rewrite IdempotenceFacts.idempotent_club_set by assumption. now split.
Qed.

(** The same at the worked snapshot: after the delete, the update and the
    insert of the first run, a second run in the same minute has nothing to
    do. *)
Lemma sync_idempotent_witness :
  NoDup (map ID [tempo; dawn])
  /\ Forall (IdempotenceFacts.recognisable eveningRun) [tempo; dawn]
  /\ NoDup (map calendar.Id snapshot)
  /\ (GCal.syncStravaEvents eveningRun [tempo; dawn]
        (Ok (Service.applyCalls freshId snapshot
               (GCal.syncStravaEvents eveningRun [tempo; dawn] (Ok snapshot)).1))).1 = [].
Proof.
  assert (NoDup (map ID [tempo; dawn])) as Hnd
    by (apply (bool_decide_unpack _); vm_compute; exact I).
  assert (Forall (IdempotenceFacts.recognisable eveningRun) [tempo; dawn]) as Hrec
    by (repeat constructor; try discriminate; try (vm_compute; congruence)).
  assert (NoDup (map calendar.Id snapshot)) as Hids
    by (apply (bool_decide_unpack _); vm_compute; exact I).
  repeat (split; [assumption |]).
  exact (proj1 (sync_idempotent eveningRun freshId [tempo; dawn] snapshot Hnd Hrec Hids)).
Defined.

(** ** C2: unmanaged-item isolation *)

(** C2.  Unmanaged-item isolation, at the failing input: the correlation
    identifier "7@strava.community" is not [<integer>@strava.com] for any
    integer, and yet, with nothing desired, the run deletes the item that
    carries it, and with an event 7 desired the run overwrites it. *)
Theorem foreign_item_is_deleted (env : GCal.Env) :
  (forall id, GCal.formatUID id <> calendar.ICalUID foreignItem)
  /\ GCal.syncStravaEvents env [] (Ok [foreignItem])
     = ([GCal.EventsDelete (calendar.Id foreignItem)], None)
  /\ GCal.syncStravaEvents eveningRun [clubEvent 7 ``"Tempo Run" june3_1830 june3_1930]
       (Ok [foreignItem])
     = ([GCal.EventsUpdate (calendar.Id foreignItem)
           (GCal.createGoogleCalendarEvent eveningRun
              (clubEvent 7 ``"Tempo Run" june3_1830 june3_1930))], None).
Proof.
  split; [| split].
  - intros id H. apply TargetFacts.formatUID_suffix in H. vm_compute in H. discriminate.
  - vm_compute. reflexivity.
  - vm_compute. reflexivity.
Qed.

(** ** C3: the operation set *)

(** C3.  The operation set, at the failing input: the item with the
    correlation identifier "7@strava.community" is not managed, so with
    nothing desired the reference definition has no operation, and with an
    event 7 desired it has one create and nothing else; the reconciler
    makes a delete of that item in the first case, and in the second an
    update of that item and no create. *)
Theorem sync_departs_from_reference :
  Reference.managed foreignItem = None
  /\ Reference.operations eveningRun [] [foreignItem] = []
  /\ map Reference.ofCall (GCal.syncStravaEvents eveningRun [] (Ok [foreignItem])).1
     = [Reference.Delete ``"g-7"]
  /\ Reference.operations eveningRun [clubEvent 7 ``"Tempo Run" june3_1830 june3_1930]
       [foreignItem]
     = [Reference.Create
          (Reference.record eveningRun (clubEvent 7 ``"Tempo Run" june3_1830 june3_1930))]
  /\ map Reference.ofCall
         (GCal.syncStravaEvents eveningRun [clubEvent 7 ``"Tempo Run" june3_1830 june3_1930]
            (Ok [foreignItem])).1
     = [Reference.Update ``"g-7"
          (Reference.record eveningRun (clubEvent 7 ``"Tempo Run" june3_1830 june3_1930))].
Proof. vm_compute. repeat split. Qed.

(** Away from such tags the reconciler's operations are those of the
    reference definition: with the club id configured, one desired event
    per id, and a snapshot in which the scan accepts no tag outside the
    expected format, a run returns no error and makes, up to order, exactly
    the reference's deletes, updates and creates, with the same records. *)
Lemma sync_matches_reference_on_exact_tags (env : GCal.Env) (desired : list Event)
        (existing : list calendar.Event) :
  GCal.STRAVA_CLUB_ID env <> [] ->
  NoDup (map ID desired) ->
  SyncFacts.exactTags existing ->
  (GCal.syncStravaEvents env desired (Ok existing)).2 = None
  /\ Permutation (map Reference.ofCall (GCal.syncStravaEvents env desired (Ok existing)).1)
                 (Reference.operations env desired existing).
Proof.
  intros Hclub Hnd Hex. rewrite SyncFacts.syncStravaEvents_set by exact Hclub.
  cbn [fst snd]. split; [reflexivity |]. unfold Reference.operations.
  rewrite map_app, SyncFacts.createMissing_reference by assumption.
  rewrite app_assoc. apply Permutation_app_tail.
  now apply SyncFacts.scan_calls_reference.
Qed.

(** The worked snapshot is such a snapshot. *)
Example sync_matches_reference_at_snapshot :
  Permutation (map Reference.ofCall
                   (GCal.syncStravaEvents eveningRun [tempo; dawn] (Ok snapshot)).1)
              (Reference.operations eveningRun [tempo; dawn] snapshot).
Proof.
  apply (sync_matches_reference_on_exact_tags eveningRun [tempo; dawn] snapshot).
  - discriminate.
  - apply (bool_decide_unpack _). vm_compute. exact I.
  - repeat constructor; vm_compute; congruence.
Qed.

(** ** C4: folding *)

(** C4.  Folding, at the failing input: for the property DESCRIPTION and a
    value of 150 letters, both revisions of [formatICSProperty] write a
    first physical line of 75 bytes and a second physical line of 76 bytes,
    the continuation space and 75 letters, one more than the 75 the claim
    allows; unfolding still gives the logical line back. *)
Theorem folded_line_exceeds_75 :
  nth 1 (physicalLines (IcsRfc.formatICSProperty ``"DESCRIPTION" (repeat "a"%char 150))) []
  = SP :: repeat "a"%char 75
  /\ nth 1 (physicalLines (IcsRaw.formatICSProperty ``"DESCRIPTION" (repeat "a"%char 150))) []
     = SP :: repeat "a"%char 75
  /\ length (SP :: repeat "a"%char 75) = 76%nat
  /\ unfold (IcsRfc.formatICSProperty ``"DESCRIPTION" (repeat "a"%char 150))
     = ``"DESCRIPTION:" ++ repeat "a"%char 150 ++ CRLF.
Proof. vm_compute. repeat split. Qed.

(** ** C5: escaping *)

(** C5.  Escaping round-trip: [escapeICSText] replaces the backslash first,
    then the semicolon, then the comma, so that each of these bytes gets one
    backslash in front and nothing is escaped twice; and for every text
    without a line break, un-escaping the escaped text gives the text back,
    in both revisions. *)
Theorem escape_round_trip (s : gostring) :
  Forall (fun c => c <> CR /\ c <> LF) s ->
  IcsRaw.escapeICSText s = flat_map escapeByte s
  /\ IcsRfc.escapeICSText s = flat_map escapeByte s
  /\ unescapeText (IcsRaw.escapeICSText s) = s
  /\ unescapeText (IcsRfc.escapeICSText s) = s.
Proof.
  intros Hs. rewrite escapeICSText_rfc_bytes, escapeICSText_bytes by assumption.
  repeat split; apply unescape_escaped.
Qed.

(** C5 at a text with all three special bytes. *)
Lemma escape_round_trip_witness :
  Forall (fun c => c <> CR /\ c <> LF) ``"Hill reps; bring water, lights \ hi-vis"
  /\ unescapeText (IcsRaw.escapeICSText ``"Hill reps; bring water, lights \ hi-vis")
     = ``"Hill reps; bring water, lights \ hi-vis"
  /\ unescapeText (IcsRfc.escapeICSText ``"Hill reps; bring water, lights \ hi-vis")
     = ``"Hill reps; bring water, lights \ hi-vis".
Proof.
  assert (Forall (fun c => c <> CR /\ c <> LF) ``"Hill reps; bring water, lights \ hi-vis")
    as Hs by (repeat constructor; discriminate).
  split; [exact Hs |].
  pose proof (escape_round_trip ``"Hill reps; bring water, lights \ hi-vis" Hs) as H.
  split; apply H.
Defined.

(** ** C6: correlation identifiers *)

(** C6.  Correlation round-trip: for every 64-bit integer id, printing the
    correlation identifier with [fmt.Sprintf("%d@strava.com", id)] and
    scanning it with the reconciler's [fmt.Sscanf(uid, "%d@strava.com", &v)]
    scans one operand, raises no error and stores the same id.  (The scan
    loop then goes on with that id unless it is zero.) *)
Theorem correlation_round_trip (id : Z) :
  - 2 ^ 63 <= id < 2 ^ 63 ->
  Fmt.Sscanf_d (GCal.formatUID id) GCal.uidSuffix
  = {| Fmt.scanned_n := 1; Fmt.scanned_err := None; Fmt.scanned_v := id |}
  /\ forall g, calendar.ICalUID g = GCal.formatUID id ->
               GCal.stravaIDOf g = if id =? 0 then None else Some id.
Proof.
  intros Hid. split; [exact (FmtFacts.Sscanf_formatUID id Hid) |].
  intros g Hg. destruct (Z.eqb_spec id 0) as [-> | Hne].
  - unfold GCal.stravaIDOf. rewrite Hg. reflexivity.
  - now apply IdempotenceFacts.stravaIDOf_formatUID.
Qed.

(** C6 at the id 1234567. *)
Lemma correlation_round_trip_witness :
  - 2 ^ 63 <= 1234567 < 2 ^ 63
  /\ Fmt.Sscanf_d (GCal.formatUID 1234567) GCal.uidSuffix
     = {| Fmt.scanned_n := 1; Fmt.scanned_err := None; Fmt.scanned_v := 1234567 |}.
Proof.
  assert (- 2 ^ 63 <= 1234567 < 2 ^ 63) as H by lia.
  split; [exact H | exact (proj1 (correlation_round_trip 1234567 H))].
Defined.

(** ** C7 and C8: event construction *)

(** C7.  Event construction: [convertStravaEvent] returns the
    no-occurrence error exactly when the list of upcoming occurrences is
    empty, and the time-parse error exactly when the list has a first
    timestamp that does not parse; and an event whose conversion returns an
    error (either of these) is left out of the batch and logged, while the
    events before and after it are converted as without it. *)
Theorem convert_errors (STRAVA_CLUB_ID : gostring) (redactPhoneNumbers : gostring -> gostring)
        (se : StravaEvent.t) :
  ((exists id, Strava.convertStravaEvent STRAVA_CLUB_ID redactPhoneNumbers se
               = Err (Strava.NoOccurrence id))
   <-> StravaEvent.UpcomingOccurrences se = [])
  /\ (Strava.convertStravaEvent STRAVA_CLUB_ID redactPhoneNumbers se = Err Strava.TimeParseError
      <-> exists first rest,
            StravaEvent.UpcomingOccurrences se = first :: rest
            /\ GoTime.ParseStravaLayout first = None)
  /\ (forall err before after,
        Strava.convertStravaEvent STRAVA_CLUB_ID redactPhoneNumbers se = Err err ->
        let all := Strava.convertEvents STRAVA_CLUB_ID redactPhoneNumbers (before ++ se :: after) in
        let b := Strava.convertEvents STRAVA_CLUB_ID redactPhoneNumbers before in
        let a := Strava.convertEvents STRAVA_CLUB_ID redactPhoneNumbers after in
        all.1 = b.1 ++ a.1
        /\ all.2 = b.2 ++ (StravaEvent.ID se, err) :: a.2).
Proof.
  split; [| split].
  - unfold Strava.convertStravaEvent.
    destruct (StravaEvent.UpcomingOccurrences se) as [| first rest].
    + split; [reflexivity | intros _; eexists; reflexivity].
    + split; [| discriminate]. intros [id H].
      destruct (GoTime.ParseStravaLayout first); [| discriminate].
      destruct (Strava.getClubID STRAVA_CLUB_ID); discriminate.
  - unfold Strava.convertStravaEvent.
    destruct (StravaEvent.UpcomingOccurrences se) as [| first rest].
    + split; [discriminate | intros (? & ? & ? & _); discriminate].
    + destruct (GoTime.ParseStravaLayout first) eqn:E.
      * split; [destruct (Strava.getClubID STRAVA_CLUB_ID); discriminate |].
        intros (f & r & [= <- <-] & H). congruence.
      * split; [intros _; now exists first, rest | reflexivity].
  - intros err before after Herr. cbv zeta.
    rewrite ConvertFacts.convertEvents_app, ConvertFacts.convertEvents_cons, Herr.
    cbn [fst snd]. split; reflexivity.
Qed.

(** C8.  End-time synthesis: the [Event] of every source event that
    converts has its end exactly one hour (3600 * 10^9 nanoseconds) after
    its start, hence after its start. *)
Theorem end_is_start_plus_one_hour (STRAVA_CLUB_ID : gostring)
        (redactPhoneNumbers : gostring -> gostring) (se : StravaEvent.t) (event : Event) :
  Strava.convertStravaEvent STRAVA_CLUB_ID redactPhoneNumbers se = Ok event ->
  GoTime.nanos (End event) = GoTime.nanos (Start event) + 3600 * 10 ^ 9
  /\ GoTime.After (End event) (Start event) = true.
Proof.
  unfold Strava.convertStravaEvent.
  destruct (StravaEvent.UpcomingOccurrences se) as [| first rest]; [discriminate |].
  destruct (GoTime.ParseStravaLayout first) as [t |] eqn:E; [| discriminate].
  destruct (Strava.getClubID STRAVA_CLUB_ID); [| discriminate].
  intros [= <-]. cbn [Start End].
  destruct (TimeFacts.ParseStravaLayout_range _ _ E) as [Hsec Hns].
  rewrite TimeFacts.Add_Hour by assumption.
  unfold GoTime.nanos, GoTime.After, GoTime.Second. cbn [GoTime.sec GoTime.nsec].
  split; [lia |].
  destruct (Z.ltb_spec (GoTime.sec t) (GoTime.sec t + 3600)); [reflexivity | lia].
Qed.

(** C8 at the tempo run of the club feed. *)
Lemma end_is_start_plus_one_hour_witness :
  exists event,
    Strava.convertStravaEvent ``"4242" (fun s => s) tempoRun = Ok event
    /\ GoTime.nanos (End event) = GoTime.nanos (Start event) + 3600 * 10 ^ 9
    /\ GoTime.After (End event) (Start event) = true.
Proof.
  eexists. split; [vm_compute; reflexivity |].
  apply (end_is_start_plus_one_hour ``"4242" (fun s => s) tempoRun).
  vm_compute. reflexivity.
Defined.

(** ** C9: time windows *)

(** C9.  Time-window policy, at the failing input: an event that starts
    exactly seven days before now starts on or after now minus 7 days (it
    does not start before it), and the cache filter [filterEvents], whose
    comment says "from 7 days ago onwards", drops it. *)
Theorem cache_filter_drops_boundary :
  GoTime.Before (Start (eventAt 7 (GoTime.AddDaysUTC noon (-7)))) (GoTime.AddDaysUTC noon (-7)) = false
  /\ Main.filterEvents (utcClock noon) [eventAt 7 (GoTime.AddDaysUTC noon (-7))] = [].
Proof. split; reflexivity. Qed.

(** What the two filters keep: the sync/export filter exactly the events
    that start after now and before now plus 60 days, the cache filter
    exactly the events that start after (not on) now minus 7 days; both
    keep the order of the list. *)
Lemma time_window_policy (clock : Main.Clock) (events : list Event) :
  (forall e, In e (Main.next60Days clock events)
             <-> In e events
                 /\ GoTime.After (Start e) (Main.Now clock) = true
                 /\ GoTime.Before (Start e) (Main.AddDate clock (Main.Now clock) 0 0 60) = true)
  /\ (forall e, In e (Main.filterEvents clock events)
                <-> In e events
                    /\ GoTime.After (Start e) (Main.AddDate clock (Main.Now clock) 0 0 (-7)) = true)
  /\ sublist (Main.next60Days clock events) events
  /\ sublist (Main.filterEvents clock events) events.
Proof.
  unfold Main.next60Days, Main.filterEvents.
  split; [| split; [| split]].
  - intros e. rewrite filter_In, andb_true_iff. tauto.
  - intros e. rewrite filter_In. tauto.
  - induction events as [| e l IH]; cbn; [constructor |].
    destruct (_ && _); [now apply sublist_skip | now apply sublist_cons].
  - induction events as [| e l IH]; cbn; [constructor |].
    destruct (GoTime.After _ _); [now apply sublist_skip | now apply sublist_cons].
Qed.

(** ** C10: the missing cache *)

(** C10.  When the cache file does not exist, [loadExistingEvents] returns
    the empty list and no error, and the ICS-only and the calendar-only
    command go on with no events. *)
Theorem missing_cache_is_empty (redactPhoneNumbers : gostring -> gostring)
        (disk : Main.Disk) (clock : Main.Clock) (GOOGLE_CALENDAR_ID : gostring) :
  Main.statEventsFile disk = Main.StatNotExist ->
  Main.loadExistingEvents redactPhoneNumbers disk = Ok []
  /\ Main.generateICSOnly_events redactPhoneNumbers disk clock = Ok []
  /\ (GOOGLE_CALENDAR_ID <> [] ->
      Main.syncGoogleCalendarOnly_events redactPhoneNumbers disk clock GOOGLE_CALENDAR_ID true
      = Ok []).
Proof.
  intros Hstat.
  assert (Main.loadExistingEvents redactPhoneNumbers disk = Ok []) as Hload
    by (unfold Main.loadExistingEvents; now rewrite Hstat).
  unfold Main.generateICSOnly_events, Main.syncGoogleCalendarOnly_events.
  rewrite Hload. repeat split.
  intros Hid. now destruct GOOGLE_CALENDAR_ID.
Qed.

(** C10 at a fresh checkout. *)
Lemma missing_cache_is_empty_witness :
  Main.statEventsFile freshCheckout = Main.StatNotExist
  /\ Main.loadExistingEvents (fun s => s) freshCheckout = Ok []
  /\ Main.generateICSOnly_events (fun s => s) freshCheckout (utcClock noon) = Ok []
  /\ Main.syncGoogleCalendarOnly_events (fun s => s) freshCheckout (utcClock noon)
       ``"club@group.calendar" true
     = Ok [].
Proof.
  split; [reflexivity |].
  destruct (missing_cache_is_empty (fun s => s) freshCheckout (utcClock noon)
              ``"club@group.calendar" eq_refl) as (H1 & H2 & H3).
  split; [exact H1 |]. split; [exact H2 |]. apply H3. discriminate.
Defined.

(** * Further properties of the code *)

(** ** The reconciler *)

(** X1.  An existing item whose correlation identifier the scan rejects
    (empty, not scannable, or scanning to zero) is the target of no delete
    and no update, for every desired set and every environment, as long as
    the opaque ids of the snapshot are distinct. *)
Theorem rejected_items_are_never_targets (env : GCal.Env) (events : list Event)
        (existing : list calendar.Event) (g : calendar.Event) :
  NoDup (map calendar.Id existing) -> In g existing -> GCal.stravaIDOf g = None ->
  forall c, In c (GCal.syncStravaEvents env events (Ok existing)).1 ->
            TargetFacts.target c <> Some (calendar.Id g).
Proof. apply TargetFacts.rejected_item_untouched. Qed.

Lemma rejected_items_are_never_targets_witness :
  NoDup (map calendar.Id snapshot)
  /\ GCal.stravaIDOf (calendarItem ``"g-1" ``"k3j4h5@google.com" ``"Dentist") = None
  /\ (forall c, In c (GCal.syncStravaEvents eveningRun [tempo; dawn] (Ok snapshot)).1 ->
                TargetFacts.target c <> Some ``"g-1").
Proof.
  assert (NoDup (map calendar.Id snapshot)) as Hids
    by (apply (bool_decide_unpack _); vm_compute; exact I).
  assert (GCal.stravaIDOf (calendarItem ``"g-1" ``"k3j4h5@google.com" ``"Dentist") = None)
    as Hid by (vm_compute; reflexivity).
  split; [exact Hids |]. split; [exact Hid |].
  apply (rejected_items_are_never_targets eveningRun [tempo; dawn] snapshot
           (calendarItem ``"g-1" ``"k3j4h5@google.com" ``"Dentist") Hids); [now left | exact Hid].
Defined.

(** X2.  With no desired event, a run deletes every existing item that the
    scan takes as managed, in the order of the snapshot, touches no other
    item, inserts nothing and returns no error, whether or not the club id
    is set. *)
Theorem nothing_desired_deletes_all_managed (env : GCal.Env) (existing : list calendar.Event) :
  GCal.syncStravaEvents env [] (Ok existing)
  = (flat_map (fun g => match GCal.stravaIDOf g with
                        | Some _ => [GCal.EventsDelete (calendar.Id g)]
                        | None => []
                        end) existing, None).
Proof.
  unfold GCal.syncStravaEvents. cbn [GCal.stravaEventMap fold_left].
  rewrite ShapeFacts.scan_nothing_desired. cbn [GCal.createMissing flat_map].
  now rewrite app_nil_r.
Qed.

(** X3.  The calls of a run, item by item.  The scan goes through a
    prefix of the snapshot (all of it unless the run stops with the club-id
    error) and makes for each item, in order, no call, or one delete of
    that item, or one update of that item with the record composed for a
    desired event; then come the inserts, one for each event of a sublist
    of the desired list, in its order, with the record composed for that
    event. *)
Theorem calls_are_scan_then_inserts (env : GCal.Env) (events : list Event)
        (existing : list calendar.Event) :
  exists (scanned unscanned : list calendar.Event) (perItem : list (list GCal.Call))
         (created : list Event),
    existing = scanned ++ unscanned
    /\ Forall2 (fun g cs =>
                  cs = [] \/ cs = [GCal.EventsDelete (calendar.Id g)]
                  \/ exists e, In e events
                               /\ cs = [GCal.EventsUpdate (calendar.Id g)
                                          (GCal.createGoogleCalendarEvent env e)])
               scanned perItem
    /\ sublist created events
    /\ (GCal.syncStravaEvents env events (Ok existing)).1
       = concat perItem
         ++ map (fun e => GCal.EventsInsert (GCal.createGoogleCalendarEvent env e)) created.
Proof.
  unfold GCal.syncStravaEvents.
  destruct (ShapeFacts.scan_per_item env events existing ∅)
    as (scanned & unscanned & perItem & Hsplit & Hper & Hcalls).
  destruct (GCal.scanExisting env (GCal.stravaEventMap events) existing ∅) as [[calls p] err].
  cbn [fst] in Hcalls. subst calls.
  destruct err as [e |]; cbn [fst].
  - exists scanned, unscanned, perItem, []. repeat split; try assumption.
    + apply sublist_nil_l.
    + cbn [map]. now rewrite app_nil_r.
  - exists scanned, unscanned, perItem,
      (List.filter (fun e => negb (GCal.isProcessed p (ID e))) events).
    repeat split; try assumption.
    + apply ShapeFacts.filter_is_sublist.
    + now rewrite ShapeFacts.createMissing_filter.
Qed.

(** X4.  Without the club id a run stops at the first existing item that
    matches a desired event: it returns the error of [getClubID], and the
    calls it has made by then are deletes only, no update and no insert. *)
Theorem missing_club_id_stops_at_first_match (env : GCal.Env) (events : list Event)
        (existing : list calendar.Event) (g : calendar.Event) (e : Event) :
  GCal.STRAVA_CLUB_ID env = [] ->
  In g existing -> In e events -> GCal.stravaIDOf g = Some (ID e) ->
  (GCal.syncStravaEvents env events (Ok existing)).2
  = Some (GCal.ClubID Strava.ClubIDNotSet)
  /\ Forall (fun c => exists id, c = GCal.EventsDelete id)
            (GCal.syncStravaEvents env events (Ok existing)).1.
Proof.
  intros Hclub Hg He Hid.
  set (m := GCal.stravaEventMap events).
  assert (IdempotenceFacts.matched m g = true) as Hm.
  { unfold IdempotenceFacts.matched. rewrite Hid.
    apply bool_decide_eq_true_2. now apply SyncFacts.stravaEventMap_has. }
  destruct (IdempotenceFacts.first_matched m existing)
    as [Hnone | (pre & x & post & -> & Hpre & Hx)].
  { rewrite List.Forall_forall in Hnone. rewrite (Hnone g Hg) in Hm. discriminate. }
  unfold GCal.syncStravaEvents. fold m.
  rewrite IdempotenceFacts.scan_unmatched by exact Hpre.
  assert (GCal.scanExisting env m (x :: post) ∅
          = ([], <[default 0 (GCal.stravaIDOf x) := true]> ∅,
             Some (GCal.ClubID Strava.ClubIDNotSet))) as ->.
  { unfold IdempotenceFacts.matched in Hx. cbn [GCal.scanExisting].
    destruct (GCal.stravaIDOf x) as [id |]; [| discriminate].
    apply bool_decide_eq_true in Hx as [e' ->].
    now rewrite IdempotenceFacts.getClubID_unset by exact Hclub. }
  cbn [fst snd]. split; [reflexivity |]. rewrite app_nil_r.
  clear -Hpre. induction Hpre as [| y pre Hy _ IH]; [constructor |].
  cbn [flat_map]. apply Forall_app. split; [| exact IH].
  unfold IdempotenceFacts.matched in Hy. unfold SyncFacts.itemCalls.
  destruct (GCal.stravaIDOf y) as [id |]; [| constructor].
  destruct (m !! id) as [e' |] eqn:E.
  - rewrite bool_decide_eq_true_2 in Hy by now eexists. discriminate.
  - constructor; [now eexists | constructor].
Qed.

Lemma missing_club_id_stops_at_first_match_witness :
  (GCal.syncStravaEvents
     {| GCal.STRAVA_CLUB_ID := [];
        GCal.syncTime := ``"Mon, 2 Jun @ 6:00 PM";
        GCal.formatLondon := londonFormat;
        GCal.parseRFC3339 := londonParse |}
     [tempo; dawn] (Ok snapshot)).2
  = Some (GCal.ClubID Strava.ClubIDNotSet).
Proof.
  refine (proj1 (missing_club_id_stops_at_first_match _ [tempo; dawn] snapshot
                   (calendarItem ``"g-3" ``"1001@strava.com" ``"Tempo") tempo _ _ _ _)).
  - reflexivity.
  - right. right. now left.
  - now left.
  - vm_compute. reflexivity.
Defined.

(** X5.  Distinct 64-bit ids give distinct correlation identifiers. *)
Theorem correlation_identifiers_are_distinct (id1 id2 : Z) :
  - 2 ^ 63 <= id1 < 2 ^ 63 -> - 2 ^ 63 <= id2 < 2 ^ 63 ->
  id1 <> id2 -> GCal.formatUID id1 <> GCal.formatUID id2.
Proof.
  intros H1 H2 Hne Heq.
  pose proof (FmtFacts.Sscanf_formatUID id1 H1) as S1.
  pose proof (FmtFacts.Sscanf_formatUID id2 H2) as S2.
  rewrite Heq, S2 in S1. injection S1 as S1. congruence.
Qed.

Lemma correlation_identifiers_are_distinct_witness :
  1001 <> 1002 /\ GCal.formatUID 1001 <> GCal.formatUID 1002.
Proof.
  split; [lia |]. apply correlation_identifiers_are_distinct; lia.
Defined.

(** X6.  The sync time makes every run an update: the description a run
    writes ends with its sync time, to the minute.  So for an existing item
    that carries the correlation identifier of a desired event and the
    description of a run under the same club id at one sync time, a run at
    another sync time (both ending in M, of AM or PM) updates the item,
    whatever its other fields are. *)
Theorem a_run_at_another_minute_updates_the_item (env : GCal.Env) (events : list Event)
        (existing : list calendar.Event) (item : calendar.Event) (e : Event)
        (t1 t2 : gostring) :
  GCal.STRAVA_CLUB_ID env <> [] ->
  NoDup (map ID events) -> In e events ->
  ID e <> 0 -> - 2 ^ 63 <= ID e < 2 ^ 63 ->
  In item existing ->
  calendar.ICalUID item = GCal.formatUID (ID e) ->
  calendar.Description item
  = GCal.composeDescription e (GCal.STRAVA_CLUB_ID env) (t1 ++ ``"M") ->
  GCal.syncTime env = t2 ++ ``"M" -> t1 <> t2 ->
  In (GCal.EventsUpdate (calendar.Id item) (GCal.createGoogleCalendarEvent env e))
     (GCal.syncStravaEvents env events (Ok existing)).1.
Proof.
  intros Hclub Hnd He Hz Hr Hitem Huid Hdesc Htime Hne.
  rewrite SyncFacts.syncStravaEvents_set by exact Hclub. cbn [fst].
  apply in_or_app. left. apply in_flat_map. exists item. split; [exact Hitem |].
  unfold SyncFacts.itemCalls.
  rewrite (IdempotenceFacts.stravaIDOf_formatUID item (ID e) Hz Hr Huid).
  rewrite (SyncFacts.stravaEventMap_unique events e Hnd He).
  assert (GCal.needsUpdate env (GCal.STRAVA_CLUB_ID env) item e = true) as ->; [| now left].
  unfold GCal.needsUpdate. rewrite Hdesc, Htime, !StampFacts.TrimSpace_description.
  rewrite (bool_decide_eq_true_2
             (GCal.composeDescription e (GCal.STRAVA_CLUB_ID env) (t1 ++ ``"M")
              ≠ GCal.composeDescription e (GCal.STRAVA_CLUB_ID env) (t2 ++ ``"M"))).
  - now rewrite !orb_true_r.
  - intros H. apply StampFacts.composeDescription_time in H.
    apply app_inv_tail in H. contradiction.
Qed.

Lemma a_run_at_another_minute_updates_the_item_witness :
  In (GCal.EventsUpdate ``"new-0" (GCal.createGoogleCalendarEvent nextRun tempo))
     (GCal.syncStravaEvents nextRun [tempo; dawn]
        (Ok [Service.withId ``"new-0" (GCal.createGoogleCalendarEvent eveningRun tempo)])).1.
Proof.
  apply (a_run_at_another_minute_updates_the_item nextRun [tempo; dawn]
           [Service.withId ``"new-0" (GCal.createGoogleCalendarEvent eveningRun tempo)]
           (Service.withId ``"new-0" (GCal.createGoogleCalendarEvent eveningRun tempo))
           tempo ``"Mon, 2 Jun @ 6:00 P" ``"Mon, 2 Jun @ 6:15 P").
  - discriminate.
  - apply (bool_decide_unpack _). vm_compute. exact I.
  - now left.
  - discriminate.
  - cbn. lia.
  - now left.
  - reflexivity.
  - reflexivity.
  - reflexivity.
  - discriminate.
Defined.

(** ** Event construction *)

(** X7.  The conversion loop loses nothing and keeps the order: the
    converted events are those of the source events that convert, in the
    order of the feed; the log holds the id and the error of the others, in
    that order; so every source event is either converted or logged. *)
Theorem conversion_keeps_order (STRAVA_CLUB_ID : gostring)
        (redactPhoneNumbers : gostring -> gostring) (stravaEvents : list StravaEvent.t) :
  let convert := Strava.convertStravaEvent STRAVA_CLUB_ID redactPhoneNumbers in
  let batch := Strava.convertEvents STRAVA_CLUB_ID redactPhoneNumbers stravaEvents in
  batch.1 = flat_map (fun se => match convert se with Ok event => [event] | Err _ => [] end)
                     stravaEvents
  /\ batch.2 = flat_map (fun se => match convert se with
                                   | Ok _ => []
                                   | Err err => [(StravaEvent.ID se, err)]
                                   end) stravaEvents
  /\ (length batch.1 + length batch.2)%nat = length stravaEvents.
Proof.
  cbv zeta. induction stravaEvents as [| se l (IH1 & IH2 & IH3)]; [now repeat split |].
  rewrite ConvertFacts.convertEvents_cons. cbn [flat_map].
  destruct (Strava.convertStravaEvent STRAVA_CLUB_ID redactPhoneNumbers se);
    cbn [fst snd app length]; rewrite <- IH1, <- IH2; repeat split; lia.
Qed.

(** X8.  Without the club id no source event converts: the batch is empty
    and the log names every event of the feed, in order. *)
Theorem no_club_id_converts_nothing (redactPhoneNumbers : gostring -> gostring)
        (stravaEvents : list StravaEvent.t) :
  (Strava.convertEvents [] redactPhoneNumbers stravaEvents).1 = []
  /\ map fst (Strava.convertEvents [] redactPhoneNumbers stravaEvents).2
     = map StravaEvent.ID stravaEvents.
Proof.
  induction stravaEvents as [| se l [IH1 IH2]]; [now split |].
  rewrite ConvertFacts.convertEvents_cons.
  assert (exists err, Strava.convertStravaEvent [] redactPhoneNumbers se = Err err) as [err ->].
  { unfold Strava.convertStravaEvent.
    destruct (StravaEvent.UpcomingOccurrences se) as [| first rest]; [now eexists |].
    destruct (GoTime.ParseStravaLayout first); now eexists. }
  cbn [fst snd map]. now rewrite IH1, IH2.
Qed.


(** ** Time windows *)

(** X9.  The export window lies within the cache window: with a clock for
    which seven days before now is not after now, filtering the cached
    events (later than now minus 7 days) removes no event that the sync and
    export filter (after now, before now plus 60 days) keeps. *)
Theorem cache_filter_keeps_the_export_window (clock : Main.Clock) (events : list Event) :
  GoTime.After (Main.AddDate clock (Main.Now clock) 0 0 (-7)) (Main.Now clock) = false ->
  Main.next60Days clock (Main.filterEvents clock events) = Main.next60Days clock events.
Proof.
  intros Hclock. unfold Main.next60Days, Main.filterEvents.
  induction events as [| e l IH]; [reflexivity |].
  cbn [List.filter].
  destruct (GoTime.After (Start e) (Main.AddDate clock (Main.Now clock) 0 0 (-7))) eqn:E7.
  - cbn [List.filter]. now rewrite IH.
  - rewrite IH.
    destruct (GoTime.After (Start e) (Main.Now clock)) eqn:E0; [| reflexivity].
    rewrite (After_trans _ _ _ E0 Hclock) in E7. discriminate.
Qed.

Lemma cache_filter_keeps_the_export_window_witness :
  Main.next60Days (utcClock noon)
    (Main.filterEvents (utcClock noon)
       [eventAt 1 (GoTime.AddDaysUTC noon 3); eventAt 2 (GoTime.AddDaysUTC noon (-9))])
  = Main.next60Days (utcClock noon)
      [eventAt 1 (GoTime.AddDaysUTC noon 3); eventAt 2 (GoTime.AddDaysUTC noon (-9))].
Proof.
  apply (cache_filter_keeps_the_export_window (utcClock noon)). reflexivity.
Defined.

(** ** The serializer *)

(** X10.  The newer [escapeICSText] leaves no raw line break: its result holds
    neither a carriage return nor a line feed, whatever the text. *)
Theorem rfc_escaped_text_has_no_line_break (s : gostring) :
  Forall (fun c => c <> CR /\ c <> LF) (IcsRfc.escapeICSText s).
Proof.
  destruct (BreakFacts.rfc_escape_cases (length s) s (le_n _)) as [_ H].
  eapply List.Forall_impl; [| exact H]. intros c Hc. unfold BreakFacts.isBreak in Hc.
  apply orb_false_elim in Hc as [H1 H2].
  apply bool_decide_eq_false in H1. apply bool_decide_eq_false in H2. now split.
Qed.

(** X11.  Un-escaping what the newer [escapeICSText] writes gives the text
    back with every line break (CRLF, lone CR, lone LF) as one line
    feed. *)
Theorem rfc_escape_reads_back_with_line_feeds (s : gostring) :
  unescapeText (IcsRfc.escapeICSText s)
  = Strings.ReplaceAll (Strings.ReplaceAll s [CR; LF] [LF]) [CR] [LF].
Proof. exact (proj1 (BreakFacts.rfc_escape_cases (length s) s (le_n _))). Qed.

(** X12.  Tag removal, the first step of [stripHTML], leaves no tag: removing
    tags from its result changes nothing. *)
Theorem tag_removal_leaves_no_tag (s : gostring) :
  IcsRfc.stripTags false (IcsRfc.stripTags false s) = IcsRfc.stripTags false s.
Proof. apply MarkupFacts.stripTags_again. Qed.

(** X13.  In the newer revision a property is read back: for a property name
    without carriage return and a value without carriage return, [<] and
    [&], un-folding what [formatICSProperty] writes gives the name, a
    colon, the escaped value and the CRLF, and un-escaping the escaped value
    gives the value. *)
Theorem rfc_property_round_trip (property value : gostring) :
  Forall (fun c => c <> CR) property ->
  Forall (fun c => c <> CR /\ c <> "<"%char /\ c <> "&"%char) value ->
  unfold (IcsRfc.formatICSProperty property value)
  = property ++ ``":" ++ IcsRfc.escapeICSText value ++ CRLF
  /\ unescapeText (IcsRfc.escapeICSText value) = value.
Proof.
  intros Hp Hv. split.
  - rewrite FoldFacts.rfc_unfold_round_trip by exact Hp.
    rewrite MarkupFacts.stripHTML_plain; [reflexivity |].
    eapply List.Forall_impl; [| exact Hv]. now intros c (_ & H1 & H2).
  - apply BreakFacts.rfc_escape_reads_back.
    eapply List.Forall_impl; [| exact Hv]. now intros c (H & _).
Qed.

Lemma rfc_property_round_trip_witness :
  Forall (fun c => c <> CR) ``"DESCRIPTION"
  /\ Forall (fun c => c <> CR /\ c <> "<"%char /\ c <> "&"%char)
            (Ics.description eveningExport 0 tempo)
  /\ unfold (IcsRfc.formatICSProperty ``"DESCRIPTION" (Ics.description eveningExport 0 tempo))
     = ``"DESCRIPTION" ++ ``":"
       ++ IcsRfc.escapeICSText (Ics.description eveningExport 0 tempo) ++ CRLF
  /\ unescapeText (IcsRfc.escapeICSText (Ics.description eveningExport 0 tempo))
     = Ics.description eveningExport 0 tempo.
Proof.
  assert (Forall (fun c => c <> CR) ``"DESCRIPTION") as Hp
    by (repeat constructor; discriminate).
  assert (Forall (fun c => c <> CR /\ c <> "<"%char /\ c <> "&"%char)
                 (Ics.description eveningExport 0 tempo)) as Hv
    by (vm_compute; repeat constructor; discriminate).
  split; [exact Hp |]. split; [exact Hv |].
  exact (rfc_property_round_trip ``"DESCRIPTION" (Ics.description eveningExport 0 tempo) Hp Hv).
Defined.

(** X14.  In the newer revision, for a property name without carriage
    return, the physical lines of a written property are a first line of
    at most 75 bytes, then continuation lines of a space and at most 75
    bytes each (at most 76 in all), then the empty rest after the last
    CRLF; and the pieces, without the spaces, make up the logical line. *)
Theorem rfc_property_physical_lines (property value : gostring) :
  Forall (fun c => c <> CR) property ->
  exists first rest,
    physicalLines (IcsRfc.formatICSProperty property value)
    = first :: map (cons SP) rest ++ [[]]
    /\ (length first <= 75)%nat
    /\ Forall (fun piece => (length piece <= 75)%nat) rest
    /\ first ++ concat rest
       = property ++ ``":" ++ IcsRfc.escapeICSText (IcsRfc.stripHTML value).
Proof.
  intros Hp.
  pose proof (DocFacts.formatICSProperty_lines property value) as Hw.
  pose proof (DocFacts.propertyLines_noCR property value Hp) as Hn.
  unfold DocFacts.propertyLines in *.
  set (line := DocFacts.logicalLine property value) in *.
  pose proof (DocFacts.pieces_short (length line) line (le_n _)) as Hshort.
  pose proof (DocFacts.pieces_concat (length line) line) as Hcat.
  pose proof (DocFacts.pieces_nonempty (length line) line) as Hne.
  destruct (DocFacts.pieces (length line) line) as [| first rest]; [congruence |].
  exists first, rest. inversion Hshort as [| ? ? Hf Hr]; subst.
  split; [| split; [exact Hf | split; [exact Hr | exact Hcat]]].
  unfold physicalLines. rewrite Hw, <- (app_nil_r (DocFacts.writeLines _)).
  rewrite DocFacts.linesFrom_lines by exact Hn. reflexivity.
Qed.

Lemma rfc_property_physical_lines_witness :
  exists first rest,
    physicalLines (IcsRfc.formatICSProperty ``"DESCRIPTION" (repeat "a"%char 150))
    = first :: map (cons SP) rest ++ [[]]
    /\ (length first <= 75)%nat
    /\ Forall (fun piece => (length piece <= 75)%nat) rest
    /\ first ++ concat rest
       = ``"DESCRIPTION" ++ ``":"
         ++ IcsRfc.escapeICSText (IcsRfc.stripHTML (repeat "a"%char 150)).
Proof.
  apply (rfc_property_physical_lines ``"DESCRIPTION" (repeat "a"%char 150)).
  repeat constructor; discriminate.
Defined.

(** X15.  The two revisions of [formatICSProperty] write the same bytes for a
    property name without line feed and a value without line break, [<]
    and [&]. *)
Theorem revisions_agree_on_plain_values (property value : gostring) :
  Forall (fun c => c <> LF) property ->
  Forall (fun c => c <> CR /\ c <> LF /\ c <> "<"%char /\ c <> "&"%char) value ->
  IcsRaw.formatICSProperty property value = IcsRfc.formatICSProperty property value.
Proof.
  intros Hp Hv.
  unfold IcsRaw.formatICSProperty, IcsRfc.formatICSProperty.
  rewrite MarkupFacts.stripHTML_plain
    by (eapply List.Forall_impl; [| exact Hv]; now intros c (_ & _ & H1 & H2)).
  rewrite escapeICSText_rfc_bytes
    by (eapply List.Forall_impl; [| exact Hv]; now intros c (H1 & H2 & _)).
  rewrite escapeICSText_bytes, FoldFacts.rfc_foldLine_loop.
  f_equal. unfold IcsRaw.foldLine, Strings.Split1.
  rewrite RawFacts.splitByte_absent; [reflexivity |].
  apply Forall_app. split; [exact Hp |].
  apply Forall_app. split; [repeat constructor; discriminate |].
  apply escaped_keeps; [discriminate |].
  eapply List.Forall_impl; [| exact Hv]. now intros c (_ & H & _).
Qed.

Lemma revisions_agree_on_plain_values_witness :
  Forall (fun c => c <> LF) ``"LOCATION"
  /\ Forall (fun c => c <> CR /\ c <> LF /\ c <> "<"%char /\ c <> "&"%char)
            ``"Priory Park; main gate, north side"
  /\ IcsRaw.formatICSProperty ``"LOCATION" ``"Priory Park; main gate, north side"
     = IcsRfc.formatICSProperty ``"LOCATION" ``"Priory Park; main gate, north side".
Proof.
  assert (Forall (fun c => c <> LF) ``"LOCATION") as Hp by (repeat constructor; discriminate).
  assert (Forall (fun c => c <> CR /\ c <> LF /\ c <> "<"%char /\ c <> "&"%char)
                 ``"Priory Park; main gate, north side") as Hv
    by (repeat constructor; discriminate).
  split; [exact Hp |]. split; [exact Hv |].
  exact (revisions_agree_on_plain_values _ _ Hp Hv).
Defined.

(** X16.  In the older revision a line feed in the text ends the line:
    [foldLine] folds the text before and the text after a line feed
    separately and writes a bare CRLF, without continuation space, between
    them. *)
Theorem raw_line_feed_splits_the_line (before after : gostring) :
  IcsRaw.foldLine (before ++ [LF] ++ after)
  = IcsRaw.foldLine before ++ CRLF ++ IcsRaw.foldLine after.
Proof.
  unfold IcsRaw.foldLine, Strings.Split1. cbn [app].
  rewrite RawFacts.Split1_sep, map_app.
  apply RawFacts.joinLines_app.
  - intros H. apply map_eq_nil in H. now apply RawFacts.splitByte_nonempty in H.
  - intros H. apply map_eq_nil in H. now apply RawFacts.splitByte_nonempty in H.
Qed.

(** X17.  In the newer revision the document has one record for each event:
    when the texts of the clock and the links of the events hold no
    carriage return, the physical lines of the document are the header
    lines, the lines of the events, the closing line and the bare line
    feed, and among them BEGIN:VEVENT and END:VEVENT occur once for each
    event, whatever the titles, descriptions and locations hold. *)
Theorem rfc_document_has_one_record_per_event (env : Ics.Env) (events : list Event) :
  (forall i, Forall (fun c => c <> CR) (Ics.nowUTC env i)) ->
  Forall (fun e => Forall (fun c => c <> CR) (Ics.formatLondon env (Start e))
                   /\ Forall (fun c => c <> CR) (Ics.formatLondon env (End e))
                   /\ Forall (fun c => c <> CR) (URL e)) events ->
  (exists body,
     physicalLines (IcsRfc.generateICS env events)
     = Ics.headerLines ++ body ++ [ ``"END:VCALENDAR"; [LF] ])
  /\ length (List.filter (fun l => bool_decide (l = ``"BEGIN:VEVENT"))
                         (physicalLines (IcsRfc.generateICS env events)))
     = length events
  /\ length (List.filter (fun l => bool_decide (l = ``"END:VEVENT"))
                         (physicalLines (IcsRfc.generateICS env events)))
     = length events.
Proof.
  intros Hstamps Hevents.
  rewrite (GenerateFacts.generateICS_lines env events Hstamps Hevents).
  split; [eexists; reflexivity |].
  change (length (List.filter (fun l => bool_decide (l = ?x)) ?ls))
    with (GenerateFacts.occurrences x ls).
  rewrite !GenerateFacts.occurrences_app.
  rewrite (GenerateFacts.eventsLines_count ``"BEGIN:VEVENT")
    by (intros; apply GenerateFacts.eventLines_begin).
  rewrite (GenerateFacts.eventsLines_count ``"END:VEVENT")
    by (intros; apply GenerateFacts.eventLines_end).
  change (GenerateFacts.occurrences ``"BEGIN:VEVENT" Ics.headerLines) with 0%nat.
  change (GenerateFacts.occurrences ``"END:VEVENT" Ics.headerLines) with 0%nat.
  change (GenerateFacts.occurrences ``"BEGIN:VEVENT" [ ``"END:VCALENDAR"; [LF] ]) with 0%nat.
  change (GenerateFacts.occurrences ``"END:VEVENT" [ ``"END:VCALENDAR"; [LF] ]) with 0%nat.
  split; lia.
Qed.

Lemma rfc_document_has_one_record_per_event_witness :
  length (List.filter (fun l => bool_decide (l = ``"BEGIN:VEVENT"))
                      (physicalLines (IcsRfc.generateICS eveningExport [tempo; dawn])))
  = 2%nat
  /\ length (List.filter (fun l => bool_decide (l = ``"END:VEVENT"))
                         (physicalLines (IcsRfc.generateICS eveningExport [tempo; dawn])))
     = 2%nat.
Proof.
  apply (rfc_document_has_one_record_per_event eveningExport [tempo; dawn]).
  - intros i. repeat constructor; discriminate.
  - repeat constructor; vm_compute; repeat constructor; discriminate.
Defined.

(** X18.  The serializer keeps the order of the events: under the conditions
    above, the UID lines of the document of the newer revision are, in
    order, the correlation identifiers [<id>@strava.com] of the events of
    the list, one for each event. *)
Theorem rfc_document_lists_the_events_in_order (env : Ics.Env) (events : list Event) :
  (forall i, Forall (fun c => c <> CR) (Ics.nowUTC env i)) ->
  Forall (fun e => Forall (fun c => c <> CR) (Ics.formatLondon env (Start e))
                   /\ Forall (fun c => c <> CR) (Ics.formatLondon env (End e))
                   /\ Forall (fun c => c <> CR) (URL e)) events ->
  List.filter (fun l => Strings.HasPrefix l ``"UID:")
              (physicalLines (IcsRfc.generateICS env events))
  = map (fun e => ``"UID:" ++ GCal.formatUID (ID e)) events.
Proof.
  intros Hstamps Hevents.
  rewrite (GenerateFacts.generateICS_lines env events Hstamps Hevents).
  rewrite !List.filter_app.
  change (List.filter _ (GenerateFacts.eventsLines env 0 events))
    with (List.filter UidFacts.isUID (GenerateFacts.eventsLines env 0 events)).
  rewrite UidFacts.eventsLines_UID.
  assert (List.filter (fun l => Strings.HasPrefix l ``"UID:") Ics.headerLines = []) as ->
    by (vm_compute; reflexivity).
  assert (List.filter (fun l => Strings.HasPrefix l ``"UID:") [ ``"END:VCALENDAR"; [LF] ] = [])
    as -> by (vm_compute; reflexivity).
  cbn [app]. apply app_nil_r.
Qed.

Lemma rfc_document_lists_the_events_in_order_witness :
  List.filter (fun l => Strings.HasPrefix l ``"UID:")
              (physicalLines (IcsRfc.generateICS eveningExport [tempo; dawn]))
  = [ ``"UID:1001@strava.com"; ``"UID:1002@strava.com" ].
Proof.
  apply (rfc_document_lists_the_events_in_order eveningExport [tempo; dawn]).
  - intros i. repeat constructor; discriminate.
  - repeat constructor; vm_compute; repeat constructor; discriminate.
Defined.

(** X19.  In the newer revision the summary, the link and the location of an
    event are written whole: under the same conditions, the document holds
    the physical line SUMMARY: with the escaped title, the physical line
    URL: with the link and, for a location that is not empty, the physical
    line LOCATION: with the escaped location, each on one line however long
    it is. *)
Theorem rfc_summary_url_location_are_not_folded (env : Ics.Env) (events : list Event)
        (k : nat) (e : Event) :
  (forall i, Forall (fun c => c <> CR) (Ics.nowUTC env i)) ->
  Forall (fun e => Forall (fun c => c <> CR) (Ics.formatLondon env (Start e))
                   /\ Forall (fun c => c <> CR) (Ics.formatLondon env (End e))
                   /\ Forall (fun c => c <> CR) (URL e)) events ->
  events !! k = Some e ->
  In (``"SUMMARY:" ++ IcsRfc.escapeICSText (Title e))
     (physicalLines (IcsRfc.generateICS env events))
  /\ In (``"URL:" ++ URL e) (physicalLines (IcsRfc.generateICS env events))
  /\ (Location e <> [] ->
      In (``"LOCATION:" ++ IcsRfc.escapeICSText (Location e))
         (physicalLines (IcsRfc.generateICS env events))).
Proof.
  intros Hstamps Hevents Hk.
  rewrite (GenerateFacts.generateICS_lines env events Hstamps Hevents).
  assert (forall l, In l (GenerateFacts.eventLines env (0 + k) e) ->
                    In l (Ics.headerLines ++ GenerateFacts.eventsLines env 0 events
                          ++ [ ``"END:VCALENDAR"; [LF] ])) as Hin.
  { intros l Hl. apply in_or_app. right. apply in_or_app. left.
    now apply (GenerateFacts.eventsLines_In env events k e 0 Hk). }
  split; [| split].
  - apply Hin. unfold GenerateFacts.eventLines. cbn [app In]. tauto.
  - apply Hin. unfold GenerateFacts.eventLines. rewrite !in_app_iff. cbn [In]. tauto.
  - intros Hloc. apply Hin. unfold GenerateFacts.eventLines. rewrite !in_app_iff.
    destruct (Location e) as [| c loc]; [congruence |]. cbn [In]. tauto.
Qed.

Lemma rfc_summary_url_location_are_not_folded_witness :
  In (``"SUMMARY:" ++ IcsRfc.escapeICSText (Title dawn))
     (physicalLines (IcsRfc.generateICS eveningExport [tempo; dawn]))
  /\ In (``"URL:" ++ URL dawn) (physicalLines (IcsRfc.generateICS eveningExport [tempo; dawn]))
  /\ (Location dawn <> [] ->
      In (``"LOCATION:" ++ IcsRfc.escapeICSText (Location dawn))
         (physicalLines (IcsRfc.generateICS eveningExport [tempo; dawn]))).
Proof.
  apply (rfc_summary_url_location_are_not_folded eveningExport [tempo; dawn] 1 dawn).
  - intros i. repeat constructor; discriminate.
  - repeat constructor; vm_compute; repeat constructor; discriminate.
  - reflexivity.
Defined.

(** X20.  In the newer revision the text/html alternative is written without
    markup: for an event whose organizer, location, description and link,
    and a club id and sync time, that hold neither [<], [>] nor [&],
    un-folding the X-ALT-DESC property gives the escaped plain text of the
    HTML description, the tags removed and with them the line feeds of the
    fields, which it writes as [<br>]. *)
Theorem rfc_html_alternative_is_plain_text (env : Ics.Env) (i : nat) (e : Event) :
  let markupFree (s : gostring) :=
    Forall (fun c => c <> "<"%char /\ c <> ">"%char /\ c <> "&"%char) s in
  let withoutLF (s : gostring) := List.filter (fun c => negb (bool_decide (c = LF))) s in
  markupFree (Organizer e) -> markupFree (Location e) -> markupFree (Description e) ->
  markupFree (URL e) -> markupFree (Ics.clubIDOrUnknown env) -> markupFree (Ics.syncTime env i) ->
  unfold (IcsRfc.formatICSProperty ``"X-ALT-DESC;FMTTYPE=text/html" (Ics.htmlDescription env i e))
  = ``"X-ALT-DESC;FMTTYPE=text/html" ++ ``":"
    ++ IcsRfc.escapeICSText
         (``"Leader: " ++ withoutLF (Organizer e)
          ++ ``"Location: " ++ withoutLF (Location e)
          ++ withoutLF (Description e)
          ++ ``"View on Strava: " ++ URL e
          ++ ``"Synced from Strava Club " ++ Ics.clubIDOrUnknown env
          ++ ``" on: " ++ Ics.syncTime env i)
    ++ CRLF.
Proof.
  intros markupFree withoutLF Ho Hl Hd Hu Hc Ht.
  rewrite FoldFacts.rfc_unfold_round_trip by (repeat constructor; discriminate).
  now rewrite AltFacts.stripHTML_htmlDescription.
Qed.

Lemma rfc_html_alternative_is_plain_text_witness :
  unfold (IcsRfc.formatICSProperty ``"X-ALT-DESC;FMTTYPE=text/html"
            (Ics.htmlDescription eveningExport 0 tempo))
  = ``"X-ALT-DESC;FMTTYPE=text/html" ++ ``":"
    ++ IcsRfc.escapeICSText
         (``"Leader: Ada Hill" ++ ``"Location: Priory Park" ++ ``"Meet at the clock tower"
          ++ ``"View on Strava: https://www.strava.com/clubs/4242/group_events/1001"
          ++ ``"Synced from Strava Club 4242" ++ ``" on: Mon, 2 Jun @ 6:00 PM")
    ++ CRLF.
Proof.
  apply (rfc_html_alternative_is_plain_text eveningExport 0 tempo);
    vm_compute; repeat constructor; discriminate.
Defined.

(** ** The club feed *)

(** X21.  Pagination: when the club id is set, the requests can be built,
    and the network answers the next requests with status 200 and pages
    that decode, of which all but the last hold at least 200 events and the
    last fewer than 200 (none, possibly), then [fetchClubEvents] returns
    the events of all the pages in order, after one GET for each page, page
    numbers from 1 on, each with the bearer token of the store, which it
    leaves as it is.  One round of the loop for each page is enough. *)
Theorem fetch_returns_the_events_of_all_pages (STRAVA_CLUB_ID : gostring) (net : Strava.Net)
        (s : Strava.Session) (full : list (list StravaEvent.t)) (last : list StravaEvent.t)
        (fuel : nat) :
  STRAVA_CLUB_ID <> [] ->
  (forall page, Strava.newRequestOK net (Strava.pageURL STRAVA_CLUB_ID page) = true) ->
  Forall (fun p => (200 <= length p)%nat) full ->
  (length last < 200)%nat ->
  PageFacts.pagesServed net (length (Strava.sent s)) (length (full ++ [last]))
  = map Some (full ++ [last]) ->
  (length full < fuel)%nat ->
  Strava.fetchClubEvents fuel STRAVA_CLUB_ID net s
  = Some (Ok (concat full ++ last),
          {| Strava.tokens := Strava.tokens s;
             Strava.sent :=
               Strava.sent s
               ++ FetchFacts.pageRequests STRAVA_CLUB_ID (Strava.tokens s) 1 (S (length full)) |}).
Proof.
  intros Hclub Hurl Hfull Hlast Hserved Hfuel.
  unfold Strava.fetchClubEvents. rewrite SyncFacts.getClubID_set by exact Hclub.
  rewrite (FetchFacts.fetchLoop_pages net STRAVA_CLUB_ID full last Hurl Hfull Hlast fuel s 1 []);
    [reflexivity | | exact Hfuel].
  now apply PageFacts.pagesServed_serves.
Qed.

Lemma fetch_returns_the_events_of_all_pages_witness :
  Strava.fetchClubEvents 2 ``"4242" twoPages signedIn
  = Some (Ok (concat [repeat tempoRun 200] ++ [tempoRun]),
          {| Strava.tokens := Strava.tokens signedIn;
             Strava.sent :=
               Strava.sent signedIn
               ++ FetchFacts.pageRequests ``"4242" (Strava.tokens signedIn) 1 2 |}).
Proof.
  apply (fetch_returns_the_events_of_all_pages ``"4242" twoPages signedIn
           [repeat tempoRun 200] [tempoRun] 2).
  - discriminate.
  - reflexivity.
  - constructor; [rewrite repeat_length; lia | constructor].
  - cbn. lia.
  - vm_compute. reflexivity.
  - cbn. lia.
Defined.

(** X22.  One call of [makeAPIRequest] sends at most three requests: none
    when the request cannot be built; else the GET with the bearer token;
    after a 401 one POST of the refresh payload to the token address; and
    after a refresh that succeeds the GET once more, with the new token.
    It never refreshes twice, and it leaves the client's id and secret as
    they are. *)
Theorem api_request_sends_at_most_three (net : Strava.Net) (s : Strava.Session)
        (url : gostring) :
  let s' := (Strava.makeAPIRequest net s url).2 in
  let first := Http.GET url (``"Bearer " ++ AccessToken (Strava.tokens s)) in
  let refresh := Http.POST Strava.stravaTokenURL ``"application/json"
                           (Strava.refreshPayload (Strava.tokens s)) in
  let again := Http.GET url (``"Bearer " ++ AccessToken (Strava.tokens s')) in
  ClientID (Strava.tokens s') = ClientID (Strava.tokens s)
  /\ ClientSecret (Strava.tokens s') = ClientSecret (Strava.tokens s)
  /\ (Strava.sent s' = Strava.sent s
      \/ Strava.sent s' = Strava.sent s ++ [first]
      \/ Strava.sent s' = Strava.sent s ++ [first; refresh]
      \/ Strava.sent s' = Strava.sent s ++ [first; refresh; again]).
Proof. apply FetchFacts.makeAPIRequest_sent. Qed.


(** X23.  An expired access token: when the first answer is a 401, the token
    endpoint answers 200 with tokens that decode, and the network then
    serves the pages as above, [fetchClubEvents] returns the events of all
    the pages; it has sent the first GET with the old token, one POST of
    the refresh payload, and one GET for each page with the new access
    token; and the store holds the new access and refresh tokens beside the
    old client id and secret. *)
Theorem fetch_refreshes_an_expired_token (STRAVA_CLUB_ID : gostring) (net : Strava.Net)
        (s : Strava.Session) (tokenResp : TokenResponse.t)
        (full : list (list StravaEvent.t)) (last : list StravaEvent.t) (fuel : nat) :
  let sent0 := length (Strava.sent s) in
  let tokens' :=
    {| ClientID := ClientID (Strava.tokens s);
       ClientSecret := ClientSecret (Strava.tokens s);
       AccessToken := TokenResponse.AccessToken tokenResp;
       RefreshToken := TokenResponse.RefreshToken tokenResp |} in
  STRAVA_CLUB_ID <> [] ->
  (forall page, Strava.newRequestOK net (Strava.pageURL STRAVA_CLUB_ID page) = true) ->
  option_map Http.StatusCode (Strava.answer net sent0) = Some 401 ->
  match Strava.answer net (sent0 + 1) with
  | Some resp =>
      if Http.StatusCode resp =? 200
      then Strava.decodeTokenResponse net (Http.Body resp)
      else None
  | None => None
  end = Some tokenResp ->
  Forall (fun p => (200 <= length p)%nat) full ->
  (length last < 200)%nat ->
  PageFacts.pagesServed net (sent0 + 2) (length (full ++ [last])) = map Some (full ++ [last]) ->
  (length full < fuel)%nat ->
  Strava.fetchClubEvents fuel STRAVA_CLUB_ID net s
  = Some (Ok (concat full ++ last),
          {| Strava.tokens := tokens';
             Strava.sent :=
               Strava.sent s
               ++ [ Http.GET (Strava.pageURL STRAVA_CLUB_ID 1)
                             (``"Bearer " ++ AccessToken (Strava.tokens s));
                    Http.POST Strava.stravaTokenURL ``"application/json"
                              (Strava.refreshPayload (Strava.tokens s)) ]
               ++ FetchFacts.pageRequests STRAVA_CLUB_ID tokens' 1 (S (length full)) |}).
Proof.
  intros sent0 tokens' Hclub Hurl H401 Htok Hfull Hlast Hserved Hfuel.
  unfold Strava.fetchClubEvents. rewrite SyncFacts.getClubID_set by exact Hclub.
  subst sent0.
  destruct (Strava.answer net (length (Strava.sent s))) as [denied |] eqn:E0; [| discriminate].
  injection H401 as H401.
  destruct (Strava.answer net (length (Strava.sent s) + 1)) as [[code body] |] eqn:E1;
    [| discriminate].
  cbn [Http.StatusCode Http.Body] in Htok.
  destruct (Z.eqb_spec code 200) as [-> | _]; [| discriminate].
  apply (RefreshFacts.fetchLoop_refresh net STRAVA_CLUB_ID body denied tokenResp full last fuel s);
    try assumption.
  now apply PageFacts.pagesServed_serves.
Qed.

Lemma fetch_refreshes_an_expired_token_witness :
  exists tokens',
    Strava.fetchClubEvents 2 ``"4242" expiredThenTwoPages signedIn
    = Some (Ok (concat [repeat tempoRun 200] ++ [tempoRun]),
            {| Strava.tokens := tokens';
               Strava.sent :=
                 Strava.sent signedIn
                 ++ [ Http.GET (Strava.pageURL ``"4242" 1) ``"Bearer a1b2c3";
                      Http.POST Strava.stravaTokenURL ``"application/json"
                                (Strava.refreshPayload (Strava.tokens signedIn)) ]
                 ++ FetchFacts.pageRequests ``"4242" tokens' 1 2 |})
    /\ AccessToken tokens' = ``"x7y8z9".
Proof.
  eexists. split.
  - apply (fetch_refreshes_an_expired_token ``"4242" expiredThenTwoPages signedIn
             {| TokenResponse.AccessToken := ``"x7y8z9";
                TokenResponse.RefreshToken := ``"r4r5r6";
                TokenResponse.ExpiresAt := 1748887200 |}
             [repeat tempoRun 200] [tempoRun] 2).
    + discriminate.
    + reflexivity.
    + reflexivity.
    + reflexivity.
    + constructor; [rewrite repeat_length; lia | constructor].
    + cbn. lia.
    + vm_compute. reflexivity.
    + cbn. lia.
  - reflexivity.
Defined.

(** X24.  A run starts without an access token: the store that [loadTokens]
    returns holds an empty access token.  So whatever the network answers
    and however long the paging goes on, once the loop of
    [fetchClubEvents] has made a round, the first request on record is the
    GET of page 1 with the bare header "Bearer "; and when
    [fetchClubEvents] returns, the session it returns is that record. *)
Theorem first_request_carries_no_token (STRAVA_CLIENT_ID CLIENT_SECRET REFRESH_TOKEN : gostring)
        (STRAVA_CLUB_ID : gostring) (net : Strava.Net) (fuel : nat) (t : TokenStore) :
  Strava.loadTokens STRAVA_CLIENT_ID CLIENT_SECRET REFRESH_TOKEN = Ok t ->
  STRAVA_CLUB_ID <> [] ->
  Strava.newRequestOK net (Strava.pageURL STRAVA_CLUB_ID 1) = true ->
  head (Strava.sent (Strava.fetchLoopSession (S fuel) net
                       {| Strava.tokens := t; Strava.sent := [] |} STRAVA_CLUB_ID 1))
  = Some (Http.GET (Strava.pageURL STRAVA_CLUB_ID 1) ``"Bearer ")
  /\ forall r s',
       Strava.fetchClubEvents (S fuel) STRAVA_CLUB_ID net
         {| Strava.tokens := t; Strava.sent := [] |} = Some (r, s') ->
       s' = Strava.fetchLoopSession (S fuel) net
              {| Strava.tokens := t; Strava.sent := [] |} STRAVA_CLUB_ID 1.
Proof.
  intros Hload Hclub Hurl.
  assert (AccessToken t = []) as Htoken.
  { unfold Strava.loadTokens in Hload.
    destruct STRAVA_CLIENT_ID, CLIENT_SECRET, REFRESH_TOKEN; try discriminate.
    now injection Hload as <-. }
  split.
  - destruct (ProgressFacts.fetchLoopSession_first net STRAVA_CLUB_ID fuel
                {| Strava.tokens := t; Strava.sent := [] |} 1 Hurl) as (more & ->).
    unfold FetchFacts.bearer. cbn [Strava.sent Strava.tokens app head].
    now rewrite Htoken.
  - intros r s' Hfetch. unfold Strava.fetchClubEvents in Hfetch.
    rewrite SyncFacts.getClubID_set in Hfetch by exact Hclub.
    symmetry. exact (ProgressFacts.fetchLoop_session _ _ _ _ _ _ _ _ Hfetch).
Qed.

Lemma first_request_carries_no_token_witness :
  Strava.fetchClubEvents 5 ``"4242" endlessPages
    {| Strava.tokens := {| ClientID := ``"12345"; ClientSecret := ``"s3cr3t";
                           AccessToken := []; RefreshToken := ``"r4r5r6" |};
       Strava.sent := [] |} = None
  /\ head (Strava.sent (Strava.fetchLoopSession 5 endlessPages
                          {| Strava.tokens := {| ClientID := ``"12345"; ClientSecret := ``"s3cr3t";
                                                 AccessToken := []; RefreshToken := ``"r4r5r6" |};
                             Strava.sent := [] |} ``"4242" 1))
     = Some (Http.GET (Strava.pageURL ``"4242" 1) ``"Bearer ").
Proof.
  split; [vm_compute; reflexivity |].
  apply (first_request_carries_no_token ``"12345" ``"s3cr3t" ``"r4r5r6" ``"4242"
           endlessPages 4).
  - reflexivity.
  - discriminate.
  - reflexivity.
Defined.

(** X25.  All or nothing: when [fetchClubEvents] returns events, every
    answer the run has met since it started was a response with status 200
    or 401; a request that failed, or a response with any other status,
    makes it return an error and no events. *)
Theorem fetch_returns_events_only_after_good_answers (fuel : nat) (STRAVA_CLUB_ID : gostring)
        (net : Strava.Net) (s s' : Strava.Session) (events : list StravaEvent.t) (k : nat) :
  Strava.fetchClubEvents fuel STRAVA_CLUB_ID net s = Some (Ok events, s') ->
  (length (Strava.sent s) <= k < length (Strava.sent s'))%nat ->
  exists resp,
    Strava.answer net k = Some resp
    /\ (Http.StatusCode resp = 200 \/ Http.StatusCode resp = 401).
Proof.
  unfold Strava.fetchClubEvents. intros H Hk.
  destruct (Strava.getClubID STRAVA_CLUB_ID) as [clubID | err]; [| discriminate].
  exact (AnswerFacts.fetchLoop_answered net clubID fuel s 1 [] events s' H k Hk).
Qed.

Lemma fetch_returns_events_only_after_good_answers_witness :
  exists events s',
    Strava.fetchClubEvents 2 ``"4242" expiredThenTwoPages signedIn = Some (Ok events, s')
    /\ (length (Strava.sent signedIn) <= 1 < length (Strava.sent s'))%nat
    /\ exists resp,
         Strava.answer expiredThenTwoPages 1 = Some resp
         /\ (Http.StatusCode resp = 200 \/ Http.StatusCode resp = 401).
Proof.
  eexists _, _. split; [vm_compute; reflexivity |].
  assert (length (Strava.sent signedIn) <= 1 < 4)%nat as Hk by (cbn; lia).
  split; [exact Hk |].
  eapply (fetch_returns_events_only_after_good_answers 2 ``"4242" expiredThenTwoPages signedIn).
  - vm_compute. reflexivity.
  - exact Hk.
Defined.


(** ** Redaction *)

(** X26.  Redaction leaves a text without digits alone: for a text that
    holds no ASCII digit, [redactPhoneNumbers] only rewrites the older
    marker [<Phone Number Redacted>] as [[Phone Number Redacted]]; none of
    the eight phone patterns matches. *)
Theorem text_without_digits_is_not_redacted (text : gostring) :
  Forall (fun c => Strconv.isDigit c = false) text ->
  Strava.redactPhoneNumbers text
  = Strings.ReplaceAll text ``"<Phone Number Redacted>" ``"[Phone Number Redacted]".
Proof.
  intros Htext. unfold Strava.redactPhoneNumbers.
  rewrite ReplaceFacts.ReplaceAll_same by discriminate.
  apply RedactFacts.patterns_noDigits; [reflexivity |].
  apply ReplaceFacts.replaceFrom_Forall; [| exact Htext].
  repeat constructor.
Qed.

Lemma text_without_digits_is_not_redacted_witness :
  Strava.redactPhoneNumbers ``"Meet at the clock tower (call <Phone Number Redacted>)"
  = ``"Meet at the clock tower (call [Phone Number Redacted])".
Proof.
  apply (text_without_digits_is_not_redacted
           ``"Meet at the clock tower (call <Phone Number Redacted>)").
  repeat constructor.
Defined.

(** X27.  Redaction leaves no phone number behind: nowhere in the result of
    [redactPhoneNumbers] does one of the eight phone patterns match, with
    the byte before that place, if any, as the context of its [\b]. *)
Theorem redaction_leaves_no_match (text : gostring) (pattern : Regexp.pattern)
        (before after : gostring) :
  In pattern Strava.phonePatterns ->
  Strava.redactPhoneNumbers text = before ++ after ->
  Regexp.matchHere pattern (last before) after = None.
Proof.
  intros Hp Hs. rewrite <- MatchFacts.lastOr_last.
  apply (RedactionFacts.redact_clean text pattern); [now right | exact Hs].
Qed.

Lemma redaction_leaves_no_match_witness :
  Strava.redactPhoneNumbers ``"Ring Ada on 07801 252100 or +44 (0)7801-252-100."
  = ``"Ring Ada on " ++ ``"[Phone Number Redacted] or [Phone Number Redacted]."
  /\ Regexp.matchHere
       [Regexp.Boundary; Regexp.Lit "0"%char; Regexp.Rep Regexp.Digit 9 (Some 10%nat);
        Regexp.Boundary]
       (last ``"Ring Ada on ") ``"[Phone Number Redacted] or [Phone Number Redacted]." = None.
Proof.
  assert (Strava.redactPhoneNumbers ``"Ring Ada on 07801 252100 or +44 (0)7801-252-100."
          = ``"Ring Ada on " ++ ``"[Phone Number Redacted] or [Phone Number Redacted].") as H
    by (vm_compute; reflexivity).
  split; [exact H |].
  apply (redaction_leaves_no_match _ _ _ _ (or_intror (or_intror (or_intror (or_intror
           (or_intror (or_intror (or_intror (or_introl eq_refl)))))))) H).
Defined.

(** X28.  Redaction is idempotent: redacting a redacted text changes
    nothing. *)
Theorem redaction_is_idempotent (text : gostring) :
  Strava.redactPhoneNumbers (Strava.redactPhoneNumbers text)
  = Strava.redactPhoneNumbers text.
Proof. apply RedactionFacts.redact_idempotent. Qed.

(** X29.  The cache keeps converted events as they are: the redaction that
    [loadExistingEvents] applies to every event it loads changes nothing
    in an event that [convertStravaEvent] has built. *)
Theorem loading_keeps_converted_events (STRAVA_CLUB_ID : gostring) (se : StravaEvent.t)
        (event : Event) :
  Strava.convertStravaEvent STRAVA_CLUB_ID Strava.redactPhoneNumbers se = Ok event ->
  Main.redactDescription Strava.redactPhoneNumbers event = event.
Proof.
  unfold Strava.convertStravaEvent.
  destruct (StravaEvent.UpcomingOccurrences se) as [| first rest]; [discriminate |].
  destruct (GoTime.ParseStravaLayout first) as [t |]; [| discriminate].
  destruct (Strava.getClubID STRAVA_CLUB_ID); [| discriminate].
  intros [= <-]. unfold Main.redactDescription.
  cbn [ID Title Start End Description URL Location Organizer SkillLevels Terrain].
  now rewrite RedactionFacts.redact_idempotent.
Qed.

Lemma loading_keeps_converted_events_witness :
  exists event,
    Strava.convertStravaEvent ``"4242" Strava.redactPhoneNumbers tempoRun = Ok event
    /\ Main.redactDescription Strava.redactPhoneNumbers event = event.
Proof.
  eexists. split; [vm_compute; reflexivity |].
  apply (loading_keeps_converted_events ``"4242" tempoRun). vm_compute. reflexivity.
Defined.

(** X30.  Redaction takes nothing but phone bytes away: the bytes of the
    text that are neither digits, white space, hyphens, plus signs nor
    round brackets are all in the result, in their order (after the older
    marker has been rewritten); what is added between them is the
    marker. *)
Theorem redaction_keeps_the_other_bytes (text : gostring) :
  let other (s : gostring) :=
    List.filter (fun c => negb (Regexp.inClass Regexp.Digit c
                                || Regexp.inClass Regexp.SpaceOrHyphen c
                                || bool_decide (c = "+"%char)
                                || bool_decide (c = "("%char)
                                || bool_decide (c = ")"%char))) s in
  sublist (other (Strings.ReplaceAll text ``"<Phone Number Redacted>" ``"[Phone Number Redacted]"))
          (other (Strava.redactPhoneNumbers text)).
Proof.
  cbv zeta. rewrite RedactionFacts.redact_passes.
  unfold RedactionFacts.passes, RedactionFacts.allPatterns. cbn [fold_left].
  assert (PassFacts.scan RedactionFacts.oldMarker None text
          = Strings.ReplaceAll text ``"<Phone Number Redacted>" ``"[Phone Number Redacted]") as ->.
  { unfold Strings.ReplaceAll. symmetry.
    now apply (RedactionFacts.ReplaceAll_literal ``"<Phone Number Redacted>"). }
  apply (KeepFacts.passes_keep_other Strava.phonePatterns); reflexivity.
Qed.
